(** * Graph algorithm engine of GraphTheoryVisualizer (main.py)

    A shallow embedding of the four engines of [main.py] ([bfs], [dfs],
    [kruskals], [dijk]) together with the properties their traces satisfy.

    Conventions.
    - Python integers are [Z]; node identifiers are integers.
    - The adjacency mapping is a Python dict from a node to the list of its
      [[weight, neighbour]] entries, in insertion order: a [gmap Z (list (Z * Z))].
      Weights are integers, as [create_networkx_graph] makes them with
      [int(round(...))].
    - A Python exception is a value of [exn]; a run returns an [outcome].
      Loops that Python runs until a condition fails take a [fuel] bound;
      [OutOfFuel] is never a Python result, it only says that the bound was
      too small. *)

From stdpp Require Import gmap list relations sorting.
From Stdlib Require Import ZArith Lia.

Local Open Scope Z_scope.

(** ** Outcomes of a run *)

Inductive exn : Type :=
| KeyError (k : Z)      (* dict lookup of an absent key *)
| IndexError            (* list index out of range *)
| OverflowError.        (* int too large to convert to float *)

Inductive outcome (A : Type) : Type :=
| Done (a : A)
| Raise (e : exn)
| OutOfFuel.
Arguments Done {A} a.
Arguments Raise {A} e.
Arguments OutOfFuel {A}.

Definition obind {A B} (f : A → outcome B) (m : outcome A) : outcome B :=
  match m with
  | Done a => f a
  | Raise e => Raise e
  | OutOfFuel => OutOfFuel
  end.

#[global] Instance outcome_fmap : FMap outcome := λ A B f m,
  match m with
  | Done a => Done (f a)
  | Raise e => Raise e
  | OutOfFuel => OutOfFuel
  end.
#[global] Instance outcome_ret : MRet outcome := λ A a, Done a.
#[global] Instance outcome_bind : MBind outcome := λ A B f m, obind f m.

(** A Python [for x in l: body] over a list that the body does not change. *)
Fixpoint for_each {A S} (body : A → S → outcome S) (l : list A) (s : S)
  : outcome S :=
  match l with
  | [] => Done s
  | x :: l' =>
      match body x s with
      | Done s' => for_each body l' s'
      | Raise e => Raise e
      | OutOfFuel => OutOfFuel
      end
  end.

(** ** The graph model *)

(** [graph[u]]: the adjacency list of [u], entries [(weight, neighbour)]. *)
Abbreviation graph := (gmap Z (list (Z * Z))).

(** This is the distance of infinity: [INF = int(2e9)]. *)
Definition INF : Z := 2000000000.

(** [v] is listed under [u]. *)
Definition edge (g : graph) (u v : Z) : Prop :=
  ∃ adj w, g !! u = Some adj ∧ (w, v) ∈ adj.

(** [v] is listed under [u] with weight [w]. *)
Definition wedge (g : graph) (u : Z) (w : Z) (v : Z) : Prop :=
  ∃ adj, g !! u = Some adj ∧ (w, v) ∈ adj.

(** Every listed neighbour is itself a key of the mapping
    ([create_networkx_graph] gives every node a key before it adds edges). *)
Definition closed (g : graph) : Prop :=
  ∀ u v, edge g u v → is_Some (g !! v).

(** The adjacency mapping of an undirected graph: an edge is listed under
    both of its endpoints with the same weight. *)
Definition symmetric (g : graph) : Prop :=
  ∀ u w v, wedge g u w v → wedge g v w u.

Definition nonneg (g : graph) : Prop :=
  ∀ u w v, wedge g u w v → 0 ≤ w.

(** Nodes reached from [s] along listed edges. *)
Definition reach (g : graph) : Z → Z → Prop := rtc (edge g).

(** The connected component: edges taken in either direction. *)
Definition connected (g : graph) : Z → Z → Prop := rtsc (edge g).

(** Boolean checks of the hypotheses, for concrete graphs. *)
Definition closedb (g : graph) : bool :=
  bool_decide (map_Forall (λ _ adj, Forall (λ e : Z * Z, is_Some (g !! e.2)) adj) g).

Definition nonnegb (g : graph) : bool :=
  bool_decide (map_Forall (λ _ adj, Forall (λ e : Z * Z, 0 ≤ e.1) adj) g).

Definition symmetricb (g : graph) : bool :=
  bool_decide (map_Forall (λ u adj,
    Forall (λ e : Z * Z, (e.1, u) ∈ default [] (g !! e.2)) adj) g).

(** ** Breadth-first search *)

Module BFS.

(** The three lists of [bfs]. *)
Record state : Type := State {
  queue : list Z;
  bfs_visited : list Z;
  order_visited : list (Z * Z)
}.

(** One pass of [for neighbour in graph[current_node]]. *)
Definition visit (current_node : Z) (st : state) (neighbour : Z * Z) : state :=
  let adjacent_node := neighbour.2 in
  if decide (adjacent_node ∈ bfs_visited st) then st
  else {| queue := queue st ++ [adjacent_node];
          bfs_visited := bfs_visited st ++ [adjacent_node];
          order_visited := order_visited st ++ [(current_node, adjacent_node)] |}.

Definition scan (current_node : Z) (adj : list (Z * Z)) (st : state) : state :=
  foldl (visit current_node) st adj.

(** [queue.pop(0)] *)
Definition pop0 (st : state) : state :=
  {| queue := tail (queue st);
     bfs_visited := bfs_visited st;
     order_visited := order_visited st |}.

(** [while queue: ...] *)
Fixpoint loop (fuel : nat) (g : graph) (st : state) : outcome (list (Z * Z)) :=
  match queue st with
  | [] => Done (order_visited st)
  | current_node :: _ =>
      match fuel with
      | O => OutOfFuel
      | S fuel' =>
          match g !! current_node with
          | None => Raise (KeyError current_node)
          | Some adj => loop fuel' g (pop0 (scan current_node adj st))
          end
      end
  end.

Definition init (start : Z) : state :=
  {| queue := [start]; bfs_visited := [start]; order_visited := [(start, start)] |}.

Definition bfs (fuel : nat) (g : graph) (start : Z) : outcome (list (Z * Z)) :=
  loop fuel g (init start).

(** How often [v] is the target of an event. *)
Definition targeted (v : Z) (order : list (Z * Z)) : nat :=
  length (filter (λ e : Z * Z, e.2 = v) order).

(** The loop invariant used to verify [bfs]; [processed] are the nodes
    already dequeued. *)
Record inv (g : graph) (start : Z) (processed : list Z) (st : state) : Prop := {
  inv_split : bfs_visited st = processed ++ queue st;
  inv_nodup : NoDup (bfs_visited st);
  inv_targets : (order_visited st).*2 = bfs_visited st;
  inv_sources : ∀ e, e ∈ order_visited st → e.1 ∈ bfs_visited st;
  inv_done : ∀ u v, u ∈ processed → edge g u v → v ∈ bfs_visited st;
  inv_reach : ∀ v, v ∈ bfs_visited st → reach g start v;
  inv_head : head (order_visited st) = Some (start, start)
}.

End BFS.

(** The graph of the spec's scenario: edges (0,1,5), (1,2,3), (2,3,1), (0,3,10). *)
Definition scenario : graph :=
  list_to_map
    [ (0, [(5, 1); (10, 3)]);
      (1, [(5, 0); (3, 2)]);
      (2, [(3, 1); (1, 3)]);
      (3, [(1, 2); (10, 0)]) ].


(** ** Dijkstra *)

Module Dijkstra.

(** Python orders the tuples [(distance, node)] lexicographically. *)
Definition tuple_leb (x y : Z * Z) : bool :=
  (x.1 <? y.1) || ((x.1 =? y.1) && (x.2 <=? y.2)).

(** [heapq]: a priority queue of tuples from which [heappop] takes the least
    one.  The queue is kept in ascending order, so that the least tuple is
    its head; equal tuples are indistinguishable. *)
Fixpoint hpush (heap : list (Z * Z)) (item : Z * Z) : list (Z * Z) :=
  match heap with
  | [] => [item]
  | x :: heap' =>
      if tuple_leb item x then item :: heap else x :: hpush heap' item
  end.

Definition hpop (heap : list (Z * Z)) : option ((Z * Z) * list (Z * Z)) :=
  match heap with
  | [] => None
  | x :: heap' => Some (x, heap')
  end.

Record state : Type := State {
  heap : list (Z * Z);
  dists : gmap Z Z;
  order_visited : list Z;
  animation_dists : list (gmap Z Z)
}.

(** The body of [for wt, node in graph[cur]]. *)
Definition relax (cur : Z) (e : Z * Z) (st : state) : outcome state :=
  let '(wt, node) := e in
  match dists st !! cur with
  | None => Raise (KeyError cur)
  | Some dc =>
      match dists st !! node with
      | None => Raise (KeyError node)
      | Some dn =>
          if decide (dc + wt < dn) then
            let dists' := <[node := dc + wt]> (dists st) in
            Done {| heap := hpush (heap st) (dc + wt, node);
                    dists := dists';
                    order_visited := order_visited st ++ [node];
                    animation_dists := animation_dists st ++ [dists'] |}
          else Done st
      end
  end.

Definition with_heap (h : list (Z * Z)) (st : state) : state :=
  {| heap := h; dists := dists st; order_visited := order_visited st;
     animation_dists := animation_dists st |}.

(** [while heap: ...] *)
Fixpoint loop (fuel : nat) (g : graph) (st : state)
  : outcome (list (gmap Z Z) * list Z) :=
  match hpop (heap st) with
  | None => Done (animation_dists st, order_visited st)
  | Some ((_, cur), heap') =>
      match fuel with
      | O => OutOfFuel
      | S fuel' =>
          match g !! cur with
          | None => Raise (KeyError cur)
          | Some adj =>
              match for_each (relax cur) adj (with_heap heap' st) with
              | Done st' => loop fuel' g st'
              | Raise e => Raise e
              | OutOfFuel => OutOfFuel
              end
          end
      end
  end.

Definition init (g : graph) (start : Z) : state :=
  let dists := <[start := 0]> ((λ _, INF) <$> g) in
  {| heap := [(0, start)]; dists := dists;
     order_visited := [start]; animation_dists := [dists] |}.

Definition dijk (fuel : nat) (g : graph) (start : Z)
  : outcome (list (gmap Z Z) * list Z) :=
  loop fuel g (init g start).

(** *** Counting relaxation events

    A relaxation event is one execution of the body of
    [if dists[cur] + wt < dists[node]].  The functions below follow [relax]
    and [loop] and count these executions. *)

Definition relaxes (cur : Z) (e : Z * Z) (st : state) : bool :=
  match dists st !! cur, dists st !! e.2 with
  | Some dc, Some dn => bool_decide (dc + e.1 < dn)
  | _, _ => false
  end.

Fixpoint scan_events (cur : Z) (adj : list (Z * Z)) (st : state) : nat :=
  match adj with
  | [] => 0
  | e :: adj' =>
      match relax cur e st with
      | Done st' => ((if relaxes cur e st then 1 else 0) + scan_events cur adj' st')%nat
      | _ => 0%nat
      end
  end.

Fixpoint loop_events (fuel : nat) (g : graph) (st : state) : nat :=
  match hpop (heap st) with
  | None => 0
  | Some ((_, cur), heap') =>
      match fuel with
      | O => 0
      | S fuel' =>
          match g !! cur with
          | None => 0
          | Some adj =>
              match for_each (relax cur) adj (with_heap heap' st) with
              | Done st' =>
                  (scan_events cur adj (with_heap heap' st) + loop_events fuel' g st')%nat
              | _ => 0%nat
              end
          end
      end
  end.

Definition relaxation_events (fuel : nat) (g : graph) (start : Z) : nat :=
  loop_events fuel g (init g start).

(** *** The reference: shortest walks *)

(** [walk g s v d]: there is a walk from [s] to [v] of total weight [d]. *)
Inductive walk (g : graph) (s : Z) : Z → Z → Prop :=
| walk_here : walk g s s 0
| walk_step u w v d : walk g s u d → wedge g u w v → walk g s v (d + w).

(** [d] is the weight of a lightest walk from [s] to [v]. *)
Definition shortest (g : graph) (s v : Z) (d : Z) : Prop :=
  walk g s v d ∧ ∀ d', walk g s v d' → d ≤ d'.

(** The sum of the entries of a distance table. *)
Definition total (m : gmap Z Z) : Z :=
  map_fold (λ _ d acc, d + acc) 0 m.

(** *** Invariants used to verify [dijk] *)

(** Every edge out of [u] is relaxed with respect to the table [m]. *)
Definition settled (g : graph) (m : gmap Z Z) (u : Z) : Prop :=
  ∀ w v, wedge g u w v →
    ∃ du dv, m !! u = Some du ∧ m !! v = Some dv ∧ dv ≤ du + w.

Definition queued (st : state) (u : Z) : Prop := ∃ k, (k, u) ∈ heap st.

(** Every reached node other than [skip] is in the heap or settled. *)
Definition pending_ok (g : graph) (st : state) (skip : option Z) : Prop :=
  ∀ u du, Some u ≠ skip → dists st !! u = Some du → du < INF →
    queued st u ∨ settled g (dists st) u.

Record inv (g : graph) (start : Z) (st : state) : Prop := {
  inv_dom : ∀ v, is_Some (dists st !! v) ↔ is_Some (g !! v);
  inv_start : dists st !! start = Some 0;
  inv_range : ∀ v d, dists st !! v = Some d → 0 ≤ d ≤ INF;
  inv_walk : ∀ v d, dists st !! v = Some d → d < INF → walk g start v d;
  inv_heap : ∀ k u, (k, u) ∈ heap st → is_Some (g !! u);
  inv_last : last (animation_dists st) = Some (dists st)
}.

(** Each snapshot is pointwise at most its predecessor, on the same keys. *)
Definition table_le (a b : gmap Z Z) : Prop :=
  ∀ v x, a !! v = Some x → ∃ y, b !! v = Some y ∧ y ≤ x.

Definition mono_trace (l : list (gmap Z Z)) : Prop :=
  ∀ i a b, l !! i = Some a → l !! S i = Some b → table_le a b.

(** A graph with one edge heavier than the sentinel. *)
Definition far : graph :=
  list_to_map [ (0, [(2000000001, 1)]); (1, [(2000000001, 0)]) ].

End Dijkstra.

(** ** Kruskal *)

Module Kruskal.

(** An element [[a, b, weight]] of [edge_weights_labels]. *)
Abbreviation edge_t := (Z * Z * Z)%type.

Definition weight (e : edge_t) : Z := e.2.

(** [edges.sort(key=lambda x: x[2])]: Python's sort is stable, elements of
    equal weight keep their order. *)
Fixpoint insert_by_weight (e : edge_t) (l : list edge_t) : list edge_t :=
  match l with
  | [] => [e]
  | x :: l' =>
      if decide (weight e ≤ weight x) then e :: l else x :: insert_by_weight e l'
  end.

Fixpoint sort_by_weight (l : list edge_t) : list edge_t :=
  match l with
  | [] => []
  | e :: l' => insert_by_weight e (sort_by_weight l')
  end.

(** A Python list index: [0 .. len-1], or [-len .. -1] counted from the end. *)
Definition py_index (len : nat) (x : Z) : option nat :=
  if decide (0 ≤ x < Z.of_nat len) then Some (Z.to_nat x)
  else if decide (- Z.of_nat len ≤ x < 0) then Some (Z.to_nat (Z.of_nat len + x))
  else None.

(** [root[x]] *)
Definition get (root : list Z) (x : Z) : outcome Z :=
  match py_index (length root) x ≫= (root !!.) with
  | Some v => Done v
  | None => Raise IndexError
  end.

(** [root[x] = v] *)
Definition set (root : list Z) (x v : Z) : outcome (list Z) :=
  match py_index (length root) x with
  | Some i => Done (<[i := v]> root)
  | None => Raise IndexError
  end.

(** [find(x)], with the list [root] it reads and updates passed along;
    [fuel] bounds the depth of the recursion. *)
Fixpoint find (fuel : nat) (x : Z) (root : list Z) : outcome (Z * list Z) :=
  match fuel with
  | O => OutOfFuel
  | S fuel' =>
      rx ← get root x;
      if decide (rx = x) then Done (x, root)
      else
        '(r, root1) ← find fuel' rx root;
        root2 ← set root1 x r;
        r' ← get root2 x;
        Done (r', root2)
  end.

(** [root[find(a)] = root[find(b)]]: Python evaluates the right-hand side,
    then the index of the target, then stores. *)
Definition join (fuel : nat) (a b : Z) (root : list Z) : outcome (list Z) :=
  '(fb, root1) ← find fuel b root;
  v ← get root1 fb;
  '(fa, root2) ← find fuel a root1;
  set root2 fa v.

(** The body of [for i in range(len(edges))]. *)
Definition step (fuel : nat) (e : edge_t) (st : list Z * list (edge_t * bool))
  : outcome (list Z * list (edge_t * bool)) :=
  let '(root, order_vis) := st in
  let '(a, b, wt) := e in
  '(fa, root1) ← find fuel a root;
  '(fb, root2) ← find fuel b root1;
  if decide (fa ≠ fb) then
    root3 ← join fuel a b root2;
    Done (root3, order_vis ++ [(e, true)])
  else Done (root2, order_vis ++ [(e, false)]).

(** [kruskals(G, N)]. The edge list is the module-level list
    [edge_weights_labels], which [edges.sort] sorts in place: the second
    component of the result is that list as the call leaves it. The
    parameter [G] is not read. *)
Definition kruskals {A : Type} (fuel : nat) (G : A) (N : Z)
    (edge_weights_labels : list edge_t)
  : outcome (list (edge_t * bool)) * list edge_t :=
  let root := seqZ 0 N in
  let edges := sort_by_weight edge_weights_labels in
  (snd <$> for_each (step fuel) edges (root, []), edges).

(** The number of accepted edges of a trace. *)
Definition accepted (order_vis : list (edge_t * bool)) : nat :=
  length (filter (λ ev : edge_t * bool, ev.2 = true) order_vis).

(** *** The reference: connected components of the input *)

Definition linked (es : list edge_t) (u v : Z) : Prop := ∃ w, (u, v, w) ∈ es.

Definition conn (es : list edge_t) : Z → Z → Prop := rtsc (linked es).

(** [reps] holds exactly one node of every connected component of the graph
    on the nodes [0 .. N-1] with the edges [es]. *)
Record transversal (N : Z) (es : list edge_t) (reps : list Z) : Prop := {
  tr_nodup : NoDup reps;
  tr_range : ∀ r, r ∈ reps → 0 ≤ r < N;
  tr_cover : ∀ x, 0 ≤ x < N → ∃ r, r ∈ reps ∧ conn es x r;
  tr_apart : ∀ r r', r ∈ reps → r' ∈ reps → conn es r r' → r = r'
}.

(** The graph has [k] connected components. *)
Definition components (N : Z) (es : list edge_t) (k : nat) : Prop :=
  ∃ reps, transversal N es reps ∧ length reps = k.

(** An endpoint that indexes a list of [N] elements. *)
Definition index_ok (N : Z) (x : Z) : Prop := - N ≤ x < N.

Definition endpoints_ok (N : Z) (e : edge_t) : Prop :=
  index_ok N e.1.1 ∧ index_ok N e.1.2.

Definition endpoints_in (N : Z) (e : edge_t) : Prop :=
  (0 ≤ e.1.1 < N) ∧ (0 ≤ e.1.2 < N).

(** *** The disjoint-set forest *)

(** [rep root x r]: following [root] from [x] ends at the root [r]. *)
Inductive rep (root : list Z) : Z → Z → Prop :=
| rep_root x : 0 ≤ x → root !! Z.to_nat x = Some x → rep root x x
| rep_step x p r :
    0 ≤ x → root !! Z.to_nat x = Some p → p ≠ x → rep root p r → rep root x r.

(** The parent pointers stay inside the list and strictly climb a rank
    that is bounded by [bound]. *)
Record forest (root : list Z) (rank : Z → nat) (bound : nat) : Prop := {
  fo_range : ∀ x p, 0 ≤ x → root !! Z.to_nat x = Some p →
             0 ≤ p < Z.of_nat (length root);
  fo_rank : ∀ x p, 0 ≤ x → root !! Z.to_nat x = Some p → p ≠ x →
            (rank x < rank p)%nat;
  fo_bound : ∀ x, (rank x ≤ bound)%nat
}.

(** [root'] has the same length, representatives and roots as [root]. *)
Definition preserves (root root' : list Z) : Prop :=
  length root' = length root ∧
  (∀ y s, rep root y s → rep root' y s) ∧
  (∀ y, 0 ≤ y → root' !! Z.to_nat y = Some y ↔ root !! Z.to_nat y = Some y).

(** The rank after the root [ra] is put under the root [rb]. *)
Definition link_rank (rank : Z → nat) (ra rb : Z) : Z → nat :=
  λ y, if decide (y = rb) then (rank rb `max` S (rank ra))%nat else rank y.

(** What processing an edge between the indices [a] and [b] does to the
    forest: nothing but compression when they have the same representative,
    and otherwise the representative [ra] of [a] is put under that of [b]. *)
Definition step_post (root root' : list Z) (a b : Z) (added : bool) : Prop :=
  length root' = length root ∧
  ∃ ra rb,
    rep root a ra ∧ rep root b rb ∧ added = bool_decide (ra ≠ rb) ∧
    (∀ y s, rep root y s →
       rep root' y (if added && bool_decide (s = ra) then rb else s)) ∧
    (∀ y, 0 ≤ y →
       root' !! Z.to_nat y = Some y ↔
       root !! Z.to_nat y = Some y ∧ (added = true → y ≠ ra)).

(** The forest agrees with the connectivity of the edges [es] processed so
    far: a node is connected to its representative, and the endpoints of a
    processed edge have the same representative. *)
Definition sound (root : list Z) (es : list edge_t) : Prop :=
  ∀ x r, rep root x r → conn es x r.

Definition complete (root : list Z) (es : list edge_t) : Prop :=
  ∀ a b w, (a, b, w) ∈ es → ∃ r, rep root a r ∧ rep root b r.

(** The roots of the forest. *)
Definition roots (root : list Z) : list Z :=
  filter (λ x, root !! Z.to_nat x = Some x) (seqZ 0 (Z.of_nat (length root))).

(** The index an endpoint stands for. *)
Definition norm (len : nat) (x : Z) : Z :=
  if decide (0 ≤ x) then x else Z.of_nat len + x.

(** The edge list of the spec's scenario. *)
Definition scenario_edges : list edge_t :=
  [(0, 1, 5); (1, 2, 3); (2, 3, 1); (0, 3, 10)].

End Kruskal.

(** ** Depth-first search *)

Module DFS.

(** The two lists that [dfs] is handed and appends to. *)
Record state : Type := State {
  visited : list Z;
  path : list Z
}.

Definition append_path (x : Z) (st : state) : state :=
  {| visited := visited st; path := path st ++ [x] |}.

(** [dfs(graph, current, parent, visited, path)]: the result is what the
    call returns ([None], or the list [path]) and the two lists as the call
    leaves them; [fuel] bounds the depth of the recursion. *)
Fixpoint dfs (fuel : nat) (g : graph) (current parent : Z) (st : state)
  : outcome (option (list Z) * state) :=
  match fuel with
  | O => OutOfFuel
  | S fuel' =>
      if decide (current ∈ visited st) then Done (None, st)
      else
        let st1 := {| visited := visited st ++ [current];
                      path := path st ++ [current] |} in
        match g !! current with
        | None => Raise (KeyError current)
        | Some adjs =>
            st2 ← for_each
                     (λ adj s, snd <$> dfs fuel' g adj.2 current s) adjs st1;
            let st3 := if decide (parent ≠ -1) then append_path parent st2
                       else st2 in
            Done (Some (path st3), st3)
        end
  end.

(** [dfs(adj_list, start, -1, [], [])], as [update_dfs] calls it. *)
Definition dfs_path (fuel : nat) (g : graph) (start : Z)
  : outcome (option (list Z) * state) :=
  dfs fuel g start (-1) {| visited := []; path := [] |}.

(** *** The shape of the path *)

(** [subtree g p c l]: [l] is what a visit of [c] from its parent [p]
    appends: [c] itself, then the entries of the visits of neighbours of
    [c], then the backtrack marker [p].
    [children g c body]: [body] is a sequence of such visits from [c]. *)
Inductive subtree (g : graph) : Z → Z → list Z → Prop :=
| subtree_intro p c body :
    children g c body → subtree g p c (c :: body ++ [p])
with children (g : graph) : Z → list Z → Prop :=
| children_nil c : children g c []
| children_cons c c' l body :
    edge g c c' → subtree g c c' l → children g c body →
    children g c (l ++ body).

(** The first appearance of [v] in [path] comes right after an entry [p]
    of which [v] is a neighbour, and is followed by the entries of the
    subtree of [v] and then, immediately, by [p] again. *)
Definition backtracked (g : graph) (path : list Z) (v : Z) : Prop :=
  ∃ pre p body post,
    path = pre ++ (v :: body ++ [p]) ++ post ∧
    (v ∉ pre) ∧ last pre = Some p ∧ edge g p v ∧ children g v body.

(** The invariant of the two lists. *)
Record inv (g : graph) (st : state) : Prop := {
  inv_path : ∀ x, x ∈ path st → x ∈ visited st;
  inv_keys : ∀ x, x ∈ visited st → is_Some (g !! x);
  inv_nodup : NoDup (visited st)
}.

(** A graph in which a node is named [-1]: 5 - (-1) - 7. *)
Definition minus_one : graph :=
  list_to_map
    [ (5, [(1, (-1))]); ((-1), [(1, 5); (1, 7)]); (7, [(1, (-1))]) ].

End DFS.

(** ** The engines and the objects they are handed *)

Module Engine.

(** The module-level objects of [main.py] that the engines are run on: the
    adjacency mapping [adj_list] and the edge list [edge_weights_labels]. *)
Record world : Type := World {
  adj_list : graph;
  edge_weights_labels : list Kruskal.edge_t
}.

(** The engine calls made by [update_bfs], [update_dfs], [update_dijk] and
    [update_mst]. *)
Inductive call : Type :=
| Bfs (start : Z)       (* bfs(adj_list, start) *)
| Dfs (start : Z)       (* dfs(adj_list, start, -1, [], []) *)
| Dijk (start : Z)      (* dijk(adj_list, start) *)
| Kruskals (N : Z).     (* kruskals(edge_weights_labels, N) *)

Inductive result : Type :=
| BfsTrace (r : outcome (list (Z * Z)))
| DfsPath (r : outcome (option (list Z) * DFS.state))
| DijkTrace (r : outcome (list (gmap Z Z) * list Z))
| KruskalTrace (r : outcome (list (Kruskal.edge_t * bool))).

(** A call and the objects as it leaves them. [bfs], [dfs] and [dijk] only
    read the mapping they are given; [kruskals] sorts the edge list, which
    [update_mst] also passes as its first argument. *)
Definition run (fuel : nat) (c : call) (w : world) : result * world :=
  match c with
  | Bfs start => (BfsTrace (BFS.bfs fuel (adj_list w) start), w)
  | Dfs start => (DfsPath (DFS.dfs_path fuel (adj_list w) start), w)
  | Dijk start => (DijkTrace (Dijkstra.dijk fuel (adj_list w) start), w)
  | Kruskals N =>
      let '(r, edges) :=
        Kruskal.kruskals fuel (edge_weights_labels w) N (edge_weights_labels w) in
      (KruskalTrace r, {| adj_list := adj_list w; edge_weights_labels := edges |})
  end.

(** The objects of the spec's scenario. *)
Definition scenario_world : world :=
  {| adj_list := scenario; edge_weights_labels := Kruskal.scenario_edges |}.

End Engine.

(** * Further parts of [main.py] *)

(** ** The local lists of [bfs] when the call ends *)

Module BfsLocals.

(** [while queue: ...], as [BFS.loop], together with the three local lists
    as they stand when the call ends, by [return] or by the exception of
    the lookup [graph[current_node]]. *)
Fixpoint loop (fuel : nat) (g : graph) (st : BFS.state)
  : outcome (list (Z * Z)) * BFS.state :=
  match BFS.queue st with
  | [] => (Done (BFS.order_visited st), st)
  | current_node :: _ =>
      match fuel with
      | O => (OutOfFuel, st)
      | S fuel' =>
          match g !! current_node with
          | None => (Raise (KeyError current_node), st)
          | Some adj => loop fuel' g (BFS.pop0 (BFS.scan current_node adj st))
          end
      end
  end.

(** [bfs(graph, start)]: the three lists are set up from [start] before
    the loop is entered. *)
Definition bfs (fuel : nat) (g : graph) (start : Z)
  : outcome (list (Z * Z)) * BFS.state :=
  loop fuel g (BFS.init start).

End BfsLocals.

(** ** The disjoint-set list of [kruskals] *)

Module DisjointSet.

(** A list of parent pointers without cycles and without pointers out of
    the list, as [list(range(N))] is and as [find] and [join] keep it. *)
Definition well_formed (root : list Z) : Prop :=
  ∃ rank bound, Kruskal.forest root rank bound.

(** [on_path root x y]: [y] is met when following [root] from [x]
    (from [x] itself up to the root of its tree). *)
Inductive on_path (root : list Z) : Z → Z → Prop :=
| on_path_here x : on_path root x x
| on_path_step x p y :
    0 ≤ x → root !! Z.to_nat x = Some p → p ≠ x → on_path root p y →
    on_path root x y.

End DisjointSet.

(** ** The spanning forest that [kruskals] selects *)

Module Mst.

(** The edges of the accepted events of a trace, in trace order. *)
Definition accepted_edges (order_vis : list (Kruskal.edge_t * bool))
  : list Kruskal.edge_t :=
  (filter (λ ev : Kruskal.edge_t * bool, ev.2 = true) order_vis).*1.

(** A list of edges without a cycle: each edge joins two nodes that the
    edges before it do not connect. *)
Inductive acyclic : list Kruskal.edge_t → Prop :=
| acyclic_nil : acyclic []
| acyclic_snoc es a b w :
    acyclic es → ¬ Kruskal.conn es a b → acyclic (es ++ [(a, b, w)]).

(** The verdict of every event is what the edges before it command:
    accepted exactly when they do not connect its endpoints. *)
Definition accept_ok (done : list Kruskal.edge_t)
    (order_vis : list (Kruskal.edge_t * bool)) : Prop :=
  ∀ pre a b w added post,
    order_vis = pre ++ ((a, b, w), added) :: post →
    if added then ¬ Kruskal.conn (done ++ pre.*1) a b
    else Kruskal.conn (done ++ pre.*1) a b.

(** The sum of the weights of a list of edges. *)
Definition total_weight (es : list Kruskal.edge_t) : Z :=
  foldr (λ e acc, Kruskal.weight e + acc) 0 es.

(** How many edges of a list weigh at most [t]. *)
Definition light (t : Z) (es : list Kruskal.edge_t) : nat :=
  length (filter (λ e, Kruskal.weight e ≤ t) es).

(** [f] is a spanning forest of the graph on [0 .. N-1] with the edges
    [es]: some of the edges, without a cycle, connecting what [es] connects. *)
Record spanning_forest (es f : list Kruskal.edge_t) : Prop := {
  sf_sub : ∀ e, e ∈ f → e ∈ es;
  sf_acyclic : acyclic f;
  sf_spans : ∀ x y, Kruskal.conn es x y → Kruskal.conn f x y
}.

End Mst.

(** ** The frames of [dijk] *)

Module Relaxation.

(** One execution of the body of [if dists[cur] + wt < dists[node]]: the
    table [b] is the table [a] with the entry of [v] lowered to the entry
    of some [cur] plus the weight of an edge from [cur] to [v]. *)
Definition relaxation (g : graph) (a b : gmap Z Z) (v : Z) : Prop :=
  ∃ cur wt dc dv,
    wedge g cur wt v ∧ a !! cur = Some dc ∧ a !! v = Some dv ∧
    dc + wt < dv ∧ b = <[v := dc + wt]> a.

(** Each snapshot after the first comes from its predecessor by one
    relaxation of the node recorded at the same index. *)
Definition frames_ok (g : graph) (anim : list (gmap Z Z)) (order : list Z) : Prop :=
  ∀ i a b, anim !! i = Some a → anim !! S i = Some b →
    ∃ v, order !! S i = Some v ∧ relaxation g a b v.

(** Every entry other than the sentinel is the weight of a walk. *)
Definition table_sound (g : graph) (start : Z) (m : gmap Z Z) : Prop :=
  ∀ v d, m !! v = Some d → d ≤ INF ∧ (d ≠ INF → Dijkstra.walk g start v d).

(** The entry of [u] is the weight of a walk. *)
Definition real (g : graph) (start : Z) (m : gmap Z Z) (u : Z) : Prop :=
  ∃ d, m !! u = Some d ∧ Dijkstra.walk g start u d.

(** What holds of the lists of [dijk] at every point of a run, on any graph. *)
Record run_inv (g : graph) (start : Z) (st : Dijkstra.state) : Prop := {
  ri_len : length (Dijkstra.animation_dists st) = length (Dijkstra.order_visited st);
  ri_last : last (Dijkstra.animation_dists st) = Some (Dijkstra.dists st);
  ri_head : head (Dijkstra.animation_dists st)
            = Some (Dijkstra.dists (Dijkstra.init g start));
  ri_start : head (Dijkstra.order_visited st) = Some start;
  ri_frames : frames_ok g (Dijkstra.animation_dists st) (Dijkstra.order_visited st);
  ri_sound : Forall (table_sound g start) (Dijkstra.animation_dists st);
  ri_heap : ∀ k u, (k, u) ∈ Dijkstra.heap st → real g start (Dijkstra.dists st) u
}.

(** The part [pre] of the adjacency list of [cur] is relaxed, unless [cur]
    is back in the heap. *)
Definition scanned (st : Dijkstra.state) (cur : Z) (pre : list (Z * Z)) : Prop :=
  Dijkstra.queued st cur ∨
  ∀ w v, (w, v) ∈ pre →
    ∃ du dv, Dijkstra.dists st !! cur = Some du ∧
             Dijkstra.dists st !! v = Some dv ∧ dv ≤ du + w.

End Relaxation.

(** ** The path of [dfs] as a walk *)

Module DfsPath.

(** [x] and [y] are joined by a listed edge, in one direction or the other. *)
Definition adjacent (g : graph) (x y : Z) : Prop := edge g x y ∨ edge g y x.

(** Consecutive entries of [l] are adjacent. *)
Inductive chain (g : graph) : list Z → Prop :=
| chain_nil : chain g []
| chain_one x : chain g [x]
| chain_cons x y l : adjacent g x y → chain g (y :: l) → chain g (x :: y :: l).

(** Induction over the visits of a node together with the visits nested
    inside them. *)
Scheme subtree_mut := Minimality for DFS.subtree Sort Prop
  with children_mut := Minimality for DFS.children Sort Prop.

End DfsPath.

(** ** Hop counts, the reference for [bfs] *)

Module BfsLevels.

(** [hops g s v n]: [v] is reached from [s] along [n] listed edges. *)
Inductive hops (g : graph) (s : Z) : Z → nat → Prop :=
| hops_here : hops g s s 0
| hops_step u v n : hops g s u n → edge g u v → hops g s v (S n).

(** [n] is the least number of edges from [s] to [v]. *)
Definition dist (g : graph) (s v : Z) (n : nat) : Prop :=
  hops g s v n ∧ ∀ n', hops g s v n' → (n ≤ n')%nat.

(** The levels [lvl] of the visited nodes during a run: [processed] are the
    nodes already dequeued. *)
Record inv (g : graph) (start : Z) (lvl : Z → nat) (processed : list Z)
    (st : BFS.state) : Prop := {
  li_hops : ∀ v, v ∈ BFS.bfs_visited st → hops g start v (lvl v);
  li_sorted : StronglySorted le (lvl <$> BFS.bfs_visited st);
  li_window : ∀ c v, head (BFS.queue st) = Some c → v ∈ BFS.bfs_visited st →
              (lvl v ≤ S (lvl c))%nat;
  li_done : ∀ u v, u ∈ processed → edge g u v →
            v ∈ BFS.bfs_visited st ∧ (lvl v ≤ S (lvl u))%nat;
  li_events : ∀ e, e ∈ tail (BFS.order_visited st) →
              edge g e.1 e.2 ∧ lvl e.2 = S (lvl e.1);
  li_start : lvl start = 0%nat
}.

End BfsLevels.

(** ** The events that [update_dfs] makes of the path *)

Module DfsOrder.

(** [for i in range(len(path) - 1)]: the pair [(path[i], path[i + 1])] is
    appended to [order] unless the reversed pair is in [order]. *)
Fixpoint order_loop (path : list Z) (order : list (Z * Z)) : list (Z * Z) :=
  match path with
  | x :: rest =>
      match rest with
      | y :: _ =>
          order_loop rest
            (if decide ((y, x) ∈ order) then order else order ++ [(x, y)])
      | [] => order
      end
  | [] => order
  end.

(** [order], as [update_dfs] builds it from the path that [dfs] returned. *)
Definition order_of_path (start : Z) (path : list Z) : list (Z * Z) :=
  order_loop path [(start, start)].

(** Every event after the first goes along an edge from a node that an
    earlier event targets. *)
Definition tree_order (g : graph) (order : list (Z * Z)) : Prop :=
  ∀ pre e post, order = pre ++ e :: post → pre ≠ [] →
    edge g e.1 e.2 ∧ e.1 ∈ pre.*2.

(** The order [O] built so far targets the visited nodes, in their order. *)
Definition good (g : graph) (st : DFS.state) (O : list (Z * Z)) : Prop :=
  O.*2 = DFS.visited st ∧ (∀ e, e ∈ O → e.1 ∈ DFS.visited st) ∧
  tree_order g O ∧ O ≠ [].

End DfsOrder.

(** ** Building the adjacency mapping *)

Module Build.

Section create.

(** The weight that [create_networkx_graph] computes from the positions of
    the two endpoints,
    [int(round((((x1 - x2) ** 2 + (y1 - y2) ** 2) ** .5), 1))], or the
    exception that the computation raises: the power [** .5] converts the
    sum of squares to a float and raises [OverflowError] when it is too
    large for one.  It is computed in floating point; what follows holds
    for every such function of the two positions. *)
Variable weight_of : Z * Z → Z * Z → exn + Z.

(** [for node in nodes: adj_list[node] = []] *)
Definition reset (nodes : list Z) (adj_list : graph) : graph :=
  foldl (λ m node, <[node := []]> m) adj_list nodes.

(** [adj_list[u].append(entry)] *)
Definition append_entry (adj_list : graph) (u : Z) (entry : Z * Z)
  : outcome graph :=
  match adj_list !! u with
  | None => Raise (KeyError u)
  | Some l => Done (<[u := l ++ [entry]]> adj_list)
  end.

(** The body of [for edge in edges].  An element of [edges] is a tuple and
    the elements of [edge_weights_labels] are lists, which Python never
    finds equal: [edge not in edge_weights_labels] holds every time. *)
Definition add_edge (position : gmap Z (Z * Z)) (edge : Kruskal.edge_t)
    (st : graph * list Kruskal.edge_t)
  : outcome (graph * list Kruskal.edge_t) :=
  let '(adj_list, edge_weights_labels) := st in
  let node := edge.1.1 in
  let connected_node := edge.1.2 in
  match position !! node with
  | None => Raise (KeyError node)
  | Some p1 =>
      match position !! connected_node with
      | None => Raise (KeyError connected_node)
      | Some p2 =>
          match weight_of p1 p2 with
          | inl e => Raise e
          | inr weight =>
              adj1 ← append_entry adj_list node (weight, connected_node);
              adj2 ← append_entry adj1 connected_node (weight, node);
              Done (adj2,
                    edge_weights_labels ++ [(node, connected_node, weight)])
          end
      end
  end.

(** [create_networkx_graph(p, nodes, edges)], from the line that empties
    [edge_weights_labels] on: [position] is the mapping that networkx hands
    back for [p], [adj_list] the module-level mapping as the call finds it.
    The result is that mapping and [edge_weights_labels] as the call leaves
    them. *)
Definition create_networkx_graph (position : gmap Z (Z * Z)) (nodes : list Z)
    (edges : list Kruskal.edge_t) (adj_list : graph)
  : outcome (graph * list Kruskal.edge_t) :=
  for_each (add_edge position) edges (reset nodes adj_list, []).

End create.

(** Every endpoint of [edge] has a position. *)
Definition placed (position : gmap Z (Z * Z)) (edge : Kruskal.edge_t) : Prop :=
  is_Some (position !! edge.1.1) ∧ is_Some (position !! edge.1.2).

(** Both endpoints of [edge] have a position, and the weight computation
    on them gives a weight. *)
Definition weighable (weight_of : Z * Z → Z * Z → exn + Z)
    (position : gmap Z (Z * Z)) (edge : Kruskal.edge_t) : Prop :=
  ∃ p1 p2 weight,
    position !! edge.1.1 = Some p1 ∧ position !! edge.1.2 = Some p2 ∧
    weight_of p1 p2 = inr weight.

(** What ends the body of the loop on [edge] with the exception [e]: an
    endpoint without a position, the first one looked up, or the exception
    of the weight computation. *)
Definition stops (weight_of : Z * Z → Z * Z → exn + Z)
    (position : gmap Z (Z * Z)) (edge : Kruskal.edge_t) (e : exn) : Prop :=
  (position !! edge.1.1 = None ∧ e = KeyError edge.1.1) ∨
  (is_Some (position !! edge.1.1) ∧ position !! edge.1.2 = None ∧
   e = KeyError edge.1.2) ∨
  (∃ p1 p2, position !! edge.1.1 = Some p1 ∧ position !! edge.1.2 = Some p2 ∧
            weight_of p1 p2 = inl e).

(** The adjacency mapping lists exactly the labelled edges, under both of
    their endpoints. *)
Definition lists (adj_list : graph) (labels : list Kruskal.edge_t) : Prop :=
  ∀ u w v, wedge adj_list u w v ↔ (u, v, w) ∈ labels ∨ (v, u, w) ∈ labels.

(** A stand-in for the rounded distance: the integer square root. *)
Definition int_distance (p q : Z * Z) : Z :=
  Z.sqrt ((p.1 - q.1) ^ 2 + (p.2 - q.2) ^ 2).

(** The stand-in as a weight computation that raises nothing. *)
Definition int_weight (p q : Z * Z) : exn + Z := inr (int_distance p q).

(** The positions of four nodes, the corners of a rectangle. *)
Definition square : gmap Z (Z * Z) :=
  list_to_map [ (0, (0, 0)); (1, (30, 0)); (2, (30, 40)); (3, (0, 40)) ].

End Build.

(** ** The frames of the animations *)

Module Animation.

(** What computing a frame gives: the values handed to the drawing calls,
    or the exception that ends the call. *)
Inductive drawn (A : Type) : Type :=
| Shown (a : A)
| ZeroDivisionError          (* [itr % 0] *)
| TypeError                  (* [len(None)], or an index into an integer *)
| Failed (e : exn)           (* a lookup error, of the engine or of the frame *)
| NoFuel.
Arguments Shown {A} a.
Arguments ZeroDivisionError {A}.
Arguments TypeError {A}.
Arguments Failed {A} e.
Arguments NoFuel {A}.

(** [itr % n] for the length [n] of a list: Python's remainder has the sign
    of the divisor. *)
Definition py_mod {A} (itr : Z) (n : nat) (k : nat → drawn A) : drawn A :=
  if decide (n = 0%nat) then ZeroDivisionError
  else k (Z.to_nat (itr `mod` Z.of_nat n)).

(** The four lists of [update_bfs] and [update_dfs]. *)
Record frame : Type := Frame {
  targeted_nodes : list Z;
  targeted_edges : list (Z * Z);
  already_visited_nodes : list Z;
  already_visited_edges : list (Z * Z)
}.

(** From [targeted_index = itr % len(order)] to [already_visited_edges], the
    same lines in [update_bfs] and [update_dfs]. *)
Definition select (order : list (Z * Z)) (itr start : Z) : drawn frame :=
  py_mod itr (length order) (λ targeted_index,
    match order !! targeted_index with
    | None => Failed IndexError
    | Some e =>
        Shown {| targeted_nodes := [e.2];
                 targeted_edges := [e];
                 already_visited_nodes :=
                   start :: (take targeted_index order).*2;
                 already_visited_edges := take targeted_index order |}
    end).

(** An order of discovery from [start]: it begins with [(start, start)],
    targets no node twice and only nodes that [start] reaches, and every
    later event goes along an edge from a node targeted before. *)
Definition discovery (g : graph) (start : Z) (order : list (Z * Z)) : Prop :=
  head order = Some (start, start) ∧ NoDup order.*2 ∧
  DfsOrder.tree_order g order ∧ ∀ x, x ∈ order.*2 → reach g start x.

(** [update_bfs(itr, start)] *)
Definition update_bfs (fuel : nat) (adj_list : graph) (itr start : Z)
  : drawn frame :=
  match BFS.bfs fuel adj_list start with
  | Done order => select order itr start
  | Raise e => Failed e
  | OutOfFuel => NoFuel
  end.

(** [update_dfs(itr, start)] *)
Definition update_dfs (fuel : nat) (adj_list : graph) (itr start : Z)
  : drawn frame :=
  match DFS.dfs_path fuel adj_list start with
  | Done (Some path, _) => select (DfsOrder.order_of_path start path) itr start
  | Done (None, _) => TypeError
  | Raise e => Failed e
  | OutOfFuel => NoFuel
  end.

(** A label of [update_dijk]: a distance, or the string ["Inf"]. *)
Inductive label : Type :=
| Num (d : Z)
| Inf.

(** [if current_label[node] == 2e9: current_label[node] = "Inf"] *)
Definition relabel (d : Z) : label :=
  if decide (d = 2000000000) then Inf else Num d.

Record dijk_frame : Type := DijkFrame {
  current_label : gmap Z label;
  dijk_targeted_nodes : list Z
}.

(** [update_dijk(itr, start)] *)
Definition update_dijk (fuel : nat) (adj_list : graph) (itr start : Z)
  : drawn dijk_frame :=
  match Dijkstra.dijk fuel adj_list start with
  | Done (order, node_order) =>
      py_mod itr (length order) (λ targeted_index,
        match order !! targeted_index with
        | None => Failed IndexError
        | Some dists =>
            match node_order !! targeted_index with
            | None => Failed IndexError
            | Some node =>
                Shown {| current_label := relabel <$> dists;
                         dijk_targeted_nodes := [node] |}
            end
        end)
  | Raise e => Failed e
  | OutOfFuel => NoFuel
  end.

(** An element of [order] in [update_mst]: an event of [kruskals], or the
    closing [(-1, -1)]. *)
Inductive mst_event : Type :=
| Event (e : Kruskal.edge_t) (added : bool)
| Closing.

(** [[tuple(edge[0][:2]) for edge in events if edge[1]]]: the [-1] of the
    closing element counts as true, and its [edge[0]] is an integer. *)
Fixpoint accepted_pairs (events : list mst_event) : drawn (list (Z * Z)) :=
  match events with
  | [] => Shown []
  | Event e added :: events' =>
      match accepted_pairs events' with
      | Shown l => Shown (if added then (e.1.1, e.1.2) :: l else l)
      | r => r
      end
  | Closing :: _ => TypeError
  end.

Record mst_frame : Type := MstFrame {
  current_edge : list (Z * Z);
  mst_visited_edges : list (Z * Z);
  edge_weight_dict : gmap (Z * Z) Z
}.

(** [edge_weight_dict[(edge[0], edge[1])] = str(edge[2])], for every edge in
    turn; the label is kept as the number it prints. *)
Definition weight_dict (edges : list Kruskal.edge_t) : gmap (Z * Z) Z :=
  foldl (λ m (e : Kruskal.edge_t), <[(e.1.1, e.1.2) := e.2]> m) ∅ edges.

(** The list [order] of [update_mst]. *)
Definition mst_order (trace : list (Kruskal.edge_t * bool)) : list mst_event :=
  ((λ ev : Kruskal.edge_t * bool, Event ev.1 ev.2) <$> trace) ++ [Closing].

Definition and_then {A B} (m : drawn A) (k : A → drawn B) : drawn B :=
  match m with
  | Shown a => k a
  | ZeroDivisionError => ZeroDivisionError
  | TypeError => TypeError
  | Failed e => Failed e
  | NoFuel => NoFuel
  end.

(** The two branches of [if targeted_index == len(order) - 1]. *)
Definition mst_select (order : list mst_event) (edges : list Kruskal.edge_t)
    (targeted_index : nat) : drawn mst_frame :=
  if decide (targeted_index = (length order - 1)%nat) then
    and_then (accepted_pairs (take targeted_index order)) (λ visited,
      Shown {| current_edge := []; mst_visited_edges := visited;
               edge_weight_dict := weight_dict edges |})
  else
    match order !! targeted_index with
    | None => Failed IndexError
    | Some Closing => TypeError
    | Some (Event e _) =>
        and_then (accepted_pairs (take targeted_index order)) (λ visited,
          Shown {| current_edge := [(e.1.1, e.1.2)];
                   mst_visited_edges := visited;
                   edge_weight_dict := weight_dict edges |})
    end.

(** [update_mst(itr)], for [N = len(G.nodes)]: the frame, and the objects as
    the call leaves them. *)
Definition update_mst (fuel : nat) (w : Engine.world) (N : Z) (itr : Z)
  : drawn mst_frame * Engine.world :=
  let '(r, edges) :=
    Kruskal.kruskals fuel (Engine.edge_weights_labels w) N
      (Engine.edge_weights_labels w) in
  let w' := {| Engine.adj_list := Engine.adj_list w;
               Engine.edge_weights_labels := edges |} in
  match r with
  | Done trace =>
      (py_mod itr (length (mst_order trace))
         (mst_select (mst_order trace) edges), w')
  | Raise e => (Failed e, w')
  | OutOfFuel => (NoFuel, w')
  end.

End Animation.

(** * Properties *)

(** ** Graphs *)

Lemma edge_wedge g u v : edge g u v ↔ ∃ w, wedge g u w v.
Proof.
  unfold edge, wedge. split.
  - intros (adj & w & ? & ?). eauto.
  - intros (w & adj & ? & ?). eauto.
Qed.

Lemma closedb_closed g : closedb g = true → closed g.
Proof.
  unfold closedb. intros H%bool_decide_eq_true u v (adj & w & Hu & Hin).
  specialize (H u adj Hu). simpl in H.
  rewrite Forall_forall in H. apply (H (w, v) Hin).
Qed.

Lemma nonnegb_nonneg g : nonnegb g = true → nonneg g.
Proof.
  unfold nonnegb. intros H%bool_decide_eq_true u w v (adj & Hu & Hin).
  specialize (H u adj Hu). simpl in H.
  rewrite Forall_forall in H. apply (H (w, v) Hin).
Qed.

Lemma symmetricb_symmetric g : symmetricb g = true → symmetric g.
Proof.
  unfold symmetricb. intros H%bool_decide_eq_true u w v (adj & Hu & Hin).
  specialize (H u adj Hu). simpl in H.
  rewrite Forall_forall in H. specialize (H (w, v) Hin). simpl in H.
  unfold wedge. destruct (g !! v) as [adj'|]; simpl in H.
  - eauto.
  - by apply elem_of_nil in H.
Qed.

(** Settles [closed], [nonneg] or [symmetric] for a concrete graph. *)
Ltac graph_check :=
  first [ apply closedb_closed | apply nonnegb_nonneg
        | apply symmetricb_symmetric ];
  vm_compute; reflexivity.

Lemma reach_closed g s v :
  closed g → is_Some (g !! s) → reach g s v → is_Some (g !! v).
Proof.
  intros Hc Hs Hr. induction Hr as [|x y z Hxy _ IH]; [done|].
  apply IH. by apply (Hc x y).
Qed.

Lemma symmetric_edge g u v : symmetric g → edge g u v → edge g v u.
Proof.
  intros Hs (w & Hw)%edge_wedge. apply edge_wedge. exists w. by apply Hs.
Qed.

(** In an undirected graph the component of [s] is what [s] reaches. *)
Lemma connected_reach g s v : symmetric g → connected g s v ↔ reach g s v.
Proof.
  intros Hs. unfold connected, reach, rtsc. split.
  - intros H. induction H as [|x y z Hxy _ IH]; [done|].
    apply rtc_l with y; [|done].
    destruct Hxy as [?|?]; [done|]. by apply symmetric_edge.
  - apply rtc_subrel. intros x y ?. by left.
Qed.

(** A duplicate-free list of keys is no longer than the mapping. *)
Lemma NoDup_keys_length (g : graph) (l : list Z) :
  NoDup l → (∀ x, x ∈ l → is_Some (g !! x)) → (length l ≤ size g)%nat.
Proof.
  intros Hnd Hin.
  rewrite <- (size_dom (D := gset Z) g).
  rewrite <- (size_list_to_set (C := gset Z) l Hnd).
  apply subseteq_size. intros x Hx.
  apply elem_of_list_to_set in Hx. apply elem_of_dom. auto.
Qed.

(** ** Outcomes *)

Lemma for_each_app {A S} (body : A → S → outcome S) l1 l2 s :
  for_each body (l1 ++ l2) s = for_each body l1 s ≫= for_each body l2.
Proof.
  revert s. induction l1 as [|x l1 IH]; intros s; simpl; [done|].
  destruct (body x s); simpl; auto.
Qed.

Lemma for_each_mono {X S} (body body' : X → S → outcome S) l s s' :
  (∀ x t t', body x t = Done t' → body' x t = Done t') →
  for_each body l s = Done s' → for_each body' l s = Done s'.
Proof.
  intros Hb. revert s. induction l as [|x l IH]; intros s; simpl; [done|].
  destruct (body x s) as [t| |] eqn:Hx; [|done|done].
  rewrite (Hb _ _ _ Hx). apply IH.
Qed.


(** ** Breadth-first search *)

Example bfs_scenario :
  BFS.bfs 10 scenario 0 = Done [(0, 0); (0, 1); (0, 3); (1, 2)].
Proof. vm_compute. reflexivity. Qed.

Lemma targeted_app v l1 l2 :
  BFS.targeted v (l1 ++ l2) = (BFS.targeted v l1 + BFS.targeted v l2)%nat.
Proof. unfold BFS.targeted. by rewrite filter_app, length_app. Qed.

Lemma targeted_absent v (l : list (Z * Z)) : v ∉ l.*2 → BFS.targeted v l = 0%nat.
Proof.
  unfold BFS.targeted. induction l as [|e l IH]; intros Hn; [done|].
  rewrite fmap_cons, not_elem_of_cons in Hn. destruct Hn as [Hne Hn].
  rewrite filter_cons_False by (simpl; congruence). auto.
Qed.

Lemma targeted_once v (l : list (Z * Z)) :
  NoDup l.*2 → v ∈ l.*2 → BFS.targeted v l = 1%nat.
Proof.
  induction l as [|e l IH]; intros Hnd Hin.
  - by apply elem_of_nil in Hin.
  - rewrite fmap_cons in Hnd, Hin. apply NoDup_cons in Hnd as [Hfresh Hnd].
    change (e :: l) with ([e] ++ l). rewrite targeted_app.
    apply elem_of_cons in Hin as [->|Hin].
    + rewrite (targeted_absent _ l Hfresh).
      unfold BFS.targeted. by rewrite filter_cons_True.
    + rewrite (IH Hnd Hin). unfold BFS.targeted.
      rewrite filter_cons_False; [done|]. simpl. intros Heq. congruence.
Qed.

Lemma bfs_loop_fuel_mono fuel fuel' g st order :
  BFS.loop fuel g st = Done order → (fuel ≤ fuel')%nat →
  BFS.loop fuel' g st = Done order.
Proof.
  revert fuel' st. induction fuel as [|fuel IH]; intros fuel' st Hrun Hle.
  - destruct fuel'; simpl in *; destruct (BFS.queue st); congruence.
  - destruct fuel' as [|fuel']; [lia|]. simpl in *.
    destruct (BFS.queue st) as [|c q]; [done|].
    destruct (g !! c); [|done]. apply IH; [done|lia].
Qed.

(** What one scan of an adjacency list appends to the three lists. *)
Lemma bfs_scan_spec cur adj st :
  ∃ new,
    BFS.queue (BFS.scan cur adj st) = BFS.queue st ++ new ∧
    BFS.bfs_visited (BFS.scan cur adj st) = BFS.bfs_visited st ++ new ∧
    BFS.order_visited (BFS.scan cur adj st)
      = BFS.order_visited st ++ ((λ v, (cur, v)) <$> new) ∧
    (NoDup (BFS.bfs_visited st) → NoDup (BFS.bfs_visited st ++ new)) ∧
    (∀ v, v ∈ new → v ∈ adj.*2) ∧
    (∀ v, v ∈ adj.*2 → v ∈ BFS.bfs_visited st ++ new).
Proof.
  unfold BFS.scan. revert st. induction adj as [|[w a] adj IH]; intros st.
  - exists []. simpl. rewrite !app_nil_r. repeat split; auto.
    intros v Hv. by apply elem_of_nil in Hv.
  - simpl. destruct (IH (BFS.visit cur st (w, a))) as (new & Hq & Hv & Ho & Hnd & Hsub & Hcov).
    unfold BFS.visit in *. simpl in *.
    destruct (decide (a ∈ BFS.bfs_visited st)) as [Hin|Hnin].
    + exists new. repeat split; auto.
      * intros v Hvn. right. auto.
      * intros v [->|Hvin]%elem_of_cons; [apply elem_of_app; by left|auto].
    + simpl in *. exists (a :: new).
      rewrite Hq, Hv, Ho, fmap_cons, <- !app_assoc. simpl.
      repeat split; auto.
      * intros Hnd0. rewrite (cons_middle a), (assoc_L (++)).
        apply Hnd. apply NoDup_app. repeat split; [done| |apply NoDup_singleton].
        intros x Hx ->%list_elem_of_singleton. done.
      * intros v [->|Hvn]%elem_of_cons; [by left|right; auto].
      * intros v [->|Hvin]%elem_of_cons.
        -- apply elem_of_app. right. by left.
        -- specialize (Hcov v Hvin). rewrite <- app_assoc in Hcov. apply Hcov.
Qed.

Section bfs_run.
Variables (g : graph) (start : Z).
Hypothesis Hclosed : closed g.
Hypothesis Hstart : is_Some (g !! start).

Local Abbreviation bfs_inv := (BFS.inv g start).

Lemma bfs_inv_init : bfs_inv [] (BFS.init start).
Proof.
  split; simpl; auto.
  - apply NoDup_singleton.
  - intros e ->%list_elem_of_singleton. simpl. by left.
  - intros u v Hu. by apply elem_of_nil in Hu.
  - intros v ->%list_elem_of_singleton. done.
Qed.

Lemma bfs_inv_step processed st c q adj :
  bfs_inv processed st → BFS.queue st = c :: q → g !! c = Some adj →
  bfs_inv (processed ++ [c]) (BFS.pop0 (BFS.scan c adj st)).
Proof.
  intros [Hsp Hnd Htg Hsrc Hdone Hr Hhd] Hq Hc.
  destruct (bfs_scan_spec c adj st) as (new & Hq' & Hv' & Ho' & Hnd' & Hsub & Hcov).
  assert (Hcin : c ∈ BFS.bfs_visited st).
  { rewrite Hsp, Hq. apply elem_of_app. right. by left. }
  split; simpl.
  - rewrite Hv', Hq', Hsp, Hq. simpl. by rewrite <- !app_assoc.
  - rewrite Hv'. auto.
  - rewrite Ho', Hv', fmap_app, Htg. f_equal.
    rewrite <- list_fmap_compose. simpl. apply list_fmap_id.
  - intros e. rewrite Ho', Hv'. intros [He|He]%elem_of_app.
    + apply elem_of_app. left. auto.
    + apply list_elem_of_fmap in He as (v & -> & _). simpl.
      apply elem_of_app. by left.
  - intros u v [Hu| ->%list_elem_of_singleton]%elem_of_app Huv; rewrite Hv'.
    + apply elem_of_app. left. eauto.
    + apply Hcov. destruct Huv as (adj' & w & Hadj' & Hin).
      assert (adj' = adj) as -> by congruence.
      apply list_elem_of_fmap. by exists (w, v).
  - intros v. rewrite Hv'. intros [Hv|Hv]%elem_of_app; [auto|].
    apply rtc_r with c; [by apply Hr|].
    apply Hsub, list_elem_of_fmap in Hv as ([w v'] & -> & Hin).
    by exists adj, w.
  - rewrite Ho'. destruct (BFS.order_visited st); [done|]. done.
Qed.

Lemma bfs_inv_empty processed st :
  bfs_inv processed st → BFS.queue st = [] →
  bfs_inv (BFS.bfs_visited st)
    (BFS.State [] (BFS.bfs_visited st) (BFS.order_visited st)).
Proof.
  intros [Hsp Hnd Htg Hsrc Hdone Hr Hhd] Hq.
  rewrite Hq, app_nil_r in Hsp. subst processed.
  split; simpl; rewrite ?app_nil_r; auto.
Qed.

Lemma bfs_loop_total fuel processed st :
  bfs_inv processed st → (size g ≤ fuel + length processed)%nat →
  ∃ order visited,
    BFS.loop fuel g st = Done order ∧
    bfs_inv visited (BFS.State [] visited order).
Proof.
  revert processed st. induction fuel as [|fuel IH]; intros processed st Hinv Hfuel.
  - destruct (BFS.queue st) as [|c q] eqn:Hq.
    + exists (BFS.order_visited st), (BFS.bfs_visited st). simpl. rewrite Hq.
      split; [done|]. by apply bfs_inv_empty with processed.
    + exfalso. destruct Hinv as [Hsp Hnd _ _ _ Hr _].
      pose proof (NoDup_keys_length g _ Hnd) as Hlen.
      rewrite Hsp, Hq, length_app in Hlen. simpl in Hlen.
      assert (length processed + S (length q) ≤ size g)%nat; [|lia].
      apply Hlen. intros x Hx. apply (reach_closed g start); auto.
      apply Hr. by rewrite Hsp, Hq.
  - simpl. destruct (BFS.queue st) as [|c q] eqn:Hq.
    + exists (BFS.order_visited st), (BFS.bfs_visited st).
      split; [done|]. by apply bfs_inv_empty with processed.
    + assert (is_Some (g !! c)) as [adj Hadj].
      { apply (reach_closed g start); auto. apply (BFS.inv_reach _ _ _ _ Hinv).
        rewrite (BFS.inv_split _ _ _ _ Hinv), Hq. apply elem_of_app. right. by left. }
      rewrite Hadj. apply (IH (processed ++ [c])).
      * by apply bfs_inv_step with q.
      * rewrite length_app. simpl. lia.
Qed.

(** At the end the visited list is exactly what [start] reaches. *)
Lemma bfs_inv_final visited order v :
  bfs_inv visited (BFS.State [] visited order) →
  reach g start v → v ∈ visited.
Proof.
  intros [_ _ Htg _ Hdone _ Hhd] Hr. simpl in *.
  assert (Hs : start ∈ visited).
  { rewrite <- Htg. destruct order as [|e order]; [done|].
    injection Hhd as ->. by left. }
  clear Hhd Htg Hstart. unfold reach in Hr.
  induction Hr as [|x y z Hxy _ IH]; [done|].
  apply IH. by apply (Hdone x y).
Qed.
End bfs_run.

(** C2. For a well-formed (closed, undirected) graph and a start node in it,
    [bfs] returns a trace whose first event is [(start, start)]; every node
    of the start's connected component is the target of exactly one event;
    and no event mentions a node outside that component. *)
Theorem bfs_complete (g : graph) (start : Z) :
  closed g → symmetric g → is_Some (g !! start) →
  ∃ fuel order,
    (∀ fuel', (fuel ≤ fuel')%nat → BFS.bfs fuel' g start = Done order) ∧
    head order = Some (start, start) ∧
    (∀ v, connected g start v → BFS.targeted v order = 1%nat) ∧
    (∀ e, e ∈ order → connected g start e.1 ∧ connected g start e.2).
Proof.
  intros Hc Hsym Hs.
  destruct (bfs_loop_total g start Hc Hs (size g) [] (BFS.init start))
    as (order & visited & Hrun & Hinv).
  { apply bfs_inv_init. }
  { simpl. lia. }
  exists (size g), order. split; [|split; [|split]].
  - intros fuel' Hle. unfold BFS.bfs. by apply bfs_loop_fuel_mono with (size g).
  - apply (BFS.inv_head _ _ _ _ Hinv).
  - intros v Hv%connected_reach; [|done].
    pose proof (bfs_inv_final g start visited order v Hinv Hv) as Hin.
    destruct Hinv as [_ Hnd Htg _ _ _ _]. simpl in *.
    apply targeted_once; by rewrite Htg.
  - intros e He. destruct Hinv as [_ _ Htg Hsrc _ Hr _]. simpl in *.
    split; (apply connected_reach; [done|]); apply Hr; [by apply Hsrc|].
    rewrite <- Htg. apply list_elem_of_fmap. by exists e.
Qed.

Lemma bfs_complete_witness :
  ∃ fuel order,
    (∀ fuel', (fuel ≤ fuel')%nat → BFS.bfs fuel' scenario 0 = Done order) ∧
    head order = Some (0, 0) ∧
    (∀ v, connected scenario 0 v → BFS.targeted v order = 1%nat) ∧
    (∀ e, e ∈ order → connected scenario 0 e.1 ∧ connected scenario 0 e.2).
Proof.
  apply (bfs_complete scenario 0).
  - graph_check.
  - graph_check.
  - vm_compute. eauto.
Defined.

(** The loop with its local lists returns or raises as [BFS.loop] does. *)
Lemma bfs_locals_outcome fuel g st :
  (BfsLocals.loop fuel g st).1 = BFS.loop fuel g st.
Proof.
  revert st. induction fuel as [|fuel IH]; intros st; simpl.
  - by destruct (BFS.queue st).
  - destruct (BFS.queue st) as [|c q]; [done|].
    destruct (g !! c); [apply IH|done].
Qed.

(** C6 (amended). When [start] is not a key of the graph, [bfs] raises the
    lookup error [KeyError(start)], whatever the graph and the number of
    iterations allowed (one at least); the code has no test of membership
    and no other error.  The error is raised by [graph[current_node]] in
    the first iteration of the loop, after the local lists have been set
    up: at that moment [queue] and [bfs_visited] are [[start]] and
    [order_visited] holds the event [(start, start)].  These lists are
    lost with the call: no trace is returned, and the objects of the
    module are left as they were. *)
Theorem bfs_unknown_start (g : graph) (start : Z) (fuel : nat) :
  g !! start = None →
  BFS.bfs (S fuel) g start = Raise (KeyError start) ∧
  BfsLocals.bfs (S fuel) g start
    = (Raise (KeyError start),
       {| BFS.queue := [start]; BFS.bfs_visited := [start];
          BFS.order_visited := [(start, start)] |}) ∧
  ∀ w, Engine.adj_list w = g →
    Engine.run (S fuel) (Engine.Bfs start) w
    = (Engine.BfsTrace (Raise (KeyError start)), w).
Proof.
  intros Hs.
  assert (BFS.bfs (S fuel) g start = Raise (KeyError start)) as Hrun.
  { unfold BFS.bfs. simpl. by rewrite Hs. }
  split_and!; [done| |].
  - unfold BfsLocals.bfs. simpl. by rewrite Hs.
  - intros w <-. simpl. by rewrite Hrun.
Qed.

Lemma bfs_unknown_start_witness :
  BFS.bfs 1 scenario 7 = Raise (KeyError 7) ∧
  BfsLocals.bfs 1 scenario 7
    = (Raise (KeyError 7),
       {| BFS.queue := [7]; BFS.bfs_visited := [7];
          BFS.order_visited := [(7, 7)] |}) ∧
  ∀ w, Engine.adj_list w = scenario →
    Engine.run 1 (Engine.Bfs 7) w = (Engine.BfsTrace (Raise (KeyError 7)), w).
Proof. apply (bfs_unknown_start scenario 7 0). vm_compute. reflexivity. Defined.

(** C6, counterexample. In the graph of the scenario, which has no node 7,
    [bfs] from 7 does not fail before its work begins: whenever the call
    ends with an exception, the event [(7, 7)] has been produced and the
    lists [queue] and [bfs_visited] have been filled, and the exception is
    the lookup error of the loop's first iteration. *)
Lemma bfs_unknown_start_counterexample :
  scenario !! 7 = None ∧
  BfsLocals.bfs 1 scenario 7
    = (Raise (KeyError 7),
       {| BFS.queue := [7]; BFS.bfs_visited := [7];
          BFS.order_visited := [(7, 7)] |}) ∧
  (∀ fuel e st,
     BfsLocals.bfs fuel scenario 7 = (Raise e, st) →
     e = KeyError 7 ∧
     BFS.order_visited st = [(7, 7)] ∧ BFS.order_visited st ≠ [] ∧
     BFS.queue st = [7] ∧ BFS.bfs_visited st = [7]) ∧
  ¬ (∀ fuel e st,
       BfsLocals.bfs fuel scenario 7 = (Raise e, st) →
       BFS.order_visited st = [] ∧ BFS.queue st = [] ∧ BFS.bfs_visited st = []).
Proof.
  assert (scenario !! 7 = None) as Hs by (vm_compute; reflexivity).
  assert (BfsLocals.bfs 1 scenario 7
          = (Raise (KeyError 7), BFS.State [7] [7] [(7, 7)])) as Hrun.
  { unfold BfsLocals.bfs. simpl. by rewrite Hs. }
  split_and!; [done|done| |].
  - intros [|fuel] e st; unfold BfsLocals.bfs; simpl; [done|].
    rewrite Hs. intros [= <- <-]. done.
  - intros H. by destruct (H 1%nat _ _ Hrun) as [[=] _].
Qed.

(** ** Dijkstra *)

Example dijk_scenario :
  ∃ anim order,
    Dijkstra.dijk 10 scenario 0 = Done (anim, order) ∧
    order = [0; 1; 3; 2; 3] ∧
    last anim = Some (list_to_map [(0, 0); (1, 5); (2, 8); (3, 9)]).
Proof. eexists _, _. split; [vm_compute; reflexivity|]. split; reflexivity. Qed.

(** *** The priority queue *)

Lemma hpush_elem h i x : x ∈ Dijkstra.hpush h i ↔ x = i ∨ x ∈ h.
Proof.
  induction h as [|y h IH]; simpl.
  - rewrite list_elem_of_singleton. split; [auto|]. intros [?|H]; [done|].
    by apply elem_of_nil in H.
  - destruct (Dijkstra.tuple_leb i y).
    + by rewrite elem_of_cons.
    + rewrite !elem_of_cons, IH. tauto.
Qed.

Lemma hpush_length h i : length (Dijkstra.hpush h i) = S (length h).
Proof.
  induction h as [|y h IH]; simpl; [done|].
  destruct (Dijkstra.tuple_leb i y); simpl; congruence.
Qed.

(** *** The sum of a distance table *)

Lemma total_comm (j1 j2 : Z) (z1 z2 y : Z) : z1 + (z2 + y) = z2 + (z1 + y).
Proof. lia. Qed.

Lemma total_insert_fresh m k d :
  m !! k = None → Dijkstra.total (<[k := d]> m) = d + Dijkstra.total m.
Proof.
  intros Hk. unfold Dijkstra.total. rewrite map_fold_insert_L; [done| |done].
  intros. lia.
Qed.

Lemma total_lookup m k d :
  m !! k = Some d → Dijkstra.total m = d + Dijkstra.total (delete k m).
Proof.
  intros Hk. rewrite <- (insert_delete_id m k d Hk) at 1.
  apply total_insert_fresh, lookup_delete_eq.
Qed.

Lemma total_update m k d d' :
  m !! k = Some d → Dijkstra.total (<[k := d']> m) = Dijkstra.total m - d + d'.
Proof.
  intros Hk. rewrite (total_lookup m k d Hk).
  rewrite <- insert_delete_eq, total_insert_fresh by apply lookup_delete_eq. lia.
Qed.

Lemma total_nonneg m :
  (∀ k d, m !! k = Some d → 0 ≤ d) → 0 ≤ Dijkstra.total m.
Proof.
  induction m as [|k d m Hk IH] using map_ind; intros Hpos.
  - unfold Dijkstra.total. by rewrite map_fold_empty.
  - rewrite total_insert_fresh by done.
    assert (0 ≤ d) by (apply (Hpos k); apply lookup_insert_eq).
    assert (0 ≤ Dijkstra.total m); [|lia].
    apply IH. intros k' d' Hk'. apply (Hpos k').
    rewrite lookup_insert_ne; [done|]. intros ->. congruence.
Qed.

(** *** Fuel *)

Lemma dijk_loop_fuel_mono fuel fuel' g st r :
  Dijkstra.loop fuel g st = Done r → (fuel ≤ fuel')%nat →
  Dijkstra.loop fuel' g st = Done r.
Proof.
  revert fuel' st. induction fuel as [|fuel IH]; intros fuel' st Hrun Hle.
  - destruct fuel'; simpl in *;
      destruct (Dijkstra.hpop (Dijkstra.heap st)) as [[[k c] h]|]; congruence.
  - destruct fuel' as [|fuel']; [lia|]. simpl in *.
    destruct (Dijkstra.hpop (Dijkstra.heap st)) as [[[k c] h]|]; [|done].
    destruct (g !! c); [|done].
    destruct (for_each _ _ _); [|done|done]. apply IH; [done|lia].
Qed.

Lemma dijk_events_fuel_mono fuel fuel' g st r :
  Dijkstra.loop fuel g st = Done r → (fuel ≤ fuel')%nat →
  Dijkstra.loop_events fuel' g st = Dijkstra.loop_events fuel g st.
Proof.
  revert fuel' st. induction fuel as [|fuel IH]; intros fuel' st Hrun Hle.
  - destruct fuel'; simpl in *;
      destruct (Dijkstra.hpop (Dijkstra.heap st)) as [[[k c] h]|]; congruence.
  - destruct fuel' as [|fuel']; [lia|]. simpl in *.
    destruct (Dijkstra.hpop (Dijkstra.heap st)) as [[[k c] h]|]; [|done].
    destruct (g !! c); [|done].
    destruct (for_each _ _ _); [|done|done]. f_equal. apply IH; [done|lia].
Qed.

(** *** The shape of the trace: one snapshot and one node per relaxation *)

Lemma dijk_relax_trace cur e st st' :
  Dijkstra.relax cur e st = Done st' →
  let n := if Dijkstra.relaxes cur e st then 1%nat else 0%nat in
  length (Dijkstra.animation_dists st')
    = (length (Dijkstra.animation_dists st) + n)%nat ∧
  length (Dijkstra.order_visited st')
    = (length (Dijkstra.order_visited st) + n)%nat.
Proof.
  destruct e as [wt node]. unfold Dijkstra.relax, Dijkstra.relaxes. simpl.
  destruct (Dijkstra.dists st !! cur) as [dc|]; [|done].
  destruct (Dijkstra.dists st !! node) as [dn|]; [|done].
  destruct (decide (dc + wt < dn)) as [Hlt|Hge]; intros [= <-]; simpl.
  - rewrite bool_decide_eq_true_2 by done. rewrite !length_app. simpl. lia.
  - rewrite bool_decide_eq_false_2 by done. lia.
Qed.

Lemma dijk_scan_trace cur adj st st' :
  for_each (Dijkstra.relax cur) adj st = Done st' →
  length (Dijkstra.animation_dists st')
    = (length (Dijkstra.animation_dists st) + Dijkstra.scan_events cur adj st)%nat ∧
  length (Dijkstra.order_visited st')
    = (length (Dijkstra.order_visited st) + Dijkstra.scan_events cur adj st)%nat.
Proof.
  revert st. induction adj as [|e adj IH]; intros st; simpl.
  - intros [= <-]. lia.
  - destruct (Dijkstra.relax cur e st) as [st1| |] eqn:Hrel; [|done|done].
    intros Hrun. destruct (IH _ Hrun) as [Ha Ho].
    destruct (dijk_relax_trace _ _ _ _ Hrel) as [Ha1 Ho1]. lia.
Qed.

Lemma dijk_loop_trace fuel g st anim order :
  Dijkstra.loop fuel g st = Done (anim, order) →
  length anim
    = (length (Dijkstra.animation_dists st) + Dijkstra.loop_events fuel g st)%nat ∧
  length order
    = (length (Dijkstra.order_visited st) + Dijkstra.loop_events fuel g st)%nat.
Proof.
  revert st. induction fuel as [|fuel IH]; intros st; simpl.
  - destruct (Dijkstra.hpop (Dijkstra.heap st)) as [[[k c] h]|]; [done|].
    intros [= <- <-]. lia.
  - destruct (Dijkstra.hpop (Dijkstra.heap st)) as [[[k c] h]|].
    2:{ intros [= <- <-]. lia. }
    destruct (g !! c) as [adj|]; [|done].
    destruct (for_each _ _ _) as [st1| |] eqn:Hscan; [|done|done].
    intros Hrun. destruct (IH _ Hrun) as [Ha Ho].
    destruct (dijk_scan_trace _ _ _ _ Hscan) as [Ha1 Ho1]. simpl in *. lia.
Qed.

(** *** Correctness of the final table *)

Lemma table_le_refl m : Dijkstra.table_le m m.
Proof. intros v x Hv. exists x. split; [done|lia]. Qed.

Lemma table_le_trans a b c :
  Dijkstra.table_le a b → Dijkstra.table_le b c → Dijkstra.table_le a c.
Proof.
  intros Hab Hbc v x Hv. destruct (Hab v x Hv) as (y & Hy & Hle).
  destruct (Hbc v y Hy) as (z & Hz & Hle'). exists z. split; [done|lia].
Qed.

Lemma table_le_insert m k d d' :
  m !! k = Some d → d' ≤ d → Dijkstra.table_le m (<[k := d']> m).
Proof.
  intros Hk Hle v x Hv. destruct (decide (k = v)) as [->|Hne].
  - rewrite lookup_insert_eq. exists d'. split; [done|]. congruence.
  - rewrite lookup_insert_ne by done. exists x. split; [done|lia].
Qed.

Lemma settled_mono g m m' u :
  Dijkstra.settled g m u → Dijkstra.table_le m m' → m' !! u = m !! u →
  Dijkstra.settled g m' u.
Proof.
  intros Hs Hle Hu w v Hwv. destruct (Hs w v Hwv) as (du & dv & Hdu & Hdv & Hrel).
  destruct (Hle v dv Hdv) as (dv' & Hdv' & Hle').
  exists du, dv'. rewrite Hu. repeat split; [done|done|lia].
Qed.

Section dijk_run.
Variables (g : graph) (start : Z).
Hypothesis Hclosed : closed g.
Hypothesis Hnonneg : nonneg g.
Hypothesis Hstart : is_Some (g !! start).

Local Abbreviation inv := (Dijkstra.inv g start).
Local Abbreviation measure st :=
  (Z.of_nat (length (Dijkstra.heap st)) + Dijkstra.total (Dijkstra.dists st)).

Lemma dijk_inv_init : inv (Dijkstra.init g start).
Proof.
  split; simpl.
  - intros v. destruct (decide (start = v)) as [->|Hne].
    + rewrite lookup_insert_eq. split; [done|eauto].
    + by rewrite lookup_insert_ne, lookup_fmap, fmap_is_Some.
  - apply lookup_insert_eq.
  - intros v d. destruct (decide (start = v)) as [->|Hne].
    + rewrite lookup_insert_eq. intros [= <-]. unfold INF. lia.
    + rewrite lookup_insert_ne, lookup_fmap by done.
      destruct (g !! v); simpl; [|done]. intros [= <-]. unfold INF. lia.
  - intros v d. destruct (decide (start = v)) as [->|Hne].
    + rewrite lookup_insert_eq. intros [= <-] _. constructor.
    + rewrite lookup_insert_ne, lookup_fmap by done.
      destruct (g !! v); simpl; [|done]. intros [= <-]. lia.
  - intros k u [= -> ->]%list_elem_of_singleton. done.
  - done.
Qed.

Lemma dijk_pending_init : Dijkstra.pending_ok g (Dijkstra.init g start) None.
Proof.
  intros u du _. simpl. destruct (decide (start = u)) as [->|Hne].
  - intros _ _. left. exists 0. simpl. by left.
  - rewrite lookup_insert_ne, lookup_fmap by done.
    destruct (g !! u); simpl; [|done]. intros [= <-]. lia.
Qed.

(** One edge out of [cur], whose distance [dc] stays as it is. *)
Lemma dijk_relax_inv cur wt node st dc :
  inv st → wedge g cur wt node → Dijkstra.dists st !! cur = Some dc →
  Dijkstra.pending_ok g st (Some cur) →
  ∃ st',
    Dijkstra.relax cur (wt, node) st = Done st' ∧
    inv st' ∧
    Dijkstra.dists st' !! cur = Some dc ∧
    Dijkstra.pending_ok g st' (Some cur) ∧
    Dijkstra.table_le (Dijkstra.dists st) (Dijkstra.dists st') ∧
    (∃ dv, Dijkstra.dists st' !! node = Some dv ∧ dv ≤ dc + wt) ∧
    measure st' ≤ measure st.
Proof.
  intros Hinv Hedge Hdc Hpend.
  pose proof (Hnonneg _ _ _ Hedge) as Hwt.
  assert (is_Some (g !! node)) as Hnode.
  { apply (Hclosed cur node). apply edge_wedge. eauto. }
  apply (Dijkstra.inv_dom _ _ _ Hinv) in Hnode as [dn Hdn].
  pose proof (Dijkstra.inv_range _ _ _ Hinv _ _ Hdc) as Hrc.
  pose proof (Dijkstra.inv_range _ _ _ Hinv _ _ Hdn) as Hrn.
  unfold Dijkstra.relax. rewrite Hdc, Hdn.
  destruct (decide (dc + wt < dn)) as [Hlt|Hge].
  - assert (node ≠ cur) as Hnc by (intros ->; simplify_eq; lia).
    assert (node ≠ start) as Hns.
    { intros ->. rewrite (Dijkstra.inv_start _ _ _ Hinv) in Hdn.
      simplify_eq. lia. }
    eexists. split; [done|]. simpl.
    pose proof (table_le_insert _ node dn (dc + wt) Hdn ltac:(lia)) as Hle.
    split; [|split; [|split; [|split; [|split]]]].
    + destruct Hinv as [Hdom Hst Hrange Hwalk Hheap Hlast]. split; simpl.
      6: apply last_snoc.
      * intros v. rewrite <- Hdom. destruct (decide (node = v)) as [->|Hne].
        -- rewrite lookup_insert_eq. split; eauto.
        -- by rewrite lookup_insert_ne.
      * by rewrite lookup_insert_ne.
      * intros v d. destruct (decide (node = v)) as [->|Hne].
        -- rewrite lookup_insert_eq. intros [= <-]. lia.
        -- rewrite lookup_insert_ne by done. apply Hrange.
      * intros v d. destruct (decide (node = v)) as [->|Hne].
        -- rewrite lookup_insert_eq. intros [= <-] _.
           apply Dijkstra.walk_step with cur; [|done].
           apply Hwalk; [done|lia].
        -- rewrite lookup_insert_ne by done. apply Hwalk.
      * intros k u [[= -> ->]|Hin]%hpush_elem; [|by eapply Hheap].
        apply Hdom. eauto.
    + by rewrite lookup_insert_ne.
    + intros u du Hu. simpl. destruct (decide (node = u)) as [->|Hne].
      * intros _ _. left. exists (dc + wt). simpl. apply hpush_elem. by left.
      * rewrite lookup_insert_ne by done. intros Hdu Hlt'.
        destruct (Hpend u du Hu Hdu Hlt') as [[k Hk]|Hset].
        -- left. exists k. simpl. apply hpush_elem. by right.
        -- right. eapply settled_mono; [done|done|]. by rewrite lookup_insert_ne.
    + done.
    + exists (dc + wt). rewrite lookup_insert_eq. split; [done|lia].
    + rewrite hpush_length, (total_update _ _ _ _ Hdn). lia.
  - exists st. split; [done|]. split; [done|]. split; [done|]. split; [done|].
    split; [apply table_le_refl|]. split; [|lia].
    exists dn. split; [done|lia].
Qed.

(** The whole adjacency list of [cur]; [pre] is the part already scanned. *)
Lemma dijk_scan_inv cur dc adj pre st :
  inv st → g !! cur = Some (pre ++ adj) →
  Dijkstra.dists st !! cur = Some dc →
  Dijkstra.pending_ok g st (Some cur) →
  (∀ w v, (w, v) ∈ pre → ∃ dv, Dijkstra.dists st !! v = Some dv ∧ dv ≤ dc + w) →
  ∃ st',
    for_each (Dijkstra.relax cur) adj st = Done st' ∧
    inv st' ∧
    Dijkstra.dists st' !! cur = Some dc ∧
    Dijkstra.pending_ok g st' (Some cur) ∧
    (∀ w v, (w, v) ∈ pre ++ adj →
       ∃ dv, Dijkstra.dists st' !! v = Some dv ∧ dv ≤ dc + w) ∧
    measure st' ≤ measure st.
Proof.
  revert pre st. induction adj as [|[wt node] adj IH]; intros pre st Hinv Hg Hdc Hpend Hpre.
  - exists st. simpl. rewrite app_nil_r. split_and!; auto. lia.
  - assert (wedge g cur wt node) as Hedge.
    { exists (pre ++ (wt, node) :: adj). split; [done|].
      apply elem_of_app. right. by left. }
    destruct (dijk_relax_inv cur wt node st dc Hinv Hedge Hdc Hpend)
      as (st1 & Hrel & Hinv1 & Hdc1 & Hpend1 & Hle1 & Hnode1 & Hm1).
    destruct (IH (pre ++ [(wt, node)]) st1) as (st' & Hrun & Hinv' & Hdc' & Hpend' & Hall & Hm');
      auto.
    { by rewrite <- app_assoc. }
    { intros w v [Hin| [= -> ->]%list_elem_of_singleton]%elem_of_app; [|done].
      destruct (Hpre w v Hin) as (dv & Hdv & Hle).
      destruct (Hle1 v dv Hdv) as (dv' & Hdv' & Hle'). exists dv'. split; [done|lia]. }
    exists st'. cbn [for_each]. rewrite Hrel. split; [done|].
    rewrite <- app_assoc in Hall. simpl in Hall. split_and!; auto. lia.
Qed.

Lemma dijk_loop_total fuel st :
  inv st → Dijkstra.pending_ok g st None → measure st ≤ Z.of_nat fuel →
  ∃ st',
    Dijkstra.loop fuel g st
      = Done (Dijkstra.animation_dists st', Dijkstra.order_visited st') ∧
    inv st' ∧ Dijkstra.pending_ok g st' None ∧ Dijkstra.heap st' = [].
Proof.
  revert st. induction fuel as [|fuel IH]; intros st Hinv Hpend Hfuel.
  - assert (0 ≤ Dijkstra.total (Dijkstra.dists st)) as Hpos.
    { apply total_nonneg. intros k d Hk.
      by destruct (Dijkstra.inv_range _ _ _ Hinv k d Hk). }
    destruct (Dijkstra.heap st) as [|x h] eqn:Hh; simpl in Hfuel; [|lia].
    exists st. simpl. by rewrite Hh.
  - simpl. destruct (Dijkstra.heap st) as [|[k cur] h] eqn:Hh; simpl.
    { exists st. by rewrite Hh. }
    assert (is_Some (g !! cur)) as [adj Hadj].
    { apply (Dijkstra.inv_heap _ _ _ Hinv k). rewrite Hh. by left. }
    rewrite Hadj.
    assert (is_Some (Dijkstra.dists st !! cur)) as [dc Hdc].
    { apply (Dijkstra.inv_dom _ _ _ Hinv). eauto. }
    destruct (dijk_scan_inv cur dc adj [] (Dijkstra.with_heap h st))
      as (st1 & Hscan & Hinv1 & Hdc1 & Hpend1 & Hall & Hm1); auto.
    { destruct Hinv as [Hdom Hst Hrange Hwalk Hheap Hlast]. split; simpl; auto.
      intros k' u Hin. apply (Hheap k'). rewrite Hh. by right. }
    { intros u du Hu Hdu Hlt. simpl in *.
      destruct (Hpend u du ltac:(done) Hdu Hlt) as [[k' Hk']|Hset]; [|by right].
      left. exists k'. simpl. rewrite Hh in Hk'.
      apply elem_of_cons in Hk' as [[= -> ->]|Hk']; [done|done]. }
    { intros w v Hin. by apply elem_of_nil in Hin. }
    rewrite Hscan. apply IH; [done| |].
    + intros u du _ Hdu Hlt. destruct (decide (u = cur)) as [->|Hne].
      * right. intros w v (adj' & Hadj' & Hin).
        assert (adj' = adj) as -> by congruence.
        destruct (Hall w v Hin) as (dv & Hdv & Hle). exists dc, dv. auto.
      * apply (Hpend1 u du); [by intros [= ->]|done|done].
    + simpl in Hm1, Hfuel. lia.
Qed.

(** With an empty heap every edge of the graph is relaxed. *)
Lemma dijk_final_settled st u :
  inv st → Dijkstra.pending_ok g st None → Dijkstra.heap st = [] →
  Dijkstra.settled g (Dijkstra.dists st) u.
Proof.
  intros Hinv Hpend Hh w v Hedge.
  assert (is_Some (Dijkstra.dists st !! u)) as [du Hdu].
  { apply (Dijkstra.inv_dom _ _ _ Hinv). destruct Hedge as (adj & ? & _). eauto. }
  destruct (decide (du < INF)) as [Hlt|Hge].
  - destruct (Hpend u du ltac:(done) Hdu Hlt) as [[k Hk]|Hset]; [|by apply Hset].
    rewrite Hh in Hk. by apply elem_of_nil in Hk.
  - assert (is_Some (Dijkstra.dists st !! v)) as [dv Hdv].
    { apply (Dijkstra.inv_dom _ _ _ Hinv), (Hclosed u v), edge_wedge. eauto. }
    exists du, dv. split; [done|]. split; [done|].
    pose proof (Dijkstra.inv_range _ _ _ Hinv _ _ Hdv).
    pose proof (Hnonneg _ _ _ Hedge). lia.
Qed.

(** The final table is a lower bound of every walk. *)
Lemma dijk_final_lower st v d :
  inv st → Dijkstra.pending_ok g st None → Dijkstra.heap st = [] →
  Dijkstra.walk g start v d →
  ∃ dv, Dijkstra.dists st !! v = Some dv ∧ dv ≤ d.
Proof.
  intros Hinv Hpend Hh Hwalk. induction Hwalk as [|u w v d _ IH Hedge].
  - exists 0. split; [apply (Dijkstra.inv_start _ _ _ Hinv)|lia].
  - destruct IH as (du & Hdu & Hle).
    destruct (dijk_final_settled st u Hinv Hpend Hh w v Hedge)
      as (du' & dv & Hdu' & Hdv & Hrel).
    exists dv. split; [done|]. simplify_eq. lia.
Qed.
End dijk_run.

Lemma walk_reach g s v d : Dijkstra.walk g s v d → reach g s v.
Proof.
  induction 1 as [|u w v d _ IH Hedge]; [done|].
  apply rtc_r with u; [done|]. apply edge_wedge. eauto.
Qed.

(** *** Snapshots only decrease *)

Lemma mono_trace_snoc l a b :
  Dijkstra.mono_trace l → last l = Some a → Dijkstra.table_le a b →
  Dijkstra.mono_trace (l ++ [b]).
Proof.
  intros Hm Hlast Hle i x y Hx Hy.
  destruct (decide (S i < length l)%nat) as [Hlt|Hge].
  - rewrite lookup_app_l in Hx, Hy by lia. by apply (Hm i).
  - assert (S i = length l) as Hi.
    { apply lookup_lt_Some in Hy. rewrite length_app in Hy. simpl in Hy. lia. }
    rewrite lookup_app_l in Hx by lia.
    rewrite last_lookup, <- Hi in Hlast. simpl in Hlast.
    rewrite Hi, lookup_app_r, Nat.sub_diag in Hy by lia. simpl in Hy.
    by simplify_eq.
Qed.

Lemma mono_trace_le l i j a b :
  Dijkstra.mono_trace l → (i ≤ j)%nat → l !! i = Some a → l !! j = Some b →
  Dijkstra.table_le a b.
Proof.
  intros Hm Hij Ha. revert b. induction Hij as [|j Hij IH]; intros b Hb.
  - simplify_eq. apply table_le_refl.
  - assert (is_Some (l !! j)) as [c Hc].
    { apply lookup_lt_is_Some. apply lookup_lt_Some in Hb. lia. }
    apply table_le_trans with c; [by apply IH|]. by apply (Hm j).
Qed.

Lemma dijk_relax_mono cur e st st' :
  Dijkstra.relax cur e st = Done st' →
  last (Dijkstra.animation_dists st) = Some (Dijkstra.dists st) →
  Dijkstra.mono_trace (Dijkstra.animation_dists st) →
  last (Dijkstra.animation_dists st') = Some (Dijkstra.dists st') ∧
  Dijkstra.mono_trace (Dijkstra.animation_dists st') ∧
  head (Dijkstra.animation_dists st') = head (Dijkstra.animation_dists st).
Proof.
  destruct e as [wt node]. unfold Dijkstra.relax.
  destruct (Dijkstra.dists st !! cur) as [dc|]; [|done].
  destruct (Dijkstra.dists st !! node) as [dn|] eqn:Hdn; [|done].
  destruct (decide (dc + wt < dn)) as [Hlt|Hge]; intros [= <-] Hlast Hm; simpl.
  - split; [apply last_snoc|]. split.
    + eapply mono_trace_snoc; [done|done|]. eapply table_le_insert; [done|lia].
    + destruct (Dijkstra.animation_dists st); [done|done].
  - done.
Qed.

Lemma dijk_scan_mono cur adj st st' :
  for_each (Dijkstra.relax cur) adj st = Done st' →
  last (Dijkstra.animation_dists st) = Some (Dijkstra.dists st) →
  Dijkstra.mono_trace (Dijkstra.animation_dists st) →
  last (Dijkstra.animation_dists st') = Some (Dijkstra.dists st') ∧
  Dijkstra.mono_trace (Dijkstra.animation_dists st') ∧
  head (Dijkstra.animation_dists st') = head (Dijkstra.animation_dists st).
Proof.
  revert st. induction adj as [|e adj IH]; intros st; cbn [for_each].
  - by intros [= <-].
  - destruct (Dijkstra.relax cur e st) as [st1| |] eqn:Hrel; [|done|done].
    intros Hrun Hlast Hm.
    destruct (dijk_relax_mono _ _ _ _ Hrel Hlast Hm) as (Hl1 & Hm1 & Hh1).
    destruct (IH _ Hrun Hl1 Hm1) as (Hl' & Hm' & Hh'). by rewrite Hh', Hh1.
Qed.

Lemma dijk_loop_mono fuel g st anim order :
  Dijkstra.loop fuel g st = Done (anim, order) →
  last (Dijkstra.animation_dists st) = Some (Dijkstra.dists st) →
  Dijkstra.mono_trace (Dijkstra.animation_dists st) →
  Dijkstra.mono_trace anim ∧ head anim = head (Dijkstra.animation_dists st).
Proof.
  revert st. induction fuel as [|fuel IH]; intros st; simpl.
  - destruct (Dijkstra.hpop (Dijkstra.heap st)) as [[[k c] h]|]; [done|].
    by intros [= <- <-].
  - destruct (Dijkstra.hpop (Dijkstra.heap st)) as [[[k c] h]|].
    2:{ by intros [= <- <-]. }
    destruct (g !! c) as [adj|]; [|done].
    destruct (for_each _ _ _) as [st1| |] eqn:Hscan; [|done|done].
    intros Hrun Hlast Hm.
    destruct (dijk_scan_mono _ _ _ _ Hscan Hlast Hm) as (Hl1 & Hm1 & Hh1).
    destruct (IH _ Hrun Hl1 Hm1) as (Hm' & Hh'). by rewrite Hh', Hh1.
Qed.

(** *** Termination *)

(** On a closed graph with non-negative weights the run returns for every
    large enough fuel, in a state with an empty heap. *)
Lemma dijk_terminates (g : graph) (start : Z) :
  closed g → nonneg g → is_Some (g !! start) →
  ∃ fuel st,
    (∀ fuel', (fuel ≤ fuel')%nat →
       Dijkstra.dijk fuel' g start
         = Done (Dijkstra.animation_dists st, Dijkstra.order_visited st)) ∧
    Dijkstra.inv g start st ∧ Dijkstra.pending_ok g st None ∧
    Dijkstra.heap st = [].
Proof.
  intros Hc Hn Hs.
  set (fuel := Z.to_nat (Z.of_nat (length (Dijkstra.heap (Dijkstra.init g start)))
                         + Dijkstra.total (Dijkstra.dists (Dijkstra.init g start)))).
  destruct (dijk_loop_total g start Hc Hn fuel (Dijkstra.init g start))
    as (st & Hrun & Hinv & Hpend & Hh).
  - by apply dijk_inv_init.
  - by apply dijk_pending_init.
  - subst fuel. lia.
  - exists fuel, st. split; [|done].
    intros fuel' Hle. by apply dijk_loop_fuel_mono with fuel.
Qed.

(** *** The claims about [dijk] *)

(** C9. Whenever [dijk] returns, its two lists have the same length, one
    plus the number of relaxation events of the run, so that every frame
    number below that length indexes both lists; and on a closed graph with
    non-negative weights and a start node in it, [dijk] does return. *)
Theorem dijk_lists_same_length (g : graph) (start : Z) :
  (∀ fuel anim order,
     Dijkstra.dijk fuel g start = Done (anim, order) →
     length anim = length order ∧
     length anim = S (Dijkstra.relaxation_events fuel g start) ∧
     (∀ i, (i < length anim)%nat → is_Some (anim !! i) ∧ is_Some (order !! i))) ∧
  (closed g → nonneg g → is_Some (g !! start) →
   ∃ fuel anim order, ∀ fuel', (fuel ≤ fuel')%nat →
     Dijkstra.dijk fuel' g start = Done (anim, order) ∧
     Dijkstra.relaxation_events fuel' g start
       = Dijkstra.relaxation_events fuel g start).
Proof.
  split.
  - unfold Dijkstra.dijk, Dijkstra.relaxation_events. intros fuel anim order Hrun.
    destruct (dijk_loop_trace _ _ _ _ _ Hrun) as [Ha Ho]. simpl in *.
    assert (length anim = length order) as Heq by lia.
    split; [done|]. split; [lia|].
    intros i Hi. split; apply lookup_lt_is_Some; lia.
  - intros Hc Hn Hs.
    destruct (dijk_terminates g start Hc Hn Hs) as (fuel & st & Hrun & _).
    exists fuel, (Dijkstra.animation_dists st), (Dijkstra.order_visited st).
    intros fuel' Hle. split; [by apply Hrun|].
    unfold Dijkstra.relaxation_events.
    eapply dijk_events_fuel_mono; [|done]. apply (Hrun fuel). lia.
Qed.

Lemma dijk_lists_same_length_witness :
  ∃ anim order,
    Dijkstra.dijk 10 scenario 0 = Done (anim, order) ∧
    length anim = length order ∧
    length anim = S (Dijkstra.relaxation_events 10 scenario 0).
Proof.
  eexists _, _. split; [vm_compute; reflexivity|].
  pose proof (proj1 (dijk_lists_same_length scenario 0) 10%nat) as H.
  edestruct H as (H1 & H2 & _); [vm_compute; reflexivity|]. split; [exact H1|exact H2].
Defined.

(** Snapshots of a returned run never increase, whatever the graph. *)
Lemma dijk_monotone_returned g start fuel anim order :
  Dijkstra.dijk fuel g start = Done (anim, order) →
  Dijkstra.mono_trace anim ∧
  head anim = Some (Dijkstra.dists (Dijkstra.init g start)).
Proof.
  intros Hrun. apply (dijk_loop_mono _ _ _ _ _ Hrun); simpl; [done|].
  intros i a b Ha Hb. apply lookup_lt_Some in Hb. simpl in Hb. lia.
Qed.

(** C8. On a closed graph with non-negative weights and a start node in it,
    [dijk] returns, and for every node of the graph the distances recorded
    in the successive snapshots never increase: a later snapshot holds at
    most what an earlier one holds. *)
Theorem dijk_monotone (g : graph) (start : Z) :
  closed g → nonneg g → is_Some (g !! start) →
  ∃ fuel anim order,
    (∀ fuel', (fuel ≤ fuel')%nat →
       Dijkstra.dijk fuel' g start = Done (anim, order)) ∧
    ∀ v i j, is_Some (g !! v) → (i ≤ j < length anim)%nat →
      ∃ a b x y,
        anim !! i = Some a ∧ anim !! j = Some b ∧
        a !! v = Some x ∧ b !! v = Some y ∧ y ≤ x.
Proof.
  intros Hc Hn Hs.
  destruct (dijk_terminates g start Hc Hn Hs) as (fuel & st & Hrun & _).
  exists fuel, (Dijkstra.animation_dists st), (Dijkstra.order_visited st).
  split; [done|]. intros v i j Hv [Hij Hj].
  destruct (dijk_monotone_returned g start fuel _ _ (Hrun fuel ltac:(lia)))
    as [Hm Hhd].
  set (anim := Dijkstra.animation_dists st) in *.
  destruct (lookup_lt_is_Some_2 anim i ltac:(lia)) as [a Ha].
  destruct (lookup_lt_is_Some_2 anim j Hj) as [b Hb].
  assert (is_Some (Dijkstra.dists (Dijkstra.init g start) !! v)) as [x0 Hx0].
  { by apply (Dijkstra.inv_dom _ _ _ (dijk_inv_init g start Hs)). }
  rewrite head_lookup in Hhd.
  destruct (mono_trace_le anim 0 i _ a Hm ltac:(lia) Hhd Ha v x0 Hx0) as (x & Hx & _).
  destruct (mono_trace_le anim i j a b Hm Hij Ha Hb v x Hx) as (y & Hy & Hle).
  exists a, b, x, y. done.
Qed.

Lemma dijk_monotone_witness :
  ∃ fuel anim order,
    (∀ fuel', (fuel ≤ fuel')%nat →
       Dijkstra.dijk fuel' scenario 0 = Done (anim, order)) ∧
    ∀ v i j, is_Some (scenario !! v) → (i ≤ j < length anim)%nat →
      ∃ a b x y,
        anim !! i = Some a ∧ anim !! j = Some b ∧
        a !! v = Some x ∧ b !! v = Some y ∧ y ≤ x.
Proof.
  apply (dijk_monotone scenario 0).
  - graph_check.
  - graph_check.
  - vm_compute. eauto.
Defined.

(** C1 (amended). On a closed graph with non-negative weights and a start
    node in it, [dijk] returns, and the last snapshot gives every node of the
    graph the weight of its lightest walk from the start capped at the
    sentinel [INF]: an entry below [INF] is the true distance, an entry
    [INF] means that no walk is lighter than [INF], and a node that the
    start does not reach keeps [INF]. *)
Theorem dijk_final_distances (g : graph) (start : Z) :
  closed g → nonneg g → is_Some (g !! start) →
  ∃ fuel anim order final,
    (∀ fuel', (fuel ≤ fuel')%nat →
       Dijkstra.dijk fuel' g start = Done (anim, order)) ∧
    last anim = Some final ∧
    ∀ v, is_Some (g !! v) →
      ∃ dv, final !! v = Some dv ∧
        (∀ d, Dijkstra.shortest g start v d → dv = Z.min d INF) ∧
        (dv < INF → Dijkstra.shortest g start v dv) ∧
        (dv = INF → ∀ d, Dijkstra.walk g start v d → INF ≤ d) ∧
        (¬ reach g start v → dv = INF).
Proof.
  intros Hc Hn Hs.
  destruct (dijk_terminates g start Hc Hn Hs) as (fuel & st & Hrun & Hinv & Hpend & Hh).
  exists fuel, (Dijkstra.animation_dists st), (Dijkstra.order_visited st),
    (Dijkstra.dists st).
  split; [done|]. split; [apply (Dijkstra.inv_last _ _ _ Hinv)|].
  intros v Hv. apply (Dijkstra.inv_dom _ _ _ Hinv) in Hv as [dv Hdv].
  pose proof (Dijkstra.inv_range _ _ _ Hinv v dv Hdv) as Hrange.
  assert (∀ d, Dijkstra.walk g start v d → dv ≤ d) as Hlower.
  { intros d Hwalk.
    destruct (dijk_final_lower g start Hc Hn st v d Hinv Hpend Hh Hwalk)
      as (dv' & Hdv' & Hle). by simplify_eq. }
  exists dv. split_and!; [done| | | |].
  - intros d [Hwalk Hmin]. pose proof (Hlower d Hwalk).
    destruct (decide (dv < INF)) as [Hlt|Hge]; [|lia].
    pose proof (Hmin dv (Dijkstra.inv_walk _ _ _ Hinv v dv Hdv Hlt)). lia.
  - intros Hlt. split; [|done]. by apply (Dijkstra.inv_walk _ _ _ Hinv).
  - intros -> d Hwalk. by apply Hlower.
  - intros Hnr. destruct (decide (dv < INF)) as [Hlt|Hge]; [|lia].
    destruct Hnr. eapply walk_reach, (Dijkstra.inv_walk _ _ _ Hinv); done.
Qed.

Lemma dijk_final_distances_witness :
  ∃ fuel anim order final,
    (∀ fuel', (fuel ≤ fuel')%nat →
       Dijkstra.dijk fuel' scenario 0 = Done (anim, order)) ∧
    last anim = Some final ∧
    ∀ v, is_Some (scenario !! v) →
      ∃ dv, final !! v = Some dv ∧
        (∀ d, Dijkstra.shortest scenario 0 v d → dv = Z.min d INF) ∧
        (dv < INF → Dijkstra.shortest scenario 0 v dv) ∧
        (dv = INF → ∀ d, Dijkstra.walk scenario 0 v d → INF ≤ d) ∧
        (¬ reach scenario 0 v → dv = INF).
Proof.
  apply (dijk_final_distances scenario 0).
  - graph_check.
  - graph_check.
  - vm_compute. eauto.
Defined.

(** In [far] every walk from 0 to 1 weighs at least 2000000001. *)
Lemma far_walks v d :
  Dijkstra.walk Dijkstra.far 0 v d →
  (v = 0 ∧ 0 ≤ d) ∨ (v = 1 ∧ 2000000001 ≤ d).
Proof.
  induction 1 as [|u w v d _ IH (adj & Hadj & Hin)]; [left; lia|].
  destruct IH as [[-> Hd]|[-> Hd]]; vm_compute in Hadj; simplify_eq;
    apply list_elem_of_singleton in Hin; simplify_eq; [right|left]; lia.
Qed.

(** C1, counterexample. In the undirected graph [far], whose single edge
    0 - 1 weighs 2000000001, node 1 is in the component of 0 at true distance
    2000000001, and every returning run of [dijk] leaves it at the sentinel
    2000000000. *)
Lemma dijk_sentinel_counterexample :
  closed Dijkstra.far ∧ nonneg Dijkstra.far ∧ symmetric Dijkstra.far ∧
  is_Some (Dijkstra.far !! 0) ∧
  connected Dijkstra.far 0 1 ∧
  Dijkstra.shortest Dijkstra.far 0 1 2000000001 ∧
  (∃ r, Dijkstra.dijk 2 Dijkstra.far 0 = Done r) ∧
  ∀ fuel anim order final,
    Dijkstra.dijk fuel Dijkstra.far 0 = Done (anim, order) →
    last anim = Some final →
    final !! 1 = Some 2000000000 ∧ final !! 1 ≠ Some 2000000001.
Proof.
  assert (Hw : wedge Dijkstra.far 0 2000000001 1).
  { eexists. split; [vm_compute; reflexivity|]. by left. }
  split_and!.
  - graph_check.
  - graph_check.
  - graph_check.
  - vm_compute. eauto.
  - apply rtc_once. left. apply edge_wedge. eauto.
  - split.
    + change 2000000001 with (0 + 2000000001).
      apply Dijkstra.walk_step with 0; [constructor|done].
    + intros d' Hd'. apply far_walks in Hd'. lia.
  - eexists. vm_compute. reflexivity.
  - intros fuel anim order final Hrun Hlast.
    assert (Dijkstra.dijk (fuel `max` 2) Dijkstra.far 0 = Done (anim, order)) as H1.
    { apply dijk_loop_fuel_mono with fuel; [done|lia]. }
    assert (∃ r, Dijkstra.dijk 2 Dijkstra.far 0 = Done r ∧
                 (last r.1 ≫= (.!! 1)) = Some 2000000000) as (r & H2 & Hr).
    { eexists. split; vm_compute; reflexivity. }
    assert (Dijkstra.dijk (fuel `max` 2) Dijkstra.far 0 = Done r) as H3.
    { apply dijk_loop_fuel_mono with 2%nat; [done|lia]. }
    rewrite H1 in H3. injection H3 as <-. simpl in Hr. rewrite Hlast in Hr.
    simpl in Hr. rewrite Hr. split; [done|]. intros [=].
Qed.

(** ** Kruskal *)

Example kruskals_scenario :
  Kruskal.kruskals 10 () 4 Kruskal.scenario_edges
  = (Done [((2, 3, 1), true); ((1, 2, 3), true); ((0, 1, 5), true);
           ((0, 3, 10), false)],
     [(2, 3, 1); (1, 2, 3); (0, 1, 5); (0, 3, 10)]).
Proof. vm_compute. reflexivity. Qed.

(** *** Sorting *)

Lemma insert_by_weight_perm e l : Kruskal.insert_by_weight e l ≡ₚ e :: l.
Proof.
  induction l as [|x l IH]; simpl; [done|].
  destruct (decide _); [done|]. rewrite IH. apply Permutation_swap.
Qed.

Lemma sort_by_weight_perm l : Kruskal.sort_by_weight l ≡ₚ l.
Proof.
  induction l as [|e l IH]; simpl; [done|].
  by rewrite insert_by_weight_perm, IH.
Qed.

Lemma insert_by_weight_sorted e l :
  Sorted (λ x y, Kruskal.weight x ≤ Kruskal.weight y) l →
  Sorted (λ x y, Kruskal.weight x ≤ Kruskal.weight y) (Kruskal.insert_by_weight e l).
Proof.
  induction 1 as [|x l Hs IH Hhd]; simpl.
  - repeat constructor.
  - destruct (decide _) as [Hle|Hgt].
    + constructor; [by constructor|by constructor].
    + constructor; [done|].
      destruct Hhd as [|y l Hxy]; simpl.
      * constructor. lia.
      * destruct (decide _); constructor; [lia|done].
Qed.

Lemma sort_by_weight_sorted l :
  Sorted (λ x y, Kruskal.weight x ≤ Kruskal.weight y) (Kruskal.sort_by_weight l).
Proof.
  induction l as [|e l IH]; simpl; [constructor|].
  by apply insert_by_weight_sorted.
Qed.

(** A list that is already in weight order is left as it is. *)
Lemma sort_by_weight_id l :
  Sorted (λ x y, Kruskal.weight x ≤ Kruskal.weight y) l →
  Kruskal.sort_by_weight l = l.
Proof.
  induction 1 as [|x l Hs IH Hhd]; simpl; [done|]. rewrite IH.
  destruct Hhd as [|y l Hxy]; simpl; [done|].
  by rewrite decide_True.
Qed.

(** *** List indices *)

Lemma norm_range len x :
  Kruskal.index_ok (Z.of_nat len) x → 0 ≤ Kruskal.norm len x < Z.of_nat len.
Proof. unfold Kruskal.index_ok, Kruskal.norm. destruct (decide _); lia. Qed.

Lemma py_index_ok len x :
  Kruskal.index_ok (Z.of_nat len) x →
  Kruskal.py_index len x = Some (Z.to_nat (Kruskal.norm len x)).
Proof.
  unfold Kruskal.index_ok, Kruskal.norm, Kruskal.py_index. intros Hx.
  repeat destruct (decide _); try lia; done.
Qed.

Lemma py_index_bad len x :
  ¬ Kruskal.index_ok (Z.of_nat len) x → Kruskal.py_index len x = None.
Proof.
  unfold Kruskal.index_ok, Kruskal.py_index. intros Hx.
  repeat destruct (decide _); try lia; done.
Qed.

Lemma get_ok root x v :
  Kruskal.index_ok (Z.of_nat (length root)) x →
  root !! Z.to_nat (Kruskal.norm (length root) x) = Some v →
  Kruskal.get root x = Done v.
Proof.
  intros Hx Hv. unfold Kruskal.get. rewrite py_index_ok by done. simpl.
  by rewrite Hv.
Qed.

Lemma get_bad root x :
  ¬ Kruskal.index_ok (Z.of_nat (length root)) x →
  Kruskal.get root x = Raise IndexError.
Proof. intros Hx. unfold Kruskal.get. by rewrite py_index_bad. Qed.

Lemma set_ok root x v :
  Kruskal.index_ok (Z.of_nat (length root)) x →
  Kruskal.set root x v
  = Done (<[Z.to_nat (Kruskal.norm (length root) x) := v]> root).
Proof. intros Hx. unfold Kruskal.set. by rewrite py_index_ok. Qed.

Lemma norm_nonneg len x : 0 ≤ x → Kruskal.norm len x = x.
Proof. unfold Kruskal.norm. intros. by rewrite decide_True. Qed.

Lemma index_ok_nonneg N x : 0 ≤ x < N → Kruskal.index_ok N x.
Proof. unfold Kruskal.index_ok. lia. Qed.

(** *** Representatives *)

Lemma rep_functional root x r s :
  Kruskal.rep root x r → Kruskal.rep root x s → r = s.
Proof.
  induction 1 as [x Hx Hr|x p r Hx Hp Hne _ IH]; inversion 1; simplify_eq; auto.
Qed.

Lemma rep_is_root root x r :
  Kruskal.rep root x r → 0 ≤ r ∧ root !! Z.to_nat r = Some r.
Proof. induction 1; auto. Qed.

Lemma rep_range root x r :
  Kruskal.rep root x r → 0 ≤ x < Z.of_nat (length root).
Proof.
  intros H. assert (0 ≤ x ∧ is_Some (root !! Z.to_nat x)) as [Hx Hs].
  { destruct H; eauto. }
  apply lookup_lt_is_Some in Hs. lia.
Qed.

Lemma rep_rank root rank bound x r :
  Kruskal.forest root rank bound → Kruskal.rep root x r →
  (rank x ≤ rank r)%nat.
Proof.
  intros Hf. induction 1 as [|x p r Hx Hp Hne _ IH]; [done|].
  pose proof (Kruskal.fo_rank _ _ _ Hf x p Hx Hp Hne). lia.
Qed.

Lemma rep_total root rank bound x :
  Kruskal.forest root rank bound → 0 ≤ x < Z.of_nat (length root) →
  ∃ r, Kruskal.rep root x r.
Proof.
  intros Hf. remember (bound - rank x)%nat as n eqn:Hn.
  revert x Hn. induction n as [n IH] using lt_wf_ind. intros x Hn Hx.
  destruct (lookup_lt_is_Some_2 root (Z.to_nat x) ltac:(lia)) as [p Hp].
  destruct (decide (p = x)) as [->|Hne].
  - exists x. apply Kruskal.rep_root; [lia|done].
  - pose proof (Kruskal.fo_rank _ _ _ Hf x p ltac:(lia) Hp Hne) as Hlt.
    pose proof (Kruskal.fo_range _ _ _ Hf x p ltac:(lia) Hp) as Hrange.
    pose proof (Kruskal.fo_bound _ _ _ Hf p) as Hb.
    destruct (IH (bound - rank p)%nat ltac:(lia) p eq_refl Hrange) as [r Hr].
    exists r. apply Kruskal.rep_step with p; [lia|done|done|done].
Qed.

(** Path compression: pointing [x] at its own representative changes no
    representative. *)
Lemma rep_compress root x r y s :
  Kruskal.rep root x r → Kruskal.rep root y s →
  Kruskal.rep (<[Z.to_nat x := r]> root) y s.
Proof.
  intros Hxr Hys. pose proof (rep_range _ _ _ Hxr) as Hx.
  destruct (rep_is_root _ _ _ Hxr) as [Hr0 Hr].
  induction Hys as [y Hy Hroot|y p s Hy Hp Hne Hps IH].
  - destruct (decide (y = x)) as [->|Hyx].
    + assert (r = x) as ->.
      { apply (rep_functional root x); [done|]. by apply Kruskal.rep_root. }
      apply Kruskal.rep_root; [done|]. rewrite list_lookup_insert_eq; [done|lia].
    + apply Kruskal.rep_root; [done|]. rewrite list_lookup_insert_ne; [done|lia].
  - destruct (decide (y = x)) as [->|Hyx].
    + assert (s = r) as ->.
      { apply (rep_functional root x); [|done]. by apply Kruskal.rep_step with p. }
      assert (r ≠ x) as Hrx by (intros ->; simplify_eq).
      apply Kruskal.rep_step with r; [done| |done|].
      * rewrite list_lookup_insert_eq; [done|lia].
      * apply Kruskal.rep_root; [done|]. rewrite list_lookup_insert_ne; [done|lia].
    + apply Kruskal.rep_step with p; [done| |done|done].
      rewrite list_lookup_insert_ne; [done|lia].
Qed.

Lemma forest_compress root rank bound x r :
  Kruskal.forest root rank bound → Kruskal.rep root x r →
  Kruskal.forest (<[Z.to_nat x := r]> root) rank bound.
Proof.
  intros Hf Hxr. pose proof (rep_range _ _ _ Hxr) as Hx.
  destruct (rep_is_root _ _ _ Hxr) as [Hr0 Hr].
  pose proof (Kruskal.fo_range _ _ _ Hf r r Hr0 Hr) as Hrr.
  destruct Hf as [Hrange Hrank Hbound]. split; [| |done].
  - intros y p Hy. rewrite length_insert.
    destruct (decide (y = x)) as [->|Hyx].
    + rewrite list_lookup_insert_eq by lia. by intros [= <-].
    + rewrite list_lookup_insert_ne by lia. by apply Hrange.
  - intros y p Hy. destruct (decide (y = x)) as [->|Hyx].
    + rewrite list_lookup_insert_eq by lia. intros [= <-] Hne.
      inversion Hxr as [|? p ? ? Hp Hpx Hpr]; simplify_eq.
      pose proof (Hrank x p Hy Hp Hpx).
      pose proof (rep_rank root rank bound p r ltac:(by split) Hpr). lia.
    + rewrite list_lookup_insert_ne by lia. by apply Hrank.
Qed.

Lemma roots_compress root x r y :
  Kruskal.rep root x r → 0 ≤ y →
  <[Z.to_nat x := r]> root !! Z.to_nat y = Some y ↔ root !! Z.to_nat y = Some y.
Proof.
  intros Hxr Hy. pose proof (rep_range _ _ _ Hxr) as Hx.
  destruct (decide (y = x)) as [->|Hyx].
  - rewrite list_lookup_insert_eq by lia. split.
    + intros [= ->]. by destruct (rep_is_root _ _ _ Hxr).
    + intros Hroot. f_equal. apply (rep_functional root x); [done|].
      by apply Kruskal.rep_root.
  - by rewrite list_lookup_insert_ne by lia.
Qed.

Lemma preserves_refl root : Kruskal.preserves root root.
Proof. by split_and!. Qed.

Lemma preserves_trans r1 r2 r3 :
  Kruskal.preserves r1 r2 → Kruskal.preserves r2 r3 → Kruskal.preserves r1 r3.
Proof.
  intros (Hl1 & Hr1 & Ht1) (Hl2 & Hr2 & Ht2). split_and!.
  - congruence.
  - auto.
  - intros y Hy. by rewrite Ht2, Ht1.
Qed.

Lemma preserves_compress root x r :
  Kruskal.rep root x r → Kruskal.preserves root (<[Z.to_nat x := r]> root).
Proof.
  intros Hxr. split_and!.
  - apply length_insert.
  - intros y s. by apply rep_compress.
  - intros y. by apply roots_compress.
Qed.

(** *** [find] *)

#[local] Arguments Kruskal.find : simpl never.

Lemma find_unfold fuel x root :
  Kruskal.find (S fuel) x root =
  rx ← Kruskal.get root x;
  if decide (rx = x) then Done (x, root)
  else
    '(r, root1) ← Kruskal.find fuel rx root;
    root2 ← Kruskal.set root1 x r;
    r' ← Kruskal.get root2 x;
    Done (r', root2).
Proof. reflexivity. Qed.

Lemma find_nonneg fuel root rank bound x :
  Kruskal.forest root rank bound → 0 ≤ x < Z.of_nat (length root) →
  (bound - rank x < fuel)%nat →
  ∃ r root',
    Kruskal.find fuel x root = Done (r, root') ∧
    Kruskal.rep root x r ∧
    Kruskal.forest root' rank bound ∧
    Kruskal.preserves root root'.
Proof.
  intros Hf. revert x. induction fuel as [|fuel IH]; intros x Hx Hfuel; [lia|].
  destruct (lookup_lt_is_Some_2 root (Z.to_nat x) ltac:(lia)) as [p Hp].
  rewrite find_unfold.
  rewrite (get_ok root x p); [|by apply index_ok_nonneg|by rewrite norm_nonneg by lia].
  simpl. destruct (decide (p = x)) as [->|Hne].
  - exists x, root. split_and!; [done| |done|apply preserves_refl].
    apply Kruskal.rep_root; [lia|done].
  - pose proof (Kruskal.fo_rank _ _ _ Hf x p ltac:(lia) Hp Hne) as Hlt.
    pose proof (Kruskal.fo_range _ _ _ Hf x p ltac:(lia) Hp) as Hrange.
    pose proof (Kruskal.fo_bound _ _ _ Hf p) as Hb.
    destruct (IH p Hrange ltac:(lia)) as (r & root1 & Hrun & Hpr & Hf1 & Hpres).
    rewrite Hrun. simpl.
    assert (Kruskal.rep root x r) as Hxr.
    { apply Kruskal.rep_step with p; [lia|done|done|done]. }
    destruct Hpres as (Hlen & Hreps & Hroots).
    pose proof (Hreps x r Hxr) as Hxr1.
    rewrite set_ok by (rewrite Hlen; by apply index_ok_nonneg).
    simpl. rewrite norm_nonneg by lia.
    rewrite (get_ok _ x r).
    2:{ rewrite length_insert, Hlen. by apply index_ok_nonneg. }
    2:{ rewrite norm_nonneg by lia. rewrite list_lookup_insert_eq; [done|lia]. }
    simpl. exists r, (<[Z.to_nat x := r]> root1). split_and!; [done|done| |].
    + by apply forest_compress.
    + apply preserves_trans with root1; [done|]. by apply preserves_compress.
Qed.

Lemma find_ok fuel root rank bound x :
  Kruskal.forest root rank bound →
  Kruskal.index_ok (Z.of_nat (length root)) x →
  (bound + 2 ≤ fuel)%nat →
  ∃ r root',
    Kruskal.find fuel x root = Done (r, root') ∧
    Kruskal.rep root (Kruskal.norm (length root) x) r ∧
    Kruskal.forest root' rank bound ∧
    Kruskal.preserves root root'.
Proof.
  intros Hf Hx Hfuel. destruct (decide (0 ≤ x)) as [Hpos|Hneg].
  - rewrite norm_nonneg by done. apply find_nonneg; [done| |lia].
    unfold Kruskal.index_ok in Hx. lia.
  - destruct fuel as [|fuel]; [lia|].
    pose proof (norm_range _ _ Hx) as Hn.
    set (x' := Kruskal.norm (length root) x) in *.
    destruct (lookup_lt_is_Some_2 root (Z.to_nat x') ltac:(lia)) as [p Hp].
    pose proof (Kruskal.fo_range _ _ _ Hf x' p ltac:(lia) Hp) as Hrange.
    rewrite find_unfold, (get_ok root x p) by done. simpl.
    rewrite decide_False by lia.
    destruct (find_nonneg fuel root rank bound p Hf Hrange ltac:(lia))
      as (r & root1 & Hrun & Hpr & Hf1 & Hpres).
    rewrite Hrun. simpl.
    assert (Kruskal.rep root x' r) as Hxr.
    { destruct (decide (p = x')) as [->|Hne]; [done|].
      apply Kruskal.rep_step with p; [lia|done|done|done]. }
    destruct Hpres as (Hlen & Hreps & Hroots).
    pose proof (Hreps x' r Hxr) as Hxr1.
    rewrite set_ok by (by rewrite Hlen). simpl. rewrite Hlen. fold x'.
    rewrite (get_ok _ x r).
    2:{ by rewrite length_insert, Hlen. }
    2:{ rewrite length_insert, Hlen. fold x'.
        rewrite list_lookup_insert_eq; [done|lia]. }
    simpl. exists r, (<[Z.to_nat x' := r]> root1). split_and!; [done|done| |].
    + by apply forest_compress.
    + apply preserves_trans with root1; [done|]. by apply preserves_compress.
Qed.

Lemma find_bad fuel root x :
  ¬ Kruskal.index_ok (Z.of_nat (length root)) x →
  Kruskal.find (S fuel) x root = Raise IndexError.
Proof. intros Hx. by rewrite find_unfold, get_bad. Qed.

(** *** [join] *)

Lemma rep_link root ra rb y s :
  0 ≤ ra → root !! Z.to_nat ra = Some ra →
  0 ≤ rb → root !! Z.to_nat rb = Some rb → ra ≠ rb →
  Kruskal.rep root y s →
  Kruskal.rep (<[Z.to_nat ra := rb]> root) y (if decide (s = ra) then rb else s).
Proof.
  intros Ha Hra Hb Hrb Hne Hys.
  assert (Z.to_nat ra < length root)%nat as Hlt by (by eapply lookup_lt_Some).
  induction Hys as [y Hy Hroot|y p s Hy Hp Hpy Hps IH].
  - destruct (decide (y = ra)) as [->|Hyra].
    + apply Kruskal.rep_step with rb; [done| |done|].
      * by rewrite list_lookup_insert_eq.
      * apply Kruskal.rep_root; [done|]. rewrite list_lookup_insert_ne; [done|lia].
    + apply Kruskal.rep_root; [done|]. rewrite list_lookup_insert_ne; [done|lia].
  - assert (y ≠ ra) as Hyra by (intros ->; simplify_eq).
    apply Kruskal.rep_step with p; [done| |done|done].
    rewrite list_lookup_insert_ne; [done|lia].
Qed.

Lemma forest_link root rank bound ra rb :
  Kruskal.forest root rank bound →
  0 ≤ ra → root !! Z.to_nat ra = Some ra →
  0 ≤ rb → root !! Z.to_nat rb = Some rb → ra ≠ rb →
  Kruskal.forest (<[Z.to_nat ra := rb]> root)
    (Kruskal.link_rank rank ra rb) (S bound).
Proof.
  intros [Hrange Hrank Hbound] Ha Hra Hb Hrb Hne.
  assert (Z.to_nat ra < length root)%nat as Hlt by (by eapply lookup_lt_Some).
  unfold Kruskal.link_rank. split.
  - intros y p Hy. rewrite length_insert.
    destruct (decide (y = ra)) as [->|Hyra].
    + rewrite list_lookup_insert_eq by done. intros [= <-]. by apply (Hrange rb).
    + rewrite list_lookup_insert_ne by lia. by apply Hrange.
  - intros y p Hy. destruct (decide (y = ra)) as [->|Hyra].
    + rewrite list_lookup_insert_eq by done. intros [= <-] _.
      rewrite decide_False, decide_True by done. lia.
    + rewrite list_lookup_insert_ne by lia. intros Hp Hpy.
      pose proof (Hrank y p Hy Hp Hpy).
      rewrite (decide_False (P := y = rb)) by (intros ->; simplify_eq).
      destruct (decide (p = rb)) as [->|]; lia.
  - intros y. pose proof (Hbound ra). pose proof (Hbound rb). pose proof (Hbound y).
    destruct (decide (y = rb)) as [->|]; lia.
Qed.

Lemma forest_weaken root rank bound :
  Kruskal.forest root rank bound → Kruskal.forest root rank (S bound).
Proof.
  intros [Hrange Hrank Hbound]. split; [done|done|].
  intros y. specialize (Hbound y). lia.
Qed.

Lemma find_known fuel root rank bound x r :
  Kruskal.forest root rank bound →
  Kruskal.index_ok (Z.of_nat (length root)) x →
  (bound + 2 ≤ fuel)%nat →
  Kruskal.rep root (Kruskal.norm (length root) x) r →
  ∃ root',
    Kruskal.find fuel x root = Done (r, root') ∧
    Kruskal.forest root' rank bound ∧
    Kruskal.preserves root root'.
Proof.
  intros Hf Hx Hfuel Hr.
  destruct (find_ok fuel root rank bound x Hf Hx Hfuel) as (r' & root' & Hrun & Hr' & Hf' & Hp).
  assert (r' = r) as -> by (by eapply rep_functional).
  by exists root'.
Qed.

Lemma get_root root r :
  0 ≤ r → root !! Z.to_nat r = Some r → Kruskal.get root r = Done r.
Proof.
  intros Hr Hroot. apply get_ok.
  - apply lookup_lt_Some in Hroot. apply index_ok_nonneg. lia.
  - by rewrite norm_nonneg.
Qed.

Lemma join_ok fuel root rank bound a b ra rb :
  Kruskal.forest root rank bound →
  Kruskal.index_ok (Z.of_nat (length root)) a →
  Kruskal.index_ok (Z.of_nat (length root)) b →
  (bound + 2 ≤ fuel)%nat →
  Kruskal.rep root (Kruskal.norm (length root) a) ra →
  Kruskal.rep root (Kruskal.norm (length root) b) rb →
  ra ≠ rb →
  ∃ root1,
    Kruskal.join fuel a b root = Done (<[Z.to_nat ra := rb]> root1) ∧
    Kruskal.forest root1 rank bound ∧ Kruskal.preserves root root1.
Proof.
  intros Hf Ha Hb Hfuel Hra Hrb Hne. unfold Kruskal.join.
  destruct (find_known fuel root rank bound b rb Hf Hb Hfuel Hrb)
    as (root1 & Hrun1 & Hf1 & Hp1).
  rewrite Hrun1. simpl.
  destruct Hp1 as (Hlen1 & Hreps1 & Hroots1).
  destruct (rep_is_root _ _ _ Hrb) as [Hrb0 Hrbroot].
  rewrite (get_root root1 rb) by (by try apply Hroots1). simpl.
  destruct (find_known fuel root1 rank bound a ra Hf1) as (root2 & Hrun2 & Hf2 & Hp2);
    [by rewrite Hlen1|done|rewrite Hlen1; by apply Hreps1|].
  rewrite Hrun2. simpl.
  destruct (rep_is_root _ _ _ Hra) as [Hra0 Hraroot].
  assert (Kruskal.preserves root root2) as Hp.
  { apply preserves_trans with root1; [by split_and!|done]. }
  destruct Hp as (Hlen & Hreps & Hroots).
  rewrite set_ok.
  2:{ apply index_ok_nonneg. rewrite Hlen. apply lookup_lt_Some in Hraroot. lia. }
  rewrite norm_nonneg by done.
  exists root2. split_and!; [done|done|by split_and!].
Qed.

Lemma step_ok fuel a b wt root order_vis rank bound :
  Kruskal.forest root rank bound →
  Kruskal.endpoints_ok (Z.of_nat (length root)) (a, b, wt) →
  (bound + 2 ≤ fuel)%nat →
  ∃ root' rank' added,
    Kruskal.step fuel (a, b, wt) (root, order_vis)
      = Done (root', order_vis ++ [((a, b, wt), added)]) ∧
    Kruskal.forest root' rank' (S bound) ∧
    Kruskal.step_post root root'
      (Kruskal.norm (length root) a) (Kruskal.norm (length root) b) added.
Proof.
  intros Hf [Ha Hb] Hfuel. simpl in Ha, Hb. unfold Kruskal.step.
  destruct (rep_total root rank bound (Kruskal.norm (length root) a) Hf)
    as [ra Hra]; [by apply norm_range|].
  destruct (rep_total root rank bound (Kruskal.norm (length root) b) Hf)
    as [rb Hrb]; [by apply norm_range|].
  destruct (find_known fuel root rank bound a ra Hf Ha Hfuel Hra)
    as (root1 & Hrun1 & Hf1 & Hp1).
  rewrite Hrun1. simpl.
  destruct (find_known fuel root1 rank bound b rb Hf1) as (root2 & Hrun2 & Hf2 & Hp2).
  { by rewrite (proj1 Hp1). }
  { done. }
  { rewrite (proj1 Hp1). by apply Hp1. }
  rewrite Hrun2. simpl.
  assert (Kruskal.preserves root root2) as Hp by (by eapply preserves_trans).
  destruct Hp as (Hlen & Hreps & Hroots).
  destruct (decide (ra ≠ rb)) as [Hne|Heq].
  - destruct (join_ok fuel root2 rank bound a b ra rb Hf2)
      as (root3 & Hrun3 & Hf3 & Hp3); try (rewrite Hlen); auto.
    rewrite Hrun3. simpl.
    assert (Kruskal.preserves root root3) as Hp'.
    { apply preserves_trans with root2; [by split_and!|done]. }
    destruct Hp' as (Hlen' & Hreps' & Hroots').
    destruct (rep_is_root _ _ _ Hra) as [Hra0 Hraroot].
    destruct (rep_is_root _ _ _ Hrb) as [Hrb0 Hrbroot].
    apply Hroots' in Hraroot, Hrbroot; [|done|done].
    assert (Z.to_nat ra < length root3)%nat as Hlt by (by eapply lookup_lt_Some).
    exists (<[Z.to_nat ra := rb]> root3), (Kruskal.link_rank rank ra rb), true.
    split; [done|]. split; [by apply forest_link|].
    split; [by rewrite length_insert|].
    exists ra, rb. split_and!; [done|done|by rewrite bool_decide_eq_true_2| |].
    + intros y s Hys. simpl.
      pose proof (rep_link root3 ra rb y s Hra0 Hraroot Hrb0 Hrbroot Hne (Hreps' y s Hys)) as H.
      destruct (decide (s = ra)) as [->|Hs].
      * by rewrite bool_decide_eq_true_2.
      * by rewrite bool_decide_eq_false_2.
    + intros y Hy. destruct (decide (y = ra)) as [->|Hyra].
      * rewrite list_lookup_insert_eq by done. split; [|intros [_ H]; by destruct H].
        intros [= ?]. done.
      * rewrite list_lookup_insert_ne by lia. rewrite Hroots' by done. tauto.
  - apply dec_stable in Heq. subst rb.
    exists root2, rank, false. split; [done|]. split; [by apply forest_weaken|].
    split; [done|]. exists ra, ra. split_and!; [done|done| | |].
    + rewrite bool_decide_eq_false_2; [done|]. by intros ?.
    + intros y s Hys. simpl. by apply Hreps.
    + intros y Hy. rewrite Hroots by done. split; [|tauto].
      intros H. split; [done|]. intros [=].
Qed.

Lemma step_bad fuel a b wt root order_vis rank bound :
  Kruskal.forest root rank bound →
  ¬ Kruskal.endpoints_ok (Z.of_nat (length root)) (a, b, wt) →
  (bound + 2 ≤ fuel)%nat →
  Kruskal.step fuel (a, b, wt) (root, order_vis) = Raise IndexError.
Proof.
  intros Hf Hbad Hfuel. unfold Kruskal.step.
  destruct fuel as [|fuel]; [lia|].
  destruct (decide (Kruskal.index_ok (Z.of_nat (length root)) a)) as [Ha|Ha].
  - destruct (find_ok (S fuel) root rank bound a Hf Ha Hfuel)
      as (ra & root1 & Hrun1 & _ & _ & Hlen & _).
    rewrite Hrun1. simpl. rewrite find_bad; [done|].
    rewrite Hlen. intros Hb. apply Hbad. by split.
  - by rewrite find_bad.
Qed.

(** *** Counting *)

Lemma filter_length_same (P Q : Z → Prop) `{∀ x, Decision (P x)}
    `{∀ x, Decision (Q x)} (l : list Z) :
  (∀ y, y ∈ l → P y ↔ Q y) → length (filter P l) = length (filter Q l).
Proof.
  induction l as [|x l IH]; intros Hiff; [done|].
  assert (length (filter P l) = length (filter Q l)) as IH'.
  { apply IH. intros y Hy. apply Hiff. by right. }
  destruct (decide (P x)) as [HP|HP].
  - rewrite !filter_cons_True; [simpl; by rewrite IH'| |done].
    apply Hiff; [by left|done].
  - rewrite !filter_cons_False; [done| |done].
    intros HQ. apply HP, Hiff; [by left|done].
Qed.

Lemma filter_length_remove (P Q : Z → Prop) `{∀ x, Decision (P x)}
    `{∀ x, Decision (Q x)} (l : list Z) (k : Z) :
  NoDup l → k ∈ l → P k → ¬ Q k →
  (∀ y, y ∈ l → y ≠ k → P y ↔ Q y) →
  length (filter P l) = S (length (filter Q l)).
Proof.
  induction l as [|x l IH]; intros Hnd Hk HPk HQk Hiff.
  - by apply elem_of_nil in Hk.
  - apply NoDup_cons in Hnd as [Hx Hnd].
    apply elem_of_cons in Hk as [->|Hk].
    + rewrite filter_cons_True, filter_cons_False by done. simpl. f_equal.
      apply filter_length_same. intros y Hy. apply Hiff; [by right|].
      intros ->. done.
    + assert (x ≠ k) as Hxk by (intros ->; done).
      assert (length (filter P l) = S (length (filter Q l))) as IH'.
      { apply IH; auto. intros y Hy. apply Hiff. by right. }
      destruct (decide (P x)) as [HP|HP].
      * rewrite !filter_cons_True; [simpl; by rewrite IH'| |done].
        apply Hiff; [by left|done|done].
      * rewrite !filter_cons_False; [done| |done].
        intros HQ. apply HP, Hiff; [by left|done|done].
Qed.

Lemma accepted_app l1 l2 :
  Kruskal.accepted (l1 ++ l2) = (Kruskal.accepted l1 + Kruskal.accepted l2)%nat.
Proof. unfold Kruskal.accepted. by rewrite filter_app, length_app. Qed.

(** An injective relation from a duplicate-free list into another list. *)
Lemma injection_length {X} (R : X → X → Prop) (l1 l2 : list X) :
  NoDup l1 →
  (∀ x, x ∈ l1 → ∃ y, y ∈ l2 ∧ R x y) →
  (∀ x x' y, x ∈ l1 → x' ∈ l1 → R x y → R x' y → x = x') →
  (length l1 ≤ length l2)%nat.
Proof.
  revert l2. induction l1 as [|x l1 IH]; intros l2 Hnd Hmap Hinj; [simpl; lia|].
  apply NoDup_cons in Hnd as [Hx Hnd].
  destruct (Hmap x ltac:(by left)) as (y & Hy & Hxy).
  apply list_elem_of_split in Hy as (la & lb & ->).
  rewrite length_app. simpl.
  assert (length l1 ≤ length (la ++ lb))%nat; [|rewrite length_app in *; lia].
  apply IH; [done| |].
  - intros x' Hx'. destruct (Hmap x' ltac:(by right)) as (y' & Hy' & Hxy').
    exists y'. split; [|done].
    assert (y' ≠ y) as Hne.
    { intros ->. assert (x = x'); [|by subst].
      apply (Hinj x x' y); [by left|by right|done|done]. }
    apply elem_of_app in Hy' as [?|[?|?]%elem_of_cons]; [|done|];
      apply elem_of_app; auto.
  - intros x1 x2 y' H1 H2. apply Hinj; by right.
Qed.

(** *** Connectivity *)

Lemma conn_mono es es' x y :
  (∀ e, e ∈ es → e ∈ es') → Kruskal.conn es x y → Kruskal.conn es' x y.
Proof.
  intros Hsub. unfold Kruskal.conn, rtsc.
  apply rtc_subrel. intros u v [[w Hw]|[w Hw]]; [left|right]; exists w; auto.
Qed.

Lemma conn_edge es a b w : (a, b, w) ∈ es → Kruskal.conn es a b.
Proof. intros Hin. apply rtsc_lr. by exists w. Qed.

#[local] Instance conn_equiv es : Equivalence (Kruskal.conn es).
Proof. unfold Kruskal.conn. apply _. Qed.

(** All transversals of one graph have the same length. *)
Lemma transversal_length N es reps1 reps2 :
  Kruskal.transversal N es reps1 → Kruskal.transversal N es reps2 →
  length reps1 = length reps2.
Proof.
  assert (∀ l1 l2, Kruskal.transversal N es l1 → Kruskal.transversal N es l2 →
                   (length l1 ≤ length l2)%nat) as Hle.
  { intros l1 l2 [Hnd1 Hr1 Hc1 Ha1] [Hnd2 Hr2 Hc2 Ha2].
    apply (injection_length (Kruskal.conn es)); [done| |].
    - intros x Hx. apply Hc2. by apply Hr1.
    - intros x x' y Hx Hx' Hxy Hx'y. apply Ha1; [done|done|].
      etrans; [done|]. by symmetry. }
  intros H1 H2. apply Nat.le_antisymm; by apply Hle.
Qed.

Lemma complete_conn root es x y :
  Kruskal.complete root es → Kruskal.conn es x y →
  x = y ∨ ∃ r, Kruskal.rep root x r ∧ Kruskal.rep root y r.
Proof.
  intros Hc Hxy. unfold Kruskal.conn, rtsc in Hxy.
  induction Hxy as [|x z y Hxz _ IH]; [by left|]. right.
  assert (∃ r, Kruskal.rep root x r ∧ Kruskal.rep root z r) as (r & Hx & Hz).
  { destruct Hxz as [[w Hw]|[w Hw]]; destruct (Hc _ _ _ Hw) as (r & ? & ?); eauto. }
  destruct IH as [->|(r' & Hz' & Hy)]; [eauto|].
  assert (r' = r) as -> by (by apply (rep_functional root z)). eauto.
Qed.

(** The roots of a forest that is sound and complete for [es] are one node
    per connected component. *)
Lemma roots_transversal root rank bound es :
  Kruskal.forest root rank bound →
  Kruskal.sound root es → Kruskal.complete root es →
  Kruskal.transversal (Z.of_nat (length root)) es (Kruskal.roots root).
Proof.
  intros Hf Hs Hc. unfold Kruskal.roots. split.
  - apply NoDup_filter, NoDup_seqZ.
  - intros r [_ Hr]%list_elem_of_filter. apply elem_of_seqZ in Hr. lia.
  - intros x Hx. destruct (rep_total root rank bound x Hf Hx) as [r Hr].
    exists r. split; [|by apply Hs].
    destruct (rep_is_root _ _ _ Hr) as [Hr0 Hroot].
    apply list_elem_of_filter. split; [done|].
    apply elem_of_seqZ. apply lookup_lt_Some in Hroot. lia.
  - intros r r' [Hr Hin]%list_elem_of_filter [Hr' Hin']%list_elem_of_filter Hconn.
    apply elem_of_seqZ in Hin, Hin'.
    destruct (complete_conn root es r r' Hc Hconn) as [?|(s & Hs1 & Hs2)]; [done|].
    assert (s = r) as ->.
    { apply (rep_functional root r); [done|]. apply Kruskal.rep_root; [lia|done]. }
    apply (rep_functional root r'); [done|]. apply Kruskal.rep_root; [lia|done].
Qed.

(** *** One edge *)

Lemma step_sound root root' rank bound a b w added done :
  Kruskal.forest root rank bound →
  Kruskal.step_post root root' a b added →
  Kruskal.sound root done → Kruskal.complete root done →
  Kruskal.sound root' (done ++ [(a, b, w)]) ∧
  Kruskal.complete root' (done ++ [(a, b, w)]) ∧
  (length (Kruskal.roots root') + (if added then 1 else 0)
   = length (Kruskal.roots root))%nat.
Proof.
  intros Hf (Hlen & ra & rb & Hra & Hrb & Hadd & Hreps & Hroots) Hs Hc.
  assert (∀ x y, Kruskal.conn done x y → Kruskal.conn (done ++ [(a, b, w)]) x y)
    as Hmono.
  { intros x y. apply conn_mono. intros e He. apply elem_of_app. by left. }
  assert (Kruskal.conn (done ++ [(a, b, w)]) a b) as Hab.
  { apply conn_edge with w, elem_of_app. right. by left. }
  split_and!.
  - intros x r' Hx. pose proof (rep_range _ _ _ Hx) as Hxr. rewrite Hlen in Hxr.
    destruct (rep_total root rank bound x Hf Hxr) as [s Hxs].
    assert (r' = if added && bool_decide (s = ra) then rb else s) as ->.
    { apply (rep_functional root' x); [done|]. by apply Hreps. }
    pose proof (Hmono _ _ (Hs x s Hxs)) as Hconn.
    destruct added; simpl; [|done].
    destruct (decide (s = ra)) as [->|Hne].
    + rewrite bool_decide_eq_true_2 by done.
      etrans; [exact Hconn|]. etrans; [symmetry; apply Hmono, Hs, Hra|].
      etrans; [exact Hab|]. apply Hmono, Hs, Hrb.
    + by rewrite bool_decide_eq_false_2.
  - intros u v w' [Hin|[= -> -> ->]%list_elem_of_singleton]%elem_of_app.
    + destruct (Hc u v w' Hin) as (r & Hu & Hv).
      exists (if added && bool_decide (r = ra) then rb else r).
      split; by apply Hreps.
    + exists (if added then rb else ra).
      pose proof (Hreps a ra Hra) as Ha'. pose proof (Hreps b rb Hrb) as Hb'.
      rewrite bool_decide_eq_true_2, andb_true_r in Ha' by done.
      split; [done|]. destruct added; simpl in *.
      * by destruct (bool_decide (rb = ra)).
      * symmetry in Hadd. apply bool_decide_eq_false, dec_stable in Hadd.
        by subst.
  - unfold Kruskal.roots. rewrite Hlen. destruct (rep_is_root _ _ _ Hra) as [Hra0 Hraroot].
    destruct added.
    + rewrite Nat.add_1_r. symmetry.
      apply (filter_length_remove _ _ _ ra).
      * apply NoDup_seqZ.
      * apply elem_of_seqZ. apply lookup_lt_Some in Hraroot. lia.
      * done.
      * intros HQ. apply Hroots in HQ as [_ HQ]; [|done]. by apply HQ.
      * intros y Hy%elem_of_seqZ Hne. rewrite Hroots by lia. tauto.
    + rewrite Nat.add_0_r. apply filter_length_same.
      intros y Hy%elem_of_seqZ. rewrite Hroots by lia. split; [tauto|].
      intros H. split; [done|]. intros [=].
Qed.

(** *** The loop over the sorted edges *)

Lemma endpoints_in_ok N e : Kruskal.endpoints_in N e → Kruskal.endpoints_ok N e.
Proof. intros [? ?]. split; apply index_ok_nonneg; done. Qed.

Lemma kruskals_loop_sound fuel edges :
  ∀ done root order_vis rank bound,
    Kruskal.forest root rank bound →
    (bound + length edges + 2 ≤ fuel)%nat →
    Forall (Kruskal.endpoints_in (Z.of_nat (length root))) edges →
    Kruskal.sound root done → Kruskal.complete root done →
    ∃ root' ov' rank' bound',
      for_each (Kruskal.step fuel) edges (root, order_vis)
        = Done (root', order_vis ++ ov') ∧
      Kruskal.forest root' rank' bound' ∧
      length root' = length root ∧
      Kruskal.sound root' (done ++ edges) ∧
      Kruskal.complete root' (done ++ edges) ∧
      (length (Kruskal.roots root') + Kruskal.accepted ov'
       = length (Kruskal.roots root))%nat ∧
      ov'.*1 = edges.
Proof.
  induction edges as [|[[a b] w] edges IH];
    intros done root order_vis rank bound Hf Hfuel Hall Hs Hc.
  - exists root, [], rank, bound. simpl. rewrite !app_nil_r.
    split_and!; auto.
  - apply Forall_cons in Hall as [He Hall]. simpl in Hfuel.
    destruct (step_ok fuel a b w root order_vis rank bound Hf)
      as (root1 & rank1 & added & Hstep & Hf1 & Hpost);
      [by apply endpoints_in_ok|lia|].
    destruct He as [Ha Hb]. simpl in Ha, Hb.
    rewrite !norm_nonneg in Hpost by lia.
    destruct (step_sound _ _ _ _ _ _ w _ done Hf Hpost Hs Hc) as (Hs1 & Hc1 & Hcount).
    pose proof (proj1 Hpost) as Hlen1.
    destruct (IH (done ++ [(a, b, w)]) root1 (order_vis ++ [((a, b, w), added)])
                rank1 (S bound) Hf1)
      as (root' & ov' & rank' & bound' & Hrun & Hf' & Hlen' & Hs' & Hc' & Hcount' & Hfst);
      [lia|by rewrite Hlen1|done|done|].
    exists root', (((a, b, w), added) :: ov'), rank', bound'.
    cbn [for_each]. rewrite Hstep.
    rewrite <- app_assoc in Hrun, Hs', Hc'. simpl in Hrun, Hs', Hc'.
    split_and!; [done|done|congruence|done|done| |by rewrite fmap_cons, Hfst].
    change (((a, b, w), added) :: ov') with ([((a, b, w), added)] ++ ov').
    rewrite accepted_app. unfold Kruskal.accepted at 1.
    destruct added; simpl in *; lia.
Qed.

Lemma kruskals_loop_ok fuel edges :
  ∀ root order_vis rank bound,
    Kruskal.forest root rank bound →
    (bound + length edges + 2 ≤ fuel)%nat →
    Forall (Kruskal.endpoints_ok (Z.of_nat (length root))) edges →
    ∃ root' ov',
      for_each (Kruskal.step fuel) edges (root, order_vis)
        = Done (root', order_vis ++ ov') ∧
      ov'.*1 = edges.
Proof.
  induction edges as [|[[a b] w] edges IH];
    intros root order_vis rank bound Hf Hfuel Hall.
  - exists root, []. simpl. by rewrite app_nil_r.
  - apply Forall_cons in Hall as [He Hall]. simpl in Hfuel.
    destruct (step_ok fuel a b w root order_vis rank bound Hf)
      as (root1 & rank1 & added & Hstep & Hf1 & Hlen1 & _); [done|lia|].
    destruct (IH root1 (order_vis ++ [((a, b, w), added)]) rank1 (S bound) Hf1)
      as (root' & ov' & Hrun & Hfst); [lia|by rewrite Hlen1|].
    exists root', (((a, b, w), added) :: ov').
    cbn [for_each]. rewrite Hstep.
    rewrite <- app_assoc in Hrun. simpl in Hrun.
    split; [done|by rewrite fmap_cons, Hfst].
Qed.

Lemma kruskals_loop_bad fuel edges :
  ∀ root order_vis rank bound,
    Kruskal.forest root rank bound →
    (bound + length edges + 2 ≤ fuel)%nat →
    ¬ Forall (Kruskal.endpoints_ok (Z.of_nat (length root))) edges →
    for_each (Kruskal.step fuel) edges (root, order_vis) = Raise IndexError.
Proof.
  induction edges as [|[[a b] w] edges IH];
    intros root order_vis rank bound Hf Hfuel Hbad.
  - destruct Hbad. constructor.
  - simpl in Hfuel. cbn [for_each].
    destruct (decide (Kruskal.endpoints_ok (Z.of_nat (length root)) (a, b, w)))
      as [He|He].
    + destruct (step_ok fuel a b w root order_vis rank bound Hf)
        as (root1 & rank1 & added & Hstep & Hf1 & Hlen1 & _); [done|lia|].
      rewrite Hstep. apply (IH _ _ rank1 (S bound)); [done|lia|].
      rewrite Hlen1. intros Hall. apply Hbad. by constructor.
    + rewrite (step_bad fuel a b w root order_vis rank bound); [done|done|done|lia].
Qed.

(** *** The initial forest *)

Lemma root0_lookup N x p : 0 ≤ x → seqZ 0 N !! Z.to_nat x = Some p → p = x ∧ x < N.
Proof. intros Hx [-> Hlt]%lookup_seqZ. lia. Qed.

Lemma forest0 N : Kruskal.forest (seqZ 0 N) (λ _, 0%nat) 0.
Proof.
  split; [| |done].
  - intros x p Hx Hp. apply root0_lookup in Hp as [-> Hlt]; [|done].
    rewrite length_seqZ. lia.
  - intros x p Hx Hp Hne. apply root0_lookup in Hp as [-> Hlt]; done.
Qed.

Lemma sound0 N : Kruskal.sound (seqZ 0 N) [].
Proof.
  intros x r Hr. inversion Hr as [|? p ? Hx Hp Hne Hpr]; subst; [done|].
  apply root0_lookup in Hp as [-> _]; done.
Qed.

Lemma complete0 N : Kruskal.complete (seqZ 0 N) [].
Proof. intros a b w Hin. by apply elem_of_nil in Hin. Qed.

Lemma filter_all (P : Z → Prop) `{∀ x, Decision (P x)} (l : list Z) :
  (∀ x, x ∈ l → P x) → filter P l = l.
Proof.
  induction l as [|x l IH]; intros Hall; [done|].
  rewrite filter_cons_True by (apply Hall; by left).
  f_equal. apply IH. intros y Hy. apply Hall. by right.
Qed.

Lemma roots0 N : Kruskal.roots (seqZ 0 N) = seqZ 0 N.
Proof.
  unfold Kruskal.roots. rewrite length_seqZ.
  assert (seqZ 0 (Z.of_nat (Z.to_nat N)) = seqZ 0 N) as ->.
  { unfold seqZ. f_equal. f_equal. lia. }
  apply filter_all. intros x Hx%elem_of_seqZ.
  apply lookup_seqZ. split; lia.
Qed.

Lemma index_ok_to_nat N x :
  Kruskal.index_ok (Z.of_nat (Z.to_nat N)) x ↔ Kruskal.index_ok N x.
Proof. unfold Kruskal.index_ok. lia. Qed.

Lemma endpoints_ok_to_nat N edges :
  Forall (Kruskal.endpoints_ok (Z.of_nat (Z.to_nat N))) edges
  ↔ Forall (Kruskal.endpoints_ok N) edges.
Proof.
  apply Forall_proper; [|done]. intros e. unfold Kruskal.endpoints_ok.
  by rewrite !index_ok_to_nat.
Qed.

(** *** The claims about [kruskals] *)

Lemma kruskals_unfold {A} fuel (G : A) N edges :
  (Kruskal.kruskals fuel G N edges).1
  = snd <$> for_each (Kruskal.step fuel) (Kruskal.sort_by_weight edges)
              (seqZ 0 N, []).
Proof. reflexivity. Qed.

Lemma sort_by_weight_length edges :
  length (Kruskal.sort_by_weight edges) = length edges.
Proof. by rewrite sort_by_weight_perm. Qed.

(** *** Fuel *)

Lemma find_fuel_mono fuel fuel' x root r :
  Kruskal.find fuel x root = Done r → (fuel ≤ fuel')%nat →
  Kruskal.find fuel' x root = Done r.
Proof.
  revert fuel' x root r. induction fuel as [|fuel IH]; intros fuel' x root r Hrun Hle;
    [done|].
  destruct fuel' as [|fuel']; [lia|]. rewrite find_unfold in Hrun |- *.
  destruct (Kruskal.get root x) as [rx| |]; simpl in *; [|done|done].
  destruct (decide (rx = x)); [done|].
  destruct (Kruskal.find fuel rx root) as [[r1 root1]| |] eqn:Hrec; [|done|done].
  rewrite (IH fuel' rx root (r1, root1) Hrec ltac:(lia)). done.
Qed.

Lemma join_fuel_mono fuel fuel' a b root r :
  Kruskal.join fuel a b root = Done r → (fuel ≤ fuel')%nat →
  Kruskal.join fuel' a b root = Done r.
Proof.
  unfold Kruskal.join. intros Hrun Hle.
  destruct (Kruskal.find fuel b root) as [[fb root1]| |] eqn:Hb; [|done|done].
  rewrite (find_fuel_mono _ _ _ _ _ Hb Hle). simpl in *.
  destruct (Kruskal.get root1 fb) as [v| |]; simpl in *; [|done|done].
  destruct (Kruskal.find fuel a root1) as [[fa root2]| |] eqn:Ha; [|done|done].
  by rewrite (find_fuel_mono _ _ _ _ _ Ha Hle).
Qed.

Lemma step_fuel_mono fuel fuel' e st st' :
  Kruskal.step fuel e st = Done st' → (fuel ≤ fuel')%nat →
  Kruskal.step fuel' e st = Done st'.
Proof.
  destruct st as [root order_vis], e as [[a b] w]. unfold Kruskal.step.
  intros Hrun Hle.
  destruct (Kruskal.find fuel a root) as [[fa root1]| |] eqn:Ha; [|done|done].
  rewrite (find_fuel_mono _ _ _ _ _ Ha Hle). simpl in *.
  destruct (Kruskal.find fuel b root1) as [[fb root2]| |] eqn:Hb; [|done|done].
  rewrite (find_fuel_mono _ _ _ _ _ Hb Hle). simpl in *.
  destruct (decide (fa ≠ fb)); [|done].
  destruct (Kruskal.join fuel a b root2) as [root3| |] eqn:Hj; [|done|done].
  by rewrite (join_fuel_mono _ _ _ _ _ _ Hj Hle).
Qed.

Lemma kruskals_fuel_mono {A} fuel fuel' (G : A) N edges trace :
  (Kruskal.kruskals fuel G N edges).1 = Done trace → (fuel ≤ fuel')%nat →
  (Kruskal.kruskals fuel' G N edges).1 = Done trace.
Proof.
  rewrite !kruskals_unfold. intros Hrun Hle.
  destruct (for_each _ _ _) as [st| |] eqn:Hloop; [|done|done].
  rewrite (for_each_mono (Kruskal.step fuel) (Kruskal.step fuel') _ _ st); [done| |done].
  intros x t t' Hx. by apply step_fuel_mono with fuel.
Qed.

(** With endpoints that index [root], the run returns one event per edge,
    in sorted order. *)
Lemma kruskals_done {A} (G : A) N edges fuel :
  Forall (Kruskal.endpoints_ok N) edges → (length edges + 2 ≤ fuel)%nat →
  ∃ trace,
    (Kruskal.kruskals fuel G N edges).1 = Done trace ∧
    trace.*1 = Kruskal.sort_by_weight edges.
Proof.
  intros Hall Hfuel. rewrite kruskals_unfold.
  destruct (kruskals_loop_ok fuel (Kruskal.sort_by_weight edges) (seqZ 0 N) []
              (λ _, 0%nat) 0%nat (forest0 N))
    as (root' & ov' & Hrun & Hfst).
  - rewrite sort_by_weight_length. lia.
  - rewrite length_seqZ, sort_by_weight_perm. by apply endpoints_ok_to_nat.
  - rewrite Hrun. by exists ov'.
Qed.

(** With an endpoint outside the index range, the run raises [IndexError]. *)
Lemma kruskals_raises {A} (G : A) N edges fuel :
  ¬ Forall (Kruskal.endpoints_ok N) edges → (length edges + 2 ≤ fuel)%nat →
  (Kruskal.kruskals fuel G N edges).1 = Raise IndexError.
Proof.
  intros Hbad Hfuel. rewrite kruskals_unfold.
  rewrite (kruskals_loop_bad fuel _ _ _ (λ _, 0%nat) 0%nat (forest0 N)); [done| |].
  - rewrite sort_by_weight_length. lia.
  - rewrite length_seqZ, sort_by_weight_perm. by rewrite endpoints_ok_to_nat.
Qed.

(** C3. For a node count [N] and edges between nodes [0 .. N-1], [kruskals]
    returns a trace whose number of accepted edges is [N] minus the number
    of connected components of the graph (which exists: the roots of the
    final forest are one node per component). *)
Theorem kruskals_edge_count {A} (G : A) (N : Z) (edges : list Kruskal.edge_t) :
  0 ≤ N → Forall (Kruskal.endpoints_in N) edges →
  ∃ fuel trace,
    (∀ fuel', (fuel ≤ fuel')%nat →
       (Kruskal.kruskals fuel' G N edges).1 = Done trace) ∧
    (∃ k, Kruskal.components N edges k) ∧
    (∀ k, Kruskal.components N edges k →
       Z.of_nat (Kruskal.accepted trace) = N - Z.of_nat k).
Proof.
  intros HN Hall. set (fuel := (length edges + 2)%nat).
  set (sorted := Kruskal.sort_by_weight edges).
  assert (Forall (Kruskal.endpoints_in (Z.of_nat (length (seqZ 0 N)))) sorted) as Hall'.
  { rewrite length_seqZ, Z2Nat.id by done. unfold sorted.
    by rewrite sort_by_weight_perm. }
  destruct (kruskals_loop_sound fuel sorted [] (seqZ 0 N) [] (λ _, 0%nat) 0%nat
              (forest0 N)) as (root' & trace & rank' & bound' & Hrun & Hf' & Hlen'
                               & Hs' & Hc' & Hcount & Hfst).
  { unfold sorted, fuel. rewrite sort_by_weight_length. lia. }
  { done. }
  { apply sound0. }
  { apply complete0. }
  simpl in Hrun, Hs', Hc'.
  rewrite roots0, length_seqZ in Hcount. rewrite length_seqZ in Hlen'.
  assert (Kruskal.transversal N edges (Kruskal.roots root')) as Htr.
  { pose proof (roots_transversal root' rank' bound' sorted Hf' Hs' Hc') as Htr.
    rewrite Hlen', Z2Nat.id in Htr by done.
    destruct Htr as [Hnd Hrange Hcover Hapart]. split; [done|done| |].
    - intros x Hx. destruct (Hcover x Hx) as (r & Hr & Hconn).
      exists r. split; [done|]. eapply conn_mono; [|done].
      intros e. unfold sorted. by rewrite sort_by_weight_perm.
    - intros r r' Hr Hr' Hconn. apply Hapart; [done|done|].
      eapply conn_mono; [|done].
      intros e. unfold sorted. by rewrite sort_by_weight_perm. }
  exists fuel, trace. split_and!.
  - intros fuel' Hle. apply kruskals_fuel_mono with fuel; [|done].
    rewrite kruskals_unfold. fold sorted. by rewrite Hrun.
  - exists (length (Kruskal.roots root')), (Kruskal.roots root'). done.
  - intros k (reps & Hreps & <-).
    rewrite (transversal_length N edges reps (Kruskal.roots root') Hreps Htr). lia.
Qed.

Lemma kruskals_edge_count_witness :
  ∃ fuel trace,
    (∀ fuel', (fuel ≤ fuel')%nat →
       (Kruskal.kruskals fuel' () 4 Kruskal.scenario_edges).1 = Done trace) ∧
    (∃ k, Kruskal.components 4 Kruskal.scenario_edges k) ∧
    (∀ k, Kruskal.components 4 Kruskal.scenario_edges k →
       Z.of_nat (Kruskal.accepted trace) = 4 - Z.of_nat k).
Proof.
  apply (kruskals_edge_count () 4 Kruskal.scenario_edges).
  - lia.
  - repeat constructor; simpl; lia.
Defined.

(** C7 (amended). [kruskals] completes exactly when every endpoint indexes
    the list [root] of [N] elements, that is, lies in [-N .. N-1] (Python
    counts a negative index from the end); it then returns one accept/reject
    event per input edge, in sorted order, whether or not the graph is
    connected. With an endpoint outside that range it raises [IndexError]. *)
Theorem kruskals_completes {A} (G : A) (N : Z) (edges : list Kruskal.edge_t) :
  ∃ fuel, ∀ fuel', (fuel ≤ fuel')%nat →
    (Forall (Kruskal.endpoints_ok N) edges →
     ∃ trace,
       (Kruskal.kruskals fuel' G N edges).1 = Done trace ∧
       trace.*1 = Kruskal.sort_by_weight edges ∧
       length trace = length edges) ∧
    (¬ Forall (Kruskal.endpoints_ok N) edges →
     (Kruskal.kruskals fuel' G N edges).1 = Raise IndexError).
Proof.
  exists (length edges + 2)%nat. intros fuel' Hle. split.
  - intros Hall. destruct (kruskals_done G N edges fuel' Hall Hle) as (trace & Hrun & Hfst).
    exists trace. split_and!; [done|done|].
    by rewrite <- (length_fmap fst), Hfst, sort_by_weight_length.
  - intros Hbad. by apply kruskals_raises.
Qed.

(** C7, counterexample. Two nodes named 0 and 5 (unique, with a gap) and the
    edge between them: no run of [kruskals] with [N = 2] completes, the
    lookup [root[5]] raises [IndexError]. *)
Lemma kruskals_gap_counterexample :
  NoDup [0; 5] ∧
  (∀ fuel trace, (Kruskal.kruskals fuel () 2 [(0, 5, 1)]).1 ≠ Done trace) ∧
  (Kruskal.kruskals 1 () 2 [(0, 5, 1)]).1 = Raise IndexError.
Proof.
  split_and!.
  - apply NoDup_cons. split; [|apply NoDup_singleton].
    intros [=]%list_elem_of_singleton.
  - intros fuel trace Hrun.
    apply (kruskals_fuel_mono _ (fuel `max` 3)) in Hrun; [|lia].
    rewrite kruskals_raises in Hrun; [done| |simpl; lia].
    intros Hall. apply Forall_cons in Hall as [[_ Hb] _].
    unfold Kruskal.index_ok in Hb. simpl in Hb. lia.
  - vm_compute. reflexivity.
Qed.

(** C10. The trace of [kruskals], and the edge list it leaves behind, do
    not depend on the value passed as [G]. *)
Theorem kruskals_ignores_graph {A B} (G1 : A) (G2 : B) (fuel : nat) (N : Z)
    (edge_weights_labels : list Kruskal.edge_t) :
  Kruskal.kruskals fuel G1 N edge_weights_labels
  = Kruskal.kruskals fuel G2 N edge_weights_labels.
Proof. reflexivity. Qed.

(** ** Depth-first search *)

Example dfs_scenario :
  (DFS.dfs_path 5 scenario 0 ≫= λ r, Done r.1)
  = Done (Some [0; 1; 2; 3; 2; 1; 0]).
Proof. vm_compute. reflexivity. Qed.

#[local] Arguments DFS.dfs : simpl never.

Lemma dfs_unfold fuel g current parent st :
  DFS.dfs (S fuel) g current parent st =
  if decide (current ∈ DFS.visited st) then Done (None, st)
  else
    let st1 := {| DFS.visited := DFS.visited st ++ [current];
                  DFS.path := DFS.path st ++ [current] |} in
    match g !! current with
    | None => Raise (KeyError current)
    | Some adjs =>
        st2 ← for_each
                 (λ adj s, snd <$> DFS.dfs fuel g adj.2 current s) adjs st1;
        let st3 := if decide (parent ≠ -1) then DFS.append_path parent st2
                   else st2 in
        Done (Some (DFS.path st3), st3)
    end.
Proof. reflexivity. Qed.

Lemma dfs_fuel_mono fuel fuel' g current parent st r :
  DFS.dfs fuel g current parent st = Done r → (fuel ≤ fuel')%nat →
  DFS.dfs fuel' g current parent st = Done r.
Proof.
  revert fuel' current parent st r.
  induction fuel as [|fuel IH]; intros fuel' current parent st r Hrun Hle; [done|].
  destruct fuel' as [|fuel']; [lia|]. rewrite dfs_unfold in Hrun |- *.
  destruct (decide (current ∈ DFS.visited st)); [done|].
  destruct (g !! current) as [adjs|]; [|done]. simpl in *.
  destruct (for_each _ adjs _) as [st2| |] eqn:Hloop; [|done|done].
  rewrite (for_each_mono
             (λ adj s, snd <$> DFS.dfs fuel g adj.2 current s)
             (λ adj s, snd <$> DFS.dfs fuel' g adj.2 current s) _ _ st2);
    [done| |done].
  intros adj t t' Hx.
  destruct (DFS.dfs fuel g adj.2 current t) as [r'| |] eqn:Hcall; [|done|done].
  rewrite (IH fuel' _ _ _ _ Hcall ltac:(lia)). done.
Qed.

(** *** The shape of the path *)

Lemma backtracked_app g path rest v :
  DFS.backtracked g path v → DFS.backtracked g (path ++ rest) v.
Proof.
  intros (pre & p & body & post & -> & Hpre & Hlast & Hedge & Hkids).
  exists pre, p, body, (post ++ rest). split; [|done].
  by rewrite <- !app_assoc.
Qed.

Lemma children_app g c b1 b2 :
  DFS.children g c b1 → DFS.children g c b2 → DFS.children g c (b1 ++ b2).
Proof.
  intros H1 H2. induction H1 as [|c c' l body Hedge Hsub _ IH]; [done|].
  rewrite <- app_assoc. apply DFS.children_cons with c'; auto.
Qed.

Section dfs_run.
Variable g : graph.
Hypothesis Hclosed : closed g.
Hypothesis Hno_minus_one : g !! (-1) = None.

(** What a run of the loop over the neighbours [adjs] of [c] does, given
    what a call of [dfs] with [fuel] does ([Hcall]). *)
Lemma dfs_loop_spec fuel c :
  (∀ a st,
     DFS.inv g st → a ∉ DFS.visited st → is_Some (g !! a) →
     c ∈ DFS.visited st → last (DFS.path st) = Some c → edge g c a →
     (size g - length (DFS.visited st) < fuel)%nat →
     ∃ st' body newv,
       DFS.dfs fuel g a c st = Done (Some (DFS.path st'), st') ∧
       DFS.path st' = DFS.path st ++ a :: body ++ [c] ∧
       DFS.children g a body ∧
       DFS.visited st' = DFS.visited st ++ a :: newv ∧
       DFS.inv g st' ∧
       (∀ v, v ∈ a :: newv → DFS.backtracked g (DFS.path st') v)) →
  ∀ adjs st,
    DFS.inv g st → c ∈ DFS.visited st → last (DFS.path st) = Some c →
    (∀ e, e ∈ adjs → edge g c e.2) →
    (size g - length (DFS.visited st) < fuel)%nat → (1 ≤ fuel)%nat →
    ∃ st' body newv,
      for_each (λ (adj : Z * Z) s, snd <$> DFS.dfs fuel g adj.2 c s) adjs st
        = Done st' ∧
      DFS.path st' = DFS.path st ++ body ∧
      DFS.children g c body ∧
      DFS.visited st' = DFS.visited st ++ newv ∧
      DFS.inv g st' ∧
      last (DFS.path st') = Some c ∧
      (∀ v, v ∈ newv → DFS.backtracked g (DFS.path st') v).
Proof.
  intros Hcall. induction adjs as [|[w a] adjs IH];
    intros st Hinv Hc Hlast Hadj Hfuel Hpos.
  - exists st, [], []. simpl. rewrite !app_nil_r. split_and!; auto.
    + constructor.
    + intros v Hv. by apply elem_of_nil in Hv.
  - assert (edge g c a) as Hedge by (apply (Hadj (w, a)); by left).
    assert (∀ e, e ∈ adjs → edge g c e.2) as Hadj'.
    { intros e He. apply Hadj. by right. }
    cbn [for_each]. simpl.
    destruct (decide (a ∈ DFS.visited st)) as [Hvis|Hnew].
    + destruct fuel as [|fuel]; [lia|].
      rewrite dfs_unfold, decide_True by done. simpl.
      apply IH; auto.
    + destruct (Hcall a st Hinv Hnew (Hclosed c a Hedge) Hc Hlast Hedge Hfuel)
        as (st1 & body1 & new1 & Hrun1 & Hpath1 & Hkids1 & Hvis1 & Hinv1 & Hback1).
      rewrite Hrun1. simpl.
      destruct (IH st1) as (st' & body & newv & Hrun & Hpath & Hkids & Hvis & Hinv' & Hlast' & Hback);
        auto.
      { rewrite Hvis1. apply elem_of_app. by left. }
      { rewrite Hpath1, app_comm_cons, (assoc_L (++)). apply last_snoc. }
      { rewrite Hvis1, length_app. simpl. lia. }
      exists st', ((a :: body1 ++ [c]) ++ body), ((a :: new1) ++ newv).
      split_and!; auto.
      * rewrite Hpath, Hpath1. by rewrite <- !app_assoc.
      * apply DFS.children_cons with a; [done| |done]. by constructor.
      * rewrite Hvis, Hvis1. by rewrite <- !app_assoc.
      * intros v [Hv|Hv]%elem_of_app; [|by apply Hback].
        rewrite Hpath. apply backtracked_app. by apply Hback1.
Qed.

(** What a call on a node [c] that is not yet visited does. *)
Lemma dfs_call_spec fuel :
  ∀ c p st,
    DFS.inv g st → c ∉ DFS.visited st → is_Some (g !! c) →
    (p ≠ -1 → p ∈ DFS.visited st) →
    (size g - length (DFS.visited st) < fuel)%nat →
    ∃ st' body newv,
      DFS.dfs fuel g c p st = Done (Some (DFS.path st'), st') ∧
      DFS.path st'
        = DFS.path st ++ c :: body ++ (if decide (p ≠ -1) then [p] else []) ∧
      DFS.children g c body ∧
      DFS.visited st' = DFS.visited st ++ c :: newv ∧
      DFS.inv g st' ∧
      (∀ v, v ∈ newv → DFS.backtracked g (DFS.path st') v) ∧
      (p ≠ -1 → last (DFS.path st) = Some p → edge g p c →
       DFS.backtracked g (DFS.path st') c).
Proof.
  induction fuel as [|fuel IH]; intros c p st Hinv Hnew Hc Hp Hfuel; [lia|].
  destruct Hc as [adjs Hadjs].
  assert (c ≠ -1) as Hc1 by (intros ->; congruence).
  set (st1 := {| DFS.visited := DFS.visited st ++ [c];
                 DFS.path := DFS.path st ++ [c] |}).
  assert (DFS.inv g st1) as Hinv1.
  { destruct Hinv as [Hpath Hkeys Hnd]. split; simpl.
    - intros x [Hx| ->%list_elem_of_singleton]%elem_of_app; apply elem_of_app;
        [left; auto|right; by left].
    - intros x [Hx| ->%list_elem_of_singleton]%elem_of_app; [auto|eauto].
    - apply NoDup_app. split_and!; [done| |apply NoDup_singleton].
      intros x Hx ->%list_elem_of_singleton. done. }
  assert (length (DFS.visited st1) ≤ size g)%nat as Hsize.
  { apply NoDup_keys_length; [apply Hinv1|]. apply (DFS.inv_keys _ _ Hinv1). }
  simpl in Hsize. rewrite length_app in Hsize. simpl in Hsize.
  destruct (dfs_loop_spec fuel c) with (adjs := adjs) (st := st1)
    as (st2 & body & newv & Hrun & Hpath2 & Hkids & Hvis2 & Hinv2 & Hlast2 & Hback2).
  { intros a st' Hinv' Ha Hag Hcv Hlast Hedge Hfuel'.
    destruct (IH a c st' Hinv' Ha Hag ltac:(done) Hfuel')
      as (st'' & body' & new' & Hrun' & Hpath' & Hkids' & Hvis' & Hinv'' & Hb1 & Hb2).
    rewrite decide_True in Hpath' by done.
    exists st'', body', new'. split_and!; auto.
    intros v [->|Hv]%elem_of_cons; auto. }
  { done. }
  { simpl. apply elem_of_app. right. by left. }
  { simpl. apply last_snoc. }
  { intros e He. destruct e as [w a]. by exists adjs, w. }
  { simpl. rewrite length_app. simpl. lia. }
  { lia. }
  rewrite dfs_unfold, decide_False by done. rewrite Hadjs. fold st1.
  cbv zeta. rewrite Hrun. simpl.
  simpl in Hpath2, Hvis2.
  destruct (decide (p ≠ -1)) as [Hp1|Hp1].
  - exists (DFS.append_path p st2), body, newv. simpl.
    split_and!; auto.
    + rewrite Hpath2. by rewrite <- !app_assoc.
    + rewrite Hvis2. by rewrite <- app_assoc.
    + destruct Hinv2 as [Hpath Hkeys Hnd]. split; simpl; auto.
      intros x [Hx| ->%list_elem_of_singleton]%elem_of_app; [auto|].
      rewrite Hvis2. apply elem_of_app. left. apply elem_of_app. left. auto.
    + intros v Hv. apply backtracked_app. auto.
    + intros _ Hlast Hedge.
      exists (DFS.path st), p, body, []. rewrite app_nil_r.
      split_and!; auto.
      * rewrite Hpath2. by rewrite <- !app_assoc.
      * intros Hin. apply Hnew. by apply (DFS.inv_path _ _ Hinv).
  - exists st2, body, newv. split_and!; auto.
    + rewrite Hpath2, app_nil_r. by rewrite <- app_assoc.
    + rewrite Hvis2. by rewrite <- app_assoc.
    + intros Hcontra. done.
Qed.
End dfs_run.

(** *** The claim about [dfs] *)

(** C4 (amended). On a closed graph in which no node is named [-1], and for
    a start node of the graph, [dfs] returns the path; the path is the start
    node followed by the completed visits of its neighbours, with no
    backtrack marker of the root after them; and for every other node of the
    path, its first appearance comes right after its parent [p] and is
    followed by the entries of its subtree and then, immediately, by [p]. *)
Theorem dfs_backtrack (g : graph) (start : Z) :
  closed g → is_Some (g !! start) → g !! (-1) = None →
  ∃ fuel path st,
    (∀ fuel', (fuel ≤ fuel')%nat →
       DFS.dfs_path fuel' g start = Done (Some path, st)) ∧
    DFS.path st = path ∧
    (∃ body, path = start :: body ∧ DFS.children g start body) ∧
    (∀ v, v ∈ path → v ≠ start → DFS.backtracked g path v).
Proof.
  intros Hc Hs Hm.
  destruct (dfs_call_spec g Hc Hm (S (size g)) start (-1) (DFS.State [] []))
    as (st & body & newv & Hrun & Hpath & Hkids & Hvis & Hinv & Hback & _).
  { split; simpl.
    - intros x Hx. by apply elem_of_nil in Hx.
    - intros x Hx. by apply elem_of_nil in Hx.
    - constructor. }
  { simpl. intros Hx. by apply elem_of_nil in Hx. }
  { done. }
  { intros H. done. }
  { simpl. lia. }
  rewrite decide_False in Hpath by (intros H; done).
  simpl in Hpath, Hvis. rewrite app_nil_r in Hpath.
  exists (S (size g)), (DFS.path st), st. split_and!.
  - intros fuel' Hle. unfold DFS.dfs_path. by apply dfs_fuel_mono with (S (size g)).
  - done.
  - exists body. by rewrite Hpath.
  - intros v Hv Hne. apply Hback.
    apply (DFS.inv_path _ _ Hinv) in Hv. rewrite Hvis in Hv.
    by apply elem_of_cons in Hv as [->|Hv].
Qed.

Lemma dfs_backtrack_witness :
  ∃ fuel path st,
    (∀ fuel', (fuel ≤ fuel')%nat →
       DFS.dfs_path fuel' scenario 0 = Done (Some path, st)) ∧
    DFS.path st = path ∧
    (∃ body, path = 0 :: body ∧ DFS.children scenario 0 body) ∧
    (∀ v, v ∈ path → v ≠ 0 → DFS.backtracked scenario path v).
Proof.
  apply (dfs_backtrack scenario 0).
  - graph_check.
  - vm_compute. eauto.
  - vm_compute. reflexivity.
Defined.

(** C4, counterexample. In the undirected graph 5 - (-1) - 7, started at 5,
    node 7 is visited from its parent [-1]; since that parent equals the
    "no parent" value, no backtrack marker follows: the path is
    [5; -1; 7; 5], and [-1] does not appear after 7. *)
Lemma dfs_minus_one_counterexample :
  closed DFS.minus_one ∧ symmetric DFS.minus_one ∧
  is_Some (DFS.minus_one !! 5) ∧
  (∃ st, DFS.dfs_path 4 DFS.minus_one 5 = Done (Some [5; -1; 7; 5], st)) ∧
  (∀ fuel path st,
     DFS.dfs_path fuel DFS.minus_one 5 = Done (Some path, st) →
     path = [5; -1; 7; 5] ∧ 7 ∈ path ∧ 7 ≠ 5 ∧
     (∀ pre post, path = pre ++ 7 :: post → 7 ∉ pre →
        last pre = Some (-1) ∧ edge DFS.minus_one (-1) 7 ∧ -1 ∉ post) ∧
     ¬ DFS.backtracked DFS.minus_one path 7).
Proof.
  assert (∀ pre post : list Z, [5; -1; 7; 5] = pre ++ 7 :: post → 7 ∉ pre →
            pre = [5; -1] ∧ post = [5]) as Hsplit.
  { intros pre post Heq Hpre.
    destruct pre as [|x1 [|x2 [|x3 pre]]]; simpl in Heq; simplify_eq; [done|].
    destruct Hpre. right. right. by left. }
  split_and!.
  - graph_check.
  - graph_check.
  - vm_compute. eauto.
  - eexists. vm_compute. reflexivity.
  - intros fuel path st Hrun.
    assert (DFS.dfs_path (fuel `max` 4) DFS.minus_one 5 = Done (Some path, st)) as H1.
    { unfold DFS.dfs_path. apply dfs_fuel_mono with fuel; [done|lia]. }
    assert (∃ st', DFS.dfs_path 4 DFS.minus_one 5 = Done (Some [5; -1; 7; 5], st'))
      as [st' H2] by (eexists; vm_compute; reflexivity).
    assert (DFS.dfs_path (fuel `max` 4) DFS.minus_one 5
            = Done (Some [5; -1; 7; 5], st')) as H3.
    { unfold DFS.dfs_path. apply dfs_fuel_mono with 4%nat; [done|lia]. }
    rewrite H1 in H3. injection H3 as -> _.
    split_and!.
    + done.
    + right. right. by left.
    + done.
    + intros pre post Heq Hpre. destruct (Hsplit pre post Heq Hpre) as [-> ->].
      split_and!; [done| |].
      * eexists _, 1. split; [vm_compute; reflexivity|]. right. by left.
      * intros [=]%list_elem_of_singleton.
    + intros (pre & p & body & post & Heq & Hpre & Hlast & _).
      destruct (Hsplit pre ((body ++ [p]) ++ post) Heq Hpre) as [-> Hpost].
      simpl in Hlast. injection Hlast as <-.
      assert (-1 ∈ [5]) as [=]%list_elem_of_singleton.
      rewrite <- Hpost, <- app_assoc. apply elem_of_app. right. by left.
Qed.

(** ** What the engines leave behind *)

(** The sort is stable: the edges of any one weight keep their order. *)
Lemma insert_by_weight_stable k e l :
  filter (λ x, Kruskal.weight x = k) (Kruskal.insert_by_weight e l)
  = filter (λ x, Kruskal.weight x = k) (e :: l).
Proof.
  induction l as [|x l IH]; simpl; [done|].
  destruct (decide (Kruskal.weight e ≤ Kruskal.weight x)) as [Hle|Hgt]; [done|].
  destruct (decide (Kruskal.weight x = k)) as [Hx|Hx].
  - rewrite (filter_cons_True _ x) by done. rewrite IH.
    rewrite (filter_cons_False _ e) by lia.
    rewrite (filter_cons_False _ e) by lia.
    by rewrite filter_cons_True.
  - rewrite (filter_cons_False _ x) by done. rewrite IH.
    destruct (decide (Kruskal.weight e = k)) as [He|He].
    + rewrite !(filter_cons_True _ e) by done. by rewrite filter_cons_False.
    + rewrite !(filter_cons_False _ e) by done. by rewrite filter_cons_False.
Qed.

Lemma sort_by_weight_stable k l :
  filter (λ x, Kruskal.weight x = k) (Kruskal.sort_by_weight l)
  = filter (λ x, Kruskal.weight x = k) l.
Proof.
  induction l as [|e l IH]; simpl; [done|].
  rewrite insert_by_weight_stable.
  destruct (decide (Kruskal.weight e = k)) as [He|He].
  - rewrite !(filter_cons_True _ e) by done. by rewrite IH.
  - rewrite !(filter_cons_False _ e) by done. by rewrite IH.
Qed.

(** C5 (amended). [bfs], [dfs] and [dijk] leave the adjacency mapping and
    the edge list as they were. [kruskals] leaves the adjacency mapping as
    it was and sorts the edge list in place: afterwards the list holds the
    same edges in ascending order of weight, edges of equal weight in their
    former order; it is unchanged when it was already in that order. *)
Theorem engines_frame (fuel : nat) (c : Engine.call) (w : Engine.world) :
  let w' := (Engine.run fuel c w).2 in
  Engine.adj_list w' = Engine.adj_list w ∧
  (match c with
   | Engine.Kruskals _ =>
       Engine.edge_weights_labels w'
         = Kruskal.sort_by_weight (Engine.edge_weights_labels w) ∧
       Engine.edge_weights_labels w' ≡ₚ Engine.edge_weights_labels w ∧
       Sorted (λ x y, Kruskal.weight x ≤ Kruskal.weight y)
         (Engine.edge_weights_labels w') ∧
       (∀ k, filter (λ x, Kruskal.weight x = k) (Engine.edge_weights_labels w')
             = filter (λ x, Kruskal.weight x = k) (Engine.edge_weights_labels w)) ∧
       (Sorted (λ x y, Kruskal.weight x ≤ Kruskal.weight y)
          (Engine.edge_weights_labels w) → w' = w)
   | _ => w' = w
   end).
Proof.
  destruct c; simpl; try done. split; [done|]. split_and!.
  - done.
  - apply sort_by_weight_perm.
  - apply sort_by_weight_sorted.
  - intros k. apply sort_by_weight_stable.
  - intros Hs. rewrite sort_by_weight_id by done. by destruct w.
Qed.

(** C5, counterexample. A run of [kruskals] on the edge list of the spec's
    scenario leaves the list in another order. *)
Lemma kruskals_reorders_counterexample :
  (∀ fuel,
     Engine.edge_weights_labels
       (Engine.run fuel (Engine.Kruskals 4) Engine.scenario_world).2
     = [(2, 3, 1); (1, 2, 3); (0, 1, 5); (0, 3, 10)]) ∧
  [(2, 3, 1); (1, 2, 3); (0, 1, 5); (0, 3, 10)]
  ≠ Engine.edge_weights_labels Engine.scenario_world.
Proof. split; [intros fuel; reflexivity|]. intros [=]. Qed.

(** * Further properties *)

(** ** [find] and [join] *)

#[local] Arguments Kruskal.find : simpl never.

Lemma on_path_root root x y :
  0 ≤ x → root !! Z.to_nat x = Some x → DisjointSet.on_path root x y → y = x.
Proof.
  intros Hx Hroot Hy. inversion Hy as [|? p ? _ Hp Hpx _]; simplify_eq; done.
Qed.

Lemma on_path_next root x p y :
  0 ≤ x → root !! Z.to_nat x = Some p → DisjointSet.on_path root x y →
  y = x ∨ DisjointSet.on_path root p y.
Proof.
  intros Hx Hp Hy. inversion Hy as [|? p' ? _ Hp' Hpx Hrest]; simplify_eq; auto.
Qed.

Lemma on_path_range root rank bound x y :
  Kruskal.forest root rank bound → 0 ≤ x < Z.of_nat (length root) →
  DisjointSet.on_path root x y → 0 ≤ y < Z.of_nat (length root).
Proof.
  intros Hf Hx Hy. induction Hy as [|x p y Hx0 Hp Hne _ IH]; [done|].
  apply IH. by apply (Kruskal.fo_range _ _ _ Hf x p).
Qed.

(** [find] on an index in [0 .. len-1]: every node met on the way ends up
    pointing at the root. *)
Lemma find_path_nonneg fuel root rank bound x :
  Kruskal.forest root rank bound → 0 ≤ x < Z.of_nat (length root) →
  (bound - rank x < fuel)%nat →
  ∃ r root',
    Kruskal.find fuel x root = Done (r, root') ∧
    length root' = length root ∧
    DisjointSet.on_path root x r ∧
    (∀ y, DisjointSet.on_path root x y → root' !! Z.to_nat y = Some r) ∧
    (∀ y, 0 ≤ y → ¬ DisjointSet.on_path root x y →
          root' !! Z.to_nat y = root !! Z.to_nat y).
Proof.
  intros Hf. revert x. induction fuel as [|fuel IH]; intros x Hx Hfuel; [lia|].
  destruct (lookup_lt_is_Some_2 root (Z.to_nat x) ltac:(lia)) as [p Hp].
  rewrite find_unfold.
  rewrite (get_ok root x p); [|by apply index_ok_nonneg|by rewrite norm_nonneg by lia].
  simpl. destruct (decide (p = x)) as [->|Hne].
  - exists x, root. split_and!; [done|done|constructor| |done].
    intros y Hy. apply on_path_root in Hy as ->; [done|lia|done].
  - pose proof (Kruskal.fo_rank _ _ _ Hf x p ltac:(lia) Hp Hne) as Hlt.
    pose proof (Kruskal.fo_range _ _ _ Hf x p ltac:(lia) Hp) as Hrange.
    pose proof (Kruskal.fo_bound _ _ _ Hf p) as Hb.
    destruct (IH p Hrange ltac:(lia)) as (r & root1 & Hrun & Hlen & Hpr & Hall & Hrest).
    rewrite Hrun. simpl.
    rewrite set_ok by (rewrite Hlen; by apply index_ok_nonneg).
    simpl. rewrite norm_nonneg by lia.
    rewrite (get_ok _ x r).
    2:{ rewrite length_insert, Hlen. by apply index_ok_nonneg. }
    2:{ rewrite norm_nonneg by lia. rewrite list_lookup_insert_eq; [done|lia]. }
    simpl. exists r, (<[Z.to_nat x := r]> root1).
    split_and!; [done|by rewrite length_insert| | |].
    + apply DisjointSet.on_path_step with p; [lia|done|done|done].
    + intros y Hy. destruct (decide (y = x)) as [->|Hyx].
      * rewrite list_lookup_insert_eq; [done|lia].
      * apply (on_path_next _ _ p) in Hy as [?|Hy]; [done| |lia|done].
        pose proof (on_path_range _ _ _ _ _ Hf Hrange Hy) as Hy0.
        rewrite list_lookup_insert_ne by lia. auto.
    + intros y Hy Hnot. rewrite list_lookup_insert_ne.
      * apply Hrest; [done|]. intros Hpy. apply Hnot.
        apply DisjointSet.on_path_step with p; [lia|done|done|done].
      * intros Heq. apply Hnot. assert (y = x) as -> by lia. constructor.
Qed.

(** [find] on any index of the list, with all that it guarantees. *)
Lemma find_full fuel root rank bound x :
  Kruskal.forest root rank bound →
  Kruskal.index_ok (Z.of_nat (length root)) x →
  (bound + 2 ≤ fuel)%nat →
  let x' := Kruskal.norm (length root) x in
  ∃ r root',
    Kruskal.find fuel x root = Done (r, root') ∧
    Kruskal.rep root x' r ∧
    Kruskal.forest root' rank bound ∧
    Kruskal.preserves root root' ∧
    DisjointSet.on_path root x' r ∧
    (∀ y, DisjointSet.on_path root x' y → root' !! Z.to_nat y = Some r) ∧
    (∀ y, 0 ≤ y → ¬ DisjointSet.on_path root x' y →
          root' !! Z.to_nat y = root !! Z.to_nat y).
Proof.
  intros Hf Hx Hfuel x'.
  destruct (find_ok fuel root rank bound x Hf Hx Hfuel)
    as (r & root' & Hrun & Hrep & Hf' & Hpres).
  exists r, root'. split_and!; [done|done|done|done|..].
  all: pose proof (norm_range _ _ Hx) as Hn; fold x' in Hn.
  all: destruct (decide (0 ≤ x)) as [Hpos|Hneg].
  all: try (unfold x' in *; rewrite norm_nonneg in * by done;
            destruct (find_path_nonneg fuel root rank bound x Hf Hn ltac:(lia))
              as (r0 & root0 & Hrun0 & _ & Hp0 & Hall0 & Hrest0);
            rewrite Hrun in Hrun0; simplify_eq; done).
  all: destruct fuel as [|fuel]; [lia|].
  all: destruct (lookup_lt_is_Some_2 root (Z.to_nat x') ltac:(lia)) as [p Hp].
  all: pose proof (Kruskal.fo_range _ _ _ Hf x' p ltac:(lia) Hp) as Hrange.
  all: rewrite find_unfold, (get_ok root x p) in Hrun by done; simpl in Hrun.
  all: rewrite decide_False in Hrun by lia.
  all: destruct (find_path_nonneg fuel root rank bound p Hf Hrange ltac:(lia))
         as (r0 & root0 & Hrun0 & Hlen0 & Hp0 & Hall0 & Hrest0).
  all: rewrite Hrun0 in Hrun; simpl in Hrun.
  all: rewrite set_ok in Hrun by (by rewrite Hlen0); simpl in Hrun.
  all: rewrite Hlen0 in Hrun; fold x' in Hrun.
  all: rewrite (get_ok _ x r0) in Hrun;
         [|by rewrite length_insert, Hlen0
          |rewrite length_insert, Hlen0; fold x';
           rewrite list_lookup_insert_eq; [done|lia]].
  all: simpl in Hrun; simplify_eq.
  - destruct (decide (p = x')) as [->|Hne]; [done|].
    apply DisjointSet.on_path_step with p; [lia|done|done|done].
  - intros y Hy. destruct (decide (y = x')) as [->|Hyx].
    + rewrite list_lookup_insert_eq; [done|lia].
    + apply (on_path_next _ _ p) in Hy as [?|Hy]; [done| |lia|done].
      pose proof (on_path_range _ _ _ _ _ Hf Hrange Hy) as Hy0.
      rewrite list_lookup_insert_ne by lia. auto.
  - intros y Hy Hnot. rewrite list_lookup_insert_ne.
    + apply Hrest0; [done|]. intros Hpy. apply Hnot.
      destruct (decide (p = x')) as [->|Hne]; [done|].
      apply DisjointSet.on_path_step with p; [lia|done|done|done].
    + intros Heq. apply Hnot. assert (y = x') as -> by lia. constructor.
Qed.

(** X1. [find(x)] on a well-formed list completes exactly when [x] indexes
    the list ([-len .. len-1], a negative index counting from the end): it
    then returns the root of the tree of [x], keeps the length of the list
    and the representative of every node, and leaves the list well-formed;
    with any other [x] it raises [IndexError]. *)
Theorem find_returns_root (root : list Z) (x : Z) :
  DisjointSet.well_formed root →
  ∃ fuel, ∀ fuel', (fuel ≤ fuel')%nat →
    (Kruskal.index_ok (Z.of_nat (length root)) x →
     ∃ r root',
       Kruskal.find fuel' x root = Done (r, root') ∧
       Kruskal.rep root (Kruskal.norm (length root) x) r ∧
       root' !! Z.to_nat r = Some r ∧
       length root' = length root ∧
       (∀ y s, Kruskal.rep root y s ↔ Kruskal.rep root' y s) ∧
       DisjointSet.well_formed root') ∧
    (¬ Kruskal.index_ok (Z.of_nat (length root)) x →
     Kruskal.find fuel' x root = Raise IndexError).
Proof.
  intros (rank & bound & Hf). exists (bound + 2)%nat. intros fuel' Hle. split.
  - intros Hx.
    destruct (find_full fuel' root rank bound x Hf Hx Hle)
      as (r & root' & Hrun & Hrep & Hf' & (Hlen & Hreps & Hroots) & _ & Hall & _).
    exists r, root'. destruct (rep_is_root _ _ _ Hrep) as [Hr0 Hrr].
    split_and!; [done|done|by apply Hroots|done| |by exists rank, bound].
    intros y s. split; [apply Hreps|]. intros Hs.
    pose proof (rep_range _ _ _ Hs) as Hy. rewrite Hlen in Hy.
    destruct (rep_total root rank bound y Hf Hy) as [s' Hs'].
    by rewrite (rep_functional _ _ _ _ Hs (Hreps _ _ Hs')).
  - intros Hx. destruct fuel' as [|fuel']; [lia|]. by apply find_bad.
Qed.

Lemma well_formed_range N : DisjointSet.well_formed (seqZ 0 N).
Proof. exists (λ _, 0%nat), 0%nat. apply forest0. Qed.

Lemma find_returns_root_witness :
  ∃ fuel, ∀ fuel', (fuel ≤ fuel')%nat →
    (Kruskal.index_ok (Z.of_nat (length (seqZ 0 3))) (-1) →
     ∃ r root',
       Kruskal.find fuel' (-1) (seqZ 0 3) = Done (r, root') ∧
       Kruskal.rep (seqZ 0 3) (Kruskal.norm (length (seqZ 0 3)) (-1)) r ∧
       root' !! Z.to_nat r = Some r ∧
       length root' = length (seqZ 0 3) ∧
       (∀ y s, Kruskal.rep (seqZ 0 3) y s ↔ Kruskal.rep root' y s) ∧
       DisjointSet.well_formed root') ∧
    (¬ Kruskal.index_ok (Z.of_nat (length (seqZ 0 3))) (-1) →
     Kruskal.find fuel' (-1) (seqZ 0 3) = Raise IndexError).
Proof. apply (find_returns_root (seqZ 0 3) (-1)), well_formed_range. Defined.

Lemma find_Done_index fuel x root r root' :
  Kruskal.find fuel x root = Done (r, root') →
  Kruskal.index_ok (Z.of_nat (length root)) x.
Proof.
  intros Hrun. destruct (decide (Kruskal.index_ok (Z.of_nat (length root)) x));
    [done|]. destruct fuel as [|fuel]; [done|]. by rewrite find_bad in Hrun.
Qed.

(** A list with chains: 0 -> 1 -> 2, 3 -> 2, 4 alone. *)
Lemma well_formed_chain : DisjointSet.well_formed [1; 2; 2; 2; 4].
Proof.
  exists (λ x, if decide (x = 1) then 1%nat else if decide (x = 2) then 2%nat
               else 0%nat), 2%nat.
  split.
  - intros x p Hx Hp. apply lookup_lt_Some in Hp as Hlt. simpl in Hlt.
    assert (x = 0 ∨ x = 1 ∨ x = 2 ∨ x = 3 ∨ x = 4) as Hc by lia.
    destruct Hc as [->|[->|[->|[->| ->]]]]; simpl in Hp; simplify_eq; simpl; lia.
  - intros x p Hx Hp Hne. apply lookup_lt_Some in Hp as Hlt. simpl in Hlt.
    assert (x = 0 ∨ x = 1 ∨ x = 2 ∨ x = 3 ∨ x = 4) as Hc by lia.
    destruct Hc as [->|[->|[->|[->| ->]]]]; simpl in Hp; simplify_eq; simpl; lia.
  - intros x. repeat destruct (decide _); lia.
Qed.

(** X2. Path compression: after a returning [find(x)] on a well-formed list,
    [x] and every node that was on the way from [x] to its root point
    directly at that root, and no other entry of the list has changed. *)
Theorem find_compresses_path (root : list Z) (x : Z) (fuel : nat)
    (r : Z) (root' : list Z) :
  DisjointSet.well_formed root →
  Kruskal.find fuel x root = Done (r, root') →
  (∀ y, DisjointSet.on_path root (Kruskal.norm (length root) x) y →
        root' !! Z.to_nat y = Some r) ∧
  (∀ y, 0 ≤ y → ¬ DisjointSet.on_path root (Kruskal.norm (length root) x) y →
        root' !! Z.to_nat y = root !! Z.to_nat y).
Proof.
  intros (rank & bound & Hf) Hrun.
  pose proof (find_Done_index _ _ _ _ _ Hrun) as Hx.
  destruct (find_full (fuel `max` (bound + 2)) root rank bound x Hf Hx ltac:(lia))
    as (r0 & root0 & Hrun0 & _ & _ & _ & _ & Hall & Hrest).
  rewrite (find_fuel_mono fuel _ _ _ _ Hrun) in Hrun0 by lia. by simplify_eq.
Qed.

Lemma find_compresses_path_witness :
  (∀ y, DisjointSet.on_path [1; 2; 2; 2; 4]
          (Kruskal.norm (length [1; 2; 2; 2; 4]) 0) y →
        [2; 2; 2; 2; 4] !! Z.to_nat y = Some 2) ∧
  (∀ y, 0 ≤ y →
        ¬ DisjointSet.on_path [1; 2; 2; 2; 4]
            (Kruskal.norm (length [1; 2; 2; 2; 4]) 0) y →
        [2; 2; 2; 2; 4] !! Z.to_nat y = [1; 2; 2; 2; 4] !! Z.to_nat y).
Proof.
  apply (find_compresses_path [1; 2; 2; 2; 4] 0 3 2 [2; 2; 2; 2; 4]).
  - apply well_formed_chain.
  - vm_compute. reflexivity.
Defined.

(** X3. A second [find(x)] right after a returning one returns the same
    root and leaves the list as it is. *)
Theorem find_twice (root : list Z) (x : Z) (fuel : nat) (r : Z) (root' : list Z) :
  DisjointSet.well_formed root →
  Kruskal.find fuel x root = Done (r, root') →
  ∀ fuel', (2 ≤ fuel')%nat → Kruskal.find fuel' x root' = Done (r, root').
Proof.
  intros (rank & bound & Hf) Hrun fuel' Hfuel.
  pose proof (find_Done_index _ _ _ _ _ Hrun) as Hx.
  destruct (find_full (fuel `max` (bound + 2)) root rank bound x Hf Hx ltac:(lia))
    as (r0 & root0 & Hrun0 & Hrep & _ & (Hlen & _ & Hroots) & Hpr & Hall & _).
  rewrite (find_fuel_mono fuel _ _ _ _ Hrun) in Hrun0 by lia. simplify_eq.
  pose proof (norm_range _ _ Hx) as Hn.
  destruct (rep_is_root _ _ _ Hrep) as [Hr0 Hrr]. apply Hroots in Hrr; [|done].
  pose proof (Hall _ (DisjointSet.on_path_here _ _)) as Hxr.
  destruct fuel' as [|[|fuel']]; [lia|lia|].
  rewrite find_unfold, (get_ok root0 x r0); [|by rewrite Hlen|by rewrite Hlen].
  simpl. destruct (decide (r0 = x)) as [->|Hne]; [done|].
  rewrite find_unfold, (get_root root0 r0) by done. simpl.
  rewrite decide_True by done. simpl.
  rewrite set_ok by (by rewrite Hlen). simpl. rewrite Hlen.
  rewrite list_insert_id by done.
  rewrite (get_ok root0 x r0); [done|by rewrite Hlen|by rewrite Hlen].
Qed.

Lemma find_twice_witness :
  Kruskal.find 3 0 [1; 2; 2; 2; 4] = Done (2, [2; 2; 2; 2; 4]) ∧
  Kruskal.find 2 0 [2; 2; 2; 2; 4] = Done (2, [2; 2; 2; 2; 4]).
Proof.
  split; [vm_compute; reflexivity|].
  apply (find_twice [1; 2; 2; 2; 4] 0 3 2 [2; 2; 2; 2; 4]).
  - apply well_formed_chain.
  - vm_compute. reflexivity.
  - lia.
Defined.

(** [join] when both indices already have the same root. *)
Lemma join_same fuel root rank bound a b r :
  Kruskal.forest root rank bound →
  Kruskal.index_ok (Z.of_nat (length root)) a →
  Kruskal.index_ok (Z.of_nat (length root)) b →
  (bound + 2 ≤ fuel)%nat →
  Kruskal.rep root (Kruskal.norm (length root) a) r →
  Kruskal.rep root (Kruskal.norm (length root) b) r →
  ∃ root',
    Kruskal.join fuel a b root = Done root' ∧
    Kruskal.forest root' rank bound ∧ Kruskal.preserves root root'.
Proof.
  intros Hf Ha Hb Hfuel Hra Hrb. unfold Kruskal.join.
  destruct (find_known fuel root rank bound b r Hf Hb Hfuel Hrb)
    as (root1 & Hrun1 & Hf1 & Hp1).
  rewrite Hrun1. simpl.
  destruct Hp1 as (Hlen1 & Hreps1 & Hroots1).
  destruct (rep_is_root _ _ _ Hrb) as [Hr0 Hrroot].
  rewrite (get_root root1 r) by (by try apply Hroots1). simpl.
  destruct (find_known fuel root1 rank bound a r Hf1) as (root2 & Hrun2 & Hf2 & Hp2);
    [by rewrite Hlen1|done|rewrite Hlen1; by apply Hreps1|].
  rewrite Hrun2. simpl.
  assert (Kruskal.preserves root root2) as Hp.
  { apply preserves_trans with root1; [by split_and!|done]. }
  destruct Hp as (Hlen & Hreps & Hroots).
  rewrite set_ok.
  2:{ apply index_ok_nonneg. rewrite Hlen. apply lookup_lt_Some in Hrroot. lia. }
  rewrite norm_nonneg by done.
  rewrite list_insert_id by (by apply Hroots).
  exists root2. split_and!; [done|done|by split_and!].
Qed.

(** X4. [join(a, b)] on a well-formed list, for indices of the list: the
    tree of [a] is put under the root of [b]. Afterwards [a] and [b] have the
    same representative, the one [b] had; the nodes that had the
    representative of [a] have that of [b]; all other nodes keep theirs. *)
Theorem join_merges (root : list Z) (a b : Z) :
  DisjointSet.well_formed root →
  Kruskal.index_ok (Z.of_nat (length root)) a →
  Kruskal.index_ok (Z.of_nat (length root)) b →
  ∃ fuel, ∀ fuel', (fuel ≤ fuel')%nat →
    ∃ root' ra rb,
      Kruskal.join fuel' a b root = Done root' ∧
      Kruskal.rep root (Kruskal.norm (length root) a) ra ∧
      Kruskal.rep root (Kruskal.norm (length root) b) rb ∧
      Kruskal.rep root' (Kruskal.norm (length root) a) rb ∧
      Kruskal.rep root' (Kruskal.norm (length root) b) rb ∧
      (∀ y s, Kruskal.rep root y s →
              Kruskal.rep root' y (if decide (s = ra) then rb else s)) ∧
      length root' = length root ∧
      DisjointSet.well_formed root'.
Proof.
  intros (rank & bound & Hf) Ha Hb. exists (bound + 2)%nat. intros fuel' Hle.
  destruct (rep_total root rank bound (Kruskal.norm (length root) a) Hf)
    as [ra Hra]; [by apply norm_range|].
  destruct (rep_total root rank bound (Kruskal.norm (length root) b) Hf)
    as [rb Hrb]; [by apply norm_range|].
  assert (∃ root',
    Kruskal.join fuel' a b root = Done root' ∧
    (∀ y s, Kruskal.rep root y s →
            Kruskal.rep root' y (if decide (s = ra) then rb else s)) ∧
    length root' = length root ∧ DisjointSet.well_formed root')
    as (root' & Hrun & Hreps & Hlen & Hwf).
  { destruct (decide (ra = rb)) as [->|Hne].
    - destruct (join_same fuel' root rank bound a b rb Hf Ha Hb Hle Hra Hrb)
        as (root' & Hrun & Hf' & Hlen & Hreps & _).
      exists root'. split_and!; [done| |done|by exists rank, bound].
      intros y s Hs. destruct (decide (s = rb)) as [->|]; by apply Hreps.
    - destruct (join_ok fuel' root rank bound a b ra rb Hf Ha Hb Hle Hra Hrb Hne)
        as (root1 & Hrun & Hf1 & Hlen & Hreps & Hroots).
      destruct (rep_is_root _ _ _ Hra) as [Hra0 Hraroot].
      destruct (rep_is_root _ _ _ Hrb) as [Hrb0 Hrbroot].
      apply Hroots in Hraroot, Hrbroot; [|done|done].
      exists (<[Z.to_nat ra := rb]> root1). split_and!; [done| | |].
      + intros y s Hs. apply rep_link; auto.
      + by rewrite length_insert.
      + exists (Kruskal.link_rank rank ra rb), (S bound). by apply forest_link. }
  exists root', ra, rb. split_and!; [done|done|done| | |done|done|done].
  - specialize (Hreps _ _ Hra). by rewrite decide_True in Hreps.
  - specialize (Hreps _ _ Hrb). by destruct (decide (rb = ra)).
Qed.

Lemma join_merges_witness :
  ∃ fuel, ∀ fuel', (fuel ≤ fuel')%nat →
    ∃ root' ra rb,
      Kruskal.join fuel' 0 4 [1; 2; 2; 2; 4] = Done root' ∧
      Kruskal.rep [1; 2; 2; 2; 4] (Kruskal.norm (length [1; 2; 2; 2; 4]) 0) ra ∧
      Kruskal.rep [1; 2; 2; 2; 4] (Kruskal.norm (length [1; 2; 2; 2; 4]) 4) rb ∧
      Kruskal.rep root' (Kruskal.norm (length [1; 2; 2; 2; 4]) 0) rb ∧
      Kruskal.rep root' (Kruskal.norm (length [1; 2; 2; 2; 4]) 4) rb ∧
      (∀ y s, Kruskal.rep [1; 2; 2; 2; 4] y s →
              Kruskal.rep root' y (if decide (s = ra) then rb else s)) ∧
      length root' = length [1; 2; 2; 2; 4] ∧
      DisjointSet.well_formed root'.
Proof.
  apply (join_merges [1; 2; 2; 2; 4] 0 4).
  - apply well_formed_chain.
  - unfold Kruskal.index_ok. simpl. lia.
  - unfold Kruskal.index_ok. simpl. lia.
Defined.

(** ** The verdicts of [kruskals] *)

(** Connectivity of one edge list inside that of another. *)
Lemma conn_sub es es' x y :
  (∀ u v, Kruskal.linked es u v → Kruskal.conn es' u v) →
  Kruskal.conn es x y → Kruskal.conn es' x y.
Proof.
  intros Hsub Hxy. unfold Kruskal.conn at 1, rtsc in Hxy.
  induction Hxy as [|x z y Hxz _ IH]; [done|].
  etrans; [|exact IH]. destruct Hxz as [H|H]; [by apply Hsub|].
  symmetry. by apply Hsub.
Qed.

Lemma linked_snoc es a b w u v :
  Kruskal.linked (es ++ [(a, b, w)]) u v ↔
  Kruskal.linked es u v ∨ (u = a ∧ v = b).
Proof.
  unfold Kruskal.linked. split.
  - intros [w' [Hin|[= -> -> ->]%list_elem_of_singleton]%elem_of_app]; eauto.
  - intros [[w' Hin]|[-> ->]].
    + exists w'. apply elem_of_app. by left.
    + exists w. apply elem_of_app. right. by left.
Qed.

(** An edge between connected nodes adds no connectivity. *)
Lemma conn_snoc_redundant es a b w x y :
  Kruskal.conn es a b →
  Kruskal.conn (es ++ [(a, b, w)]) x y ↔ Kruskal.conn es x y.
Proof.
  intros Hab. split.
  - apply conn_sub. intros u v [Hl|[-> ->]]%linked_snoc; [|done].
    destruct Hl as [w' Hin]. by apply conn_edge with w'.
  - apply conn_mono. intros e He. apply elem_of_app. by left.
Qed.

Lemma conn_snoc_congr es es' a b w x y :
  (∀ u v, Kruskal.conn es u v ↔ Kruskal.conn es' u v) →
  Kruskal.conn (es ++ [(a, b, w)]) x y ↔ Kruskal.conn (es' ++ [(a, b, w)]) x y.
Proof.
  assert (∀ l l', (∀ u v, Kruskal.conn l u v → Kruskal.conn l' u v) →
                  Kruskal.conn (l ++ [(a, b, w)]) x y →
                  Kruskal.conn (l' ++ [(a, b, w)]) x y) as Hdir.
  { intros l l' Hll. apply conn_sub. intros u v [Hl|[-> ->]]%linked_snoc.
    - eapply conn_mono; [|apply Hll].
      + intros e He. apply elem_of_app. by left.
      + destruct Hl as [w' Hin]. by apply conn_edge with w'.
    - apply conn_edge with w, elem_of_app. right. by left. }
  intros Hiff. split; apply Hdir; intros u v; apply Hiff.
Qed.

(** In a sound and complete forest, two nodes are connected exactly when
    they have the same representative. *)
Lemma conn_same_rep root es a b ra rb :
  Kruskal.sound root es → Kruskal.complete root es →
  Kruskal.rep root a ra → Kruskal.rep root b rb →
  Kruskal.conn es a b ↔ ra = rb.
Proof.
  intros Hs Hc Hra Hrb. split.
  - intros Hab. destruct (complete_conn root es a b Hc Hab) as [->|(r & Ha & Hb)].
    + by eapply rep_functional.
    + rewrite (rep_functional _ _ _ _ Hra Ha). by eapply rep_functional.
  - intros ->. etrans; [by apply Hs|]. symmetry. by apply Hs.
Qed.

Lemma kruskals_loop_accept fuel edges :
  ∀ done root order_vis rank bound,
    Kruskal.forest root rank bound →
    (bound + length edges + 2 ≤ fuel)%nat →
    Forall (Kruskal.endpoints_in (Z.of_nat (length root))) edges →
    Kruskal.sound root done → Kruskal.complete root done →
    ∃ root' ov',
      for_each (Kruskal.step fuel) edges (root, order_vis)
        = Done (root', order_vis ++ ov') ∧
      ov'.*1 = edges ∧
      Mst.accept_ok done ov'.
Proof.
  induction edges as [|[[a b] w] edges IH];
    intros done root order_vis rank bound Hf Hfuel Hall Hs Hc.
  - exists root, []. simpl. rewrite app_nil_r. split_and!; [done|done|].
    intros pre a b w added post Heq. by destruct pre.
  - apply Forall_cons in Hall as [He Hall]. simpl in Hfuel.
    destruct (step_ok fuel a b w root order_vis rank bound Hf)
      as (root1 & rank1 & added & Hstep & Hf1 & Hpost);
      [by apply endpoints_in_ok|lia|].
    destruct He as [Ha Hb]. simpl in Ha, Hb.
    rewrite !norm_nonneg in Hpost by lia.
    destruct (step_sound _ _ _ _ _ _ w _ done Hf Hpost Hs Hc) as (Hs1 & Hc1 & _).
    destruct Hpost as (Hlen1 & ra & rb & Hra & Hrb & Hadd & _).
    destruct (IH (done ++ [(a, b, w)]) root1 (order_vis ++ [((a, b, w), added)])
                rank1 (S bound) Hf1)
      as (root' & ov' & Hrun & Hfst & Hacc); [lia|by rewrite Hlen1|done|done|].
    exists root', (((a, b, w), added) :: ov').
    cbn [for_each]. rewrite Hstep.
    rewrite <- app_assoc in Hrun. simpl in Hrun.
    split_and!; [done|by rewrite fmap_cons, Hfst|].
    intros pre a' b' w' added' post Heq. destruct pre as [|ev pre]; simpl in Heq.
    + simplify_eq. simpl. rewrite app_nil_r.
      pose proof (conn_same_rep root done a' b' ra rb Hs Hc Hra Hrb) as Hiff.
      case_bool_decide as Hd; [|by apply Hiff].
      intros Hab. by apply Hd, Hiff.
    + simplify_eq. rewrite fmap_cons. simpl.
      pose proof (Hacc pre a' b' w' added' post eq_refl) as H.
      by rewrite <- app_assoc in H.
Qed.

Lemma accept_ok_prefix done t1 t2 :
  Mst.accept_ok done (t1 ++ t2) → Mst.accept_ok done t1.
Proof.
  intros H pre a b w added post ->. apply (H pre a b w added (post ++ t2)).
  by rewrite <- app_assoc.
Qed.

(** From the verdict rule alone: the accepted edges of a trace connect what
    all its edges connect, and have no cycle. *)
Lemma accept_ok_spans t :
  Mst.accept_ok [] t →
  (∀ x y, Kruskal.conn (Mst.accepted_edges t) x y ↔ Kruskal.conn t.*1 x y) ∧
  Mst.acyclic (Mst.accepted_edges t).
Proof.
  induction t as [|[[[a b] w] added] t IH] using rev_ind; intros Hacc.
  - split; [done|constructor].
  - destruct (IH (accept_ok_prefix _ _ _ Hacc)) as [Hconn Hacy].
    pose proof (Hacc t a b w added [] eq_refl) as Hrule. simpl in Hrule.
    unfold Mst.accepted_edges in *. rewrite filter_app, !fmap_app.
    destruct added.
    + rewrite filter_cons_True by done. simpl. split.
      * intros x y. by apply conn_snoc_congr.
      * constructor; [done|]. by rewrite Hconn.
    + rewrite filter_cons_False by done. simpl. rewrite app_nil_r.
      split; [|done]. intros x y. by rewrite Hconn, conn_snoc_redundant.
Qed.

(** A run of the loop from the initial forest, on any list of edges
    between nodes [0 .. N-1], with all that is known of its result. *)
Lemma kruskals_run fuel N (l : list Kruskal.edge_t) :
  0 ≤ N → Forall (Kruskal.endpoints_in N) l → (length l + 2 ≤ fuel)%nat →
  ∃ root' ov rank' bound',
    for_each (Kruskal.step fuel) l (seqZ 0 N, []) = Done (root', ov) ∧
    ov.*1 = l ∧
    Kruskal.forest root' rank' bound' ∧
    Z.of_nat (length root') = N ∧
    Kruskal.sound root' l ∧ Kruskal.complete root' l ∧
    (length (Kruskal.roots root') + Kruskal.accepted ov = Z.to_nat N)%nat ∧
    Mst.accept_ok [] ov.
Proof.
  intros HN Hall Hfuel.
  assert (Forall (Kruskal.endpoints_in (Z.of_nat (length (seqZ 0 N)))) l) as Hall'.
  { by rewrite length_seqZ, Z2Nat.id. }
  destruct (kruskals_loop_sound fuel l [] (seqZ 0 N) [] (λ _, 0%nat) 0%nat
              (forest0 N) ltac:(simpl; lia) Hall' (sound0 N) (complete0 N))
    as (root' & ov & rank' & bound' & Hrun & Hf' & Hlen' & Hs' & Hc' & Hcount & Hfst).
  destruct (kruskals_loop_accept fuel l [] (seqZ 0 N) [] (λ _, 0%nat) 0%nat
              (forest0 N) ltac:(simpl; lia) Hall' (sound0 N) (complete0 N))
    as (root2 & ov2 & Hrun2 & _ & Hacc).
  rewrite Hrun in Hrun2. simpl in Hrun, Hrun2, Hs', Hc'. simplify_eq.
  rewrite roots0, length_seqZ in Hcount. rewrite length_seqZ in Hlen'.
  exists root2, ov2, rank', bound'. split_and!; auto. lia.
Qed.

Lemma kruskals_sorted_run {A} fuel (G : A) N edges :
  0 ≤ N → Forall (Kruskal.endpoints_in N) edges → (length edges + 2 ≤ fuel)%nat →
  ∃ root' trace rank' bound',
    (Kruskal.kruskals fuel G N edges).1 = Done trace ∧
    for_each (Kruskal.step fuel) (Kruskal.sort_by_weight edges) (seqZ 0 N, [])
      = Done (root', trace) ∧
    trace.*1 = Kruskal.sort_by_weight edges ∧
    Kruskal.forest root' rank' bound' ∧
    Z.of_nat (length root') = N ∧
    Kruskal.sound root' (Kruskal.sort_by_weight edges) ∧
    Kruskal.complete root' (Kruskal.sort_by_weight edges) ∧
    (length (Kruskal.roots root') + Kruskal.accepted trace = Z.to_nat N)%nat ∧
    Mst.accept_ok [] trace.
Proof.
  intros HN Hall Hfuel.
  destruct (kruskals_run fuel N (Kruskal.sort_by_weight edges) HN)
    as (root' & ov & rank' & bound' & Hrun & Hrest).
  { by rewrite sort_by_weight_perm. }
  { by rewrite sort_by_weight_length. }
  exists root', ov, rank', bound'. split; [|done].
  by rewrite kruskals_unfold, Hrun.
Qed.

Lemma conn_perm es es' x y :
  es ≡ₚ es' → Kruskal.conn es x y ↔ Kruskal.conn es' x y.
Proof.
  intros Hp. split; apply conn_mono; intros e; by rewrite Hp.
Qed.

(** X5. The verdict of each event of [kruskals] (nodes [0 .. N-1]): an edge
    is accepted when the edges before it in the trace do not connect its
    endpoints, and rejected when they do. *)
Theorem kruskals_verdicts {A} (G : A) (N : Z) (edges : list Kruskal.edge_t) :
  0 ≤ N → Forall (Kruskal.endpoints_in N) edges →
  ∃ fuel trace,
    (∀ fuel', (fuel ≤ fuel')%nat →
       (Kruskal.kruskals fuel' G N edges).1 = Done trace) ∧
    ∀ pre a b w added post,
      trace = pre ++ ((a, b, w), added) :: post →
      if added then ¬ Kruskal.conn pre.*1 a b else Kruskal.conn pre.*1 a b.
Proof.
  intros HN Hall. exists (length edges + 2)%nat.
  destruct (kruskals_sorted_run (length edges + 2) G N edges HN Hall ltac:(lia))
    as (root' & trace & _ & _ & Hrun & _ & _ & _ & _ & _ & _ & _ & Hacc).
  exists trace. split.
  - intros fuel' Hle. by apply kruskals_fuel_mono with (length edges + 2)%nat.
  - intros pre a b w added post Heq. apply (Hacc pre a b w added post Heq).
Qed.

Lemma kruskals_verdicts_witness :
  ∃ fuel trace,
    (∀ fuel', (fuel ≤ fuel')%nat →
       (Kruskal.kruskals fuel' () 4 Kruskal.scenario_edges).1 = Done trace) ∧
    ∀ pre a b w added post,
      trace = pre ++ ((a, b, w), added) :: post →
      if added then ¬ Kruskal.conn pre.*1 a b else Kruskal.conn pre.*1 a b.
Proof.
  apply (kruskals_verdicts () 4 Kruskal.scenario_edges).
  - lia.
  - repeat constructor; simpl; lia.
Defined.

Lemma accepted_edges_sub t e : e ∈ Mst.accepted_edges t → e ∈ t.*1.
Proof.
  unfold Mst.accepted_edges. intros (ev & -> & Hev)%list_elem_of_fmap.
  apply list_elem_of_filter in Hev as [_ Hev]. apply list_elem_of_fmap. eauto.
Qed.

(** X6. The accepted edges of [kruskals] are a spanning forest of the input
    (nodes [0 .. N-1]): they are input edges, no accepted edge closes a
    cycle with the accepted edges before it, and two nodes are connected by
    the accepted edges exactly when the input edges connect them. *)
Theorem kruskals_spanning_forest {A} (G : A) (N : Z)
    (edges : list Kruskal.edge_t) :
  0 ≤ N → Forall (Kruskal.endpoints_in N) edges →
  ∃ fuel trace,
    (∀ fuel', (fuel ≤ fuel')%nat →
       (Kruskal.kruskals fuel' G N edges).1 = Done trace) ∧
    (∀ e, e ∈ Mst.accepted_edges trace → e ∈ edges) ∧
    Mst.acyclic (Mst.accepted_edges trace) ∧
    (∀ x y, Kruskal.conn (Mst.accepted_edges trace) x y ↔ Kruskal.conn edges x y).
Proof.
  intros HN Hall. exists (length edges + 2)%nat.
  destruct (kruskals_sorted_run (length edges + 2) G N edges HN Hall ltac:(lia))
    as (root' & trace & _ & _ & Hrun & _ & Hfst & _ & _ & _ & _ & _ & Hacc).
  destruct (accept_ok_spans trace Hacc) as [Hconn Hacy].
  exists trace. split_and!; [|  |done|].
  - intros fuel' Hle. by apply kruskals_fuel_mono with (length edges + 2)%nat.
  - intros e He%accepted_edges_sub. by rewrite Hfst, sort_by_weight_perm in He.
  - intros x y. rewrite Hconn, Hfst. apply conn_perm, sort_by_weight_perm.
Qed.

Lemma kruskals_spanning_forest_witness :
  ∃ fuel trace,
    (∀ fuel', (fuel ≤ fuel')%nat →
       (Kruskal.kruskals fuel' () 4 Kruskal.scenario_edges).1 = Done trace) ∧
    (∀ e, e ∈ Mst.accepted_edges trace → e ∈ Kruskal.scenario_edges) ∧
    Mst.acyclic (Mst.accepted_edges trace) ∧
    (∀ x y, Kruskal.conn (Mst.accepted_edges trace) x y
            ↔ Kruskal.conn Kruskal.scenario_edges x y).
Proof.
  apply (kruskals_spanning_forest () 4 Kruskal.scenario_edges).
  - lia.
  - repeat constructor; simpl; lia.
Defined.

(** ** The accepted edges weigh least *)

(** *** Lists of numbers: fewer small elements, larger sum *)

Lemma count_le_perm (t : Z) (l l' : list Z) :
  l ≡ₚ l' → length (filter (λ x, x ≤ t) l) = length (filter (λ x, x ≤ t) l').
Proof. intros Hp. by rewrite Hp. Qed.

Lemma sum_list_perm (l l' : list Z) :
  l ≡ₚ l' → foldr Z.add 0 l = foldr Z.add 0 l'.
Proof.
  induction 1 as [|x l l' _ IH|x y l|l1 l2 l3 _ IH1 _ IH2]; simpl; lia.
Qed.

Lemma filter_none {X} (P : X → Prop) `{∀ x, Decision (P x)} (l : list X) :
  (∀ x, x ∈ l → ¬ P x) → filter P l = [].
Proof.
  induction l as [|x l IH]; intros Hall; [done|].
  rewrite filter_cons_False by (apply Hall; by left).
  apply IH. intros y Hy. apply Hall. by right.
Qed.

Lemma filter_every {X} (P : X → Prop) `{∀ x, Decision (P x)} (l : list X) :
  (∀ x, x ∈ l → P x) → filter P l = l.
Proof.
  induction l as [|x l IH]; intros Hall; [done|].
  rewrite filter_cons_True by (apply Hall; by left).
  f_equal. apply IH. intros y Hy. apply Hall. by right.
Qed.

Lemma sorted_dominated_sum (a f : list Z) :
  StronglySorted Z.le a → StronglySorted Z.le f →
  length a = length f →
  (∀ t : Z, (length (filter (λ x, (x ≤ t)%Z) f)
             ≤ length (filter (λ x, (x ≤ t)%Z) a))%nat) →
  foldr Z.add 0 a ≤ foldr Z.add 0 f.
Proof.
  intros Ha. revert f. induction Ha as [|x a Ha IH Hx]; intros f Hf Hlen Hdom.
  - destruct f; [done|simplify_eq/=].
  - destruct Hf as [|y f Hf Hy]; [simplify_eq/=|].
    simpl in Hlen. rewrite Forall_forall in Hx, Hy.
    assert (x ≤ y) as Hxy.
    { specialize (Hdom y). rewrite (filter_cons_True _ y) in Hdom by lia.
      simpl in Hdom. destruct (decide (x ≤ y)) as [?|Hgt]; [done|].
      rewrite filter_cons_False in Hdom by done.
      destruct (filter (λ z, z ≤ y) a) as [|z l] eqn:E; simpl in Hdom; [lia|].
      assert (z ∈ filter (λ z, z ≤ y) a) as Hz by (rewrite E; by left).
      apply list_elem_of_filter in Hz as [Hzy Hz]. specialize (Hx z Hz). lia. }
    simpl. assert (foldr Z.add 0 a ≤ foldr Z.add 0 f); [|lia].
    apply IH; [done|lia|]. intros t. specialize (Hdom t).
    destruct (decide (y ≤ t)) as [Hyt|Hyt].
    + rewrite !filter_cons_True in Hdom by lia. simpl in Hdom. lia.
    + rewrite (filter_cons_False _ y) in Hdom by done.
      assert (filter (λ z, z ≤ t) f = []) as ->; [|simpl; lia].
      apply filter_none. intros z Hz. specialize (Hy z Hz). lia.
Qed.

(** Of two lists of the same length, the one that has, for every bound, at
    least as many elements below the bound has the smaller sum. *)
Lemma dominated_sum (a f : list Z) :
  length a = length f →
  (∀ t : Z, (length (filter (λ x, (x ≤ t)%Z) f)
             ≤ length (filter (λ x, (x ≤ t)%Z) a))%nat) →
  foldr Z.add 0 a ≤ foldr Z.add 0 f.
Proof.
  intros Hlen Hdom.
  rewrite <- (sum_list_perm _ _ (merge_sort_Permutation Z.le a)).
  rewrite <- (sum_list_perm _ _ (merge_sort_Permutation Z.le f)).
  apply sorted_dominated_sum.
  - apply StronglySorted_merge_sort; apply _.
  - apply StronglySorted_merge_sort; apply _.
  - by rewrite !merge_sort_Permutation.
  - intros t.
    rewrite (count_le_perm t _ _ (merge_sort_Permutation Z.le a)).
    rewrite (count_le_perm t _ _ (merge_sort_Permutation Z.le f)). apply Hdom.
Qed.

(** *** Lists of edges without cycles *)

Lemma acyclic_split f pre a b w post :
  Mst.acyclic f → f = pre ++ (a, b, w) :: post → ¬ Kruskal.conn pre a b.
Proof.
  intros Hacy. revert pre post.
  induction Hacy as [|es a0 b0 w0 Hacy IH Hn]; intros pre post Heq.
  - by destruct pre.
  - destruct post as [|p post _] using rev_ind.
    + apply (app_inj_tail es pre) in Heq as [-> [= -> -> ->]]. done.
    + rewrite app_comm_cons, (assoc_L (++)) in Heq.
      apply app_inj_tail in Heq as [-> _]. by apply (IH pre post).
Qed.

Lemma acyclic_filter (P : Kruskal.edge_t → Prop) `{∀ e, Decision (P e)} f :
  Mst.acyclic f → Mst.acyclic (filter P f).
Proof.
  induction 1 as [|es a b w Hacy IH Hn]; [constructor|].
  rewrite filter_app. destruct (decide (P (a, b, w))) as [HP|HP].
  - rewrite (filter_cons_True _ (a, b, w)) by done. simpl.
    constructor; [done|]. intros Hc. apply Hn.
    eapply conn_mono; [|done]. by intros e [_ He]%list_elem_of_filter.
  - rewrite (filter_cons_False _ (a, b, w)) by done. simpl.
    by rewrite app_nil_r.
Qed.

(** On a list without cycles every event of the loop is an acceptance. *)
Lemma accept_ok_acyclic ov :
  Mst.accept_ok [] ov → Mst.acyclic ov.*1 → Kruskal.accepted ov = length ov.
Proof.
  intros Hacc Hacy. unfold Kruskal.accepted. f_equal.
  apply filter_every. intros [[[a b] w] added] Hev.
  apply list_elem_of_split in Hev as (pre & post & ->).
  pose proof (Hacc pre a b w added post eq_refl) as Hrule. simpl in *.
  destruct added; [done|]. exfalso.
  apply (acyclic_split _ pre.*1 a b w post.*1 Hacy); [|done].
  by rewrite fmap_app, fmap_cons.
Qed.

Lemma transversal_conn N es es' reps :
  (∀ x y, Kruskal.conn es x y ↔ Kruskal.conn es' x y) →
  Kruskal.transversal N es reps → Kruskal.transversal N es' reps.
Proof.
  intros Hiff [Hnd Hr Hc Ha]. split; [done|done| |].
  - intros x Hx. destruct (Hc x Hx) as (r & Hin & Hxr). exists r. by rewrite <- Hiff.
  - intros r r' Hin Hin' Hrr. apply Ha; [done|done|]. by rewrite Hiff.
Qed.

(** More edges, fewer components. *)
Lemma transversal_mono N es es' reps reps' :
  (∀ x y, Kruskal.conn es x y → Kruskal.conn es' x y) →
  Kruskal.transversal N es reps → Kruskal.transversal N es' reps' →
  (length reps' ≤ length reps)%nat.
Proof.
  intros Hsub [Hnd Hr Hc Ha] [Hnd' Hr' Hc' Ha'].
  apply (injection_length (Kruskal.conn es')); [done| |].
  - intros x Hx. destruct (Hc x (Hr' x Hx)) as (r & Hin & Hxr). eauto.
  - intros x x' y Hx Hx' Hxy Hx'y. apply Ha'; [done|done|].
    etrans; [done|]. by symmetry.
Qed.

(** A forest on [N] nodes with [k] components has [N - k] edges. *)
Lemma forest_count N f :
  0 ≤ N → Forall (Kruskal.endpoints_in N) f → Mst.acyclic f →
  ∃ reps, Kruskal.transversal N f reps ∧
          (length f + length reps = Z.to_nat N)%nat.
Proof.
  intros HN Hall Hacy.
  destruct (kruskals_run (length f + 2) N f HN Hall ltac:(lia))
    as (root' & ov & rank' & bound' & _ & Hfst & Hf' & Hlen & Hs & Hc & Hcount & Hacc).
  exists (Kruskal.roots root'). split.
  - rewrite <- Hlen. by apply roots_transversal with rank' bound'.
  - rewrite accept_ok_acyclic in Hcount; [|done|by rewrite Hfst].
    rewrite <- Hfst, length_fmap. lia.
Qed.

(** *** Light edges come first *)

Lemma sorted_light_split (t : Z) (s : list Kruskal.edge_t) :
  Sorted (λ x y, Kruskal.weight x ≤ Kruskal.weight y) s →
  ∃ l1 l2, s = l1 ++ l2 ∧
    Forall (λ e, Kruskal.weight e ≤ t) l1 ∧
    Forall (λ e, t < Kruskal.weight e) l2.
Proof.
  intros Hs. apply Sorted_StronglySorted in Hs; [|intros x y z; lia].
  induction Hs as [|x s Hs IH Hx].
  - exists [], []. by repeat constructor.
  - destruct (decide (Kruskal.weight x ≤ t)) as [Hle|Hgt].
    + destruct IH as (l1 & l2 & -> & H1 & H2).
      exists (x :: l1), l2. split_and!; [done|by constructor|done].
    + exists [], (x :: s). split_and!; [done|constructor|].
      constructor; [lia|]. eapply Forall_impl; [done|]. simpl. intros y. lia.
Qed.

Lemma light_app t l1 l2 :
  Mst.light t (l1 ++ l2) = (Mst.light t l1 + Mst.light t l2)%nat.
Proof. unfold Mst.light. by rewrite filter_app, length_app. Qed.

Lemma light_all t l :
  Forall (λ e, Kruskal.weight e ≤ t) l → Mst.light t l = length l.
Proof.
  intros Hall. unfold Mst.light. rewrite filter_every; [done|].
  by apply Forall_forall.
Qed.

Lemma light_none t l :
  Forall (λ e, t < Kruskal.weight e) l → Mst.light t l = 0%nat.
Proof.
  intros Hall. unfold Mst.light. rewrite filter_none; [done|].
  rewrite Forall_forall in Hall. intros e He HP. specialize (Hall e He). simpl in *. lia.
Qed.

Lemma accepted_edges_app l1 l2 :
  Mst.accepted_edges (l1 ++ l2) = Mst.accepted_edges l1 ++ Mst.accepted_edges l2.
Proof. unfold Mst.accepted_edges. by rewrite filter_app, fmap_app. Qed.

Lemma accepted_edges_length l :
  length (Mst.accepted_edges l) = Kruskal.accepted l.
Proof. unfold Mst.accepted_edges, Kruskal.accepted. by rewrite length_fmap. Qed.

Lemma accepted_edges_Forall (P : Kruskal.edge_t → Prop) l :
  Forall P l.*1 → Forall P (Mst.accepted_edges l).
Proof.
  rewrite !Forall_forall. intros Hall e He. by apply Hall, accepted_edges_sub.
Qed.

(** The events that a run of the loop appends. *)
Lemma step_event fuel e root ov root' ov' :
  Kruskal.step fuel e (root, ov) = Done (root', ov') →
  ∃ added, ov' = ov ++ [(e, added)].
Proof.
  destruct e as [[a b] w]. unfold Kruskal.step.
  destruct (Kruskal.find fuel a root) as [[fa root1]| |]; simpl; [|done|done].
  destruct (Kruskal.find fuel b root1) as [[fb root2]| |]; simpl; [|done|done].
  destruct (decide (fa ≠ fb)).
  - destruct (Kruskal.join fuel a b root2); simpl; [|done|done].
    intros [= <- <-]. eauto.
  - intros [= <- <-]. eauto.
Qed.

Lemma for_each_step_events fuel l root ov root' ov' :
  for_each (Kruskal.step fuel) l (root, ov) = Done (root', ov') →
  ∃ ov2, ov' = ov ++ ov2 ∧ ov2.*1 = l.
Proof.
  revert root ov. induction l as [|e l IH]; intros root ov; cbn [for_each].
  - intros [= <- <-]. exists []. by rewrite app_nil_r.
  - destruct (Kruskal.step fuel e (root, ov)) as [[root1 ov1]| |] eqn:Hstep;
      [|done|done].
    apply step_event in Hstep as [added ->]. intros Hrun.
    apply IH in Hrun as (ov2 & -> & <-).
    exists ((e, added) :: ov2). by rewrite <- app_assoc.
Qed.

(** *** Counting the light edges of the run *)

Lemma light_weights t l :
  Mst.light t l = length (filter (λ x, x ≤ t) (Kruskal.weight <$> l)).
Proof.
  unfold Mst.light. induction l as [|e l IH]; [done|]. rewrite fmap_cons.
  destruct (decide (Kruskal.weight e ≤ t)).
  - rewrite !filter_cons_True by done. simpl. by rewrite IH.
  - by rewrite !filter_cons_False by done.
Qed.

Lemma total_weight_weights l :
  Mst.total_weight l = foldr Z.add 0 (Kruskal.weight <$> l).
Proof. unfold Mst.total_weight. induction l as [|e l IH]; simpl; [done|]. by rewrite IH. Qed.

(** Below every bound, the loop over a weight-ordered list accepts at least
    as many edges as any cycle-free selection of its edges holds. *)
Lemma kruskal_light fuel N s root' trace t f :
  0 ≤ N → Forall (Kruskal.endpoints_in N) s → (length s + 2 ≤ fuel)%nat →
  Sorted (λ x y, Kruskal.weight x ≤ Kruskal.weight y) s →
  for_each (Kruskal.step fuel) s (seqZ 0 N, []) = Done (root', trace) →
  (∀ e, e ∈ f → e ∈ s) → Mst.acyclic f →
  (Mst.light t f ≤ Mst.light t (Mst.accepted_edges trace))%nat.
Proof.
  intros HN Hall Hfuel Hsorted Hrun Hsub Hacy.
  destruct (sorted_light_split t s Hsorted) as (l1 & l2 & -> & Hl1 & Hl2).
  apply Forall_app in Hall as Hall12. destruct Hall12 as [Hall1 Hall2].
  rewrite length_app in Hfuel.
  destruct (kruskals_run fuel N l1 HN Hall1 ltac:(lia))
    as (root1 & ov1 & rank1 & bound1 & Hrun1 & Hfst1 & Hf1 & Hlen1 & Hs1 & Hc1
        & Hcount1 & _).
  rewrite for_each_app, Hrun1 in Hrun. simpl in Hrun.
  apply for_each_step_events in Hrun as (ov2 & -> & Hfst2).
  rewrite accepted_edges_app, light_app.
  rewrite (light_all t (Mst.accepted_edges ov1))
    by (apply accepted_edges_Forall; by rewrite Hfst1).
  rewrite (light_none t (Mst.accepted_edges ov2))
    by (apply accepted_edges_Forall; by rewrite Hfst2).
  rewrite accepted_edges_length.
  set (ft := filter (λ e, Kruskal.weight e ≤ t) f).
  assert (∀ e, e ∈ ft → e ∈ l1) as Hft.
  { intros e [Hw He]%list_elem_of_filter.
    apply Hsub, elem_of_app in He as [He|He]; [done|].
    rewrite Forall_forall in Hl2. specialize (Hl2 e He). simpl in *. lia. }
  destruct (forest_count N ft HN) as (reps & Htr & Hcount).
  { apply Forall_forall. intros e He. rewrite Forall_forall in Hall1.
    by apply Hall1, Hft. }
  { by apply acyclic_filter. }
  pose proof (roots_transversal root1 rank1 bound1 l1 Hf1 Hs1 Hc1) as Htr1.
  rewrite Hlen1 in Htr1.
  pose proof (transversal_mono N ft l1 reps (Kruskal.roots root1)
                (λ x y, conn_mono ft l1 x y Hft) Htr Htr1) as Hle.
  change (Mst.light t f) with (length ft). lia.
Qed.

(** A spanning forest of the input has as many edges as the run accepts. *)
Lemma spanning_forest_length N edges root rank bound f :
  0 ≤ N → Forall (Kruskal.endpoints_in N) edges →
  Kruskal.forest root rank bound → Z.of_nat (length root) = N →
  Kruskal.sound root (Kruskal.sort_by_weight edges) →
  Kruskal.complete root (Kruskal.sort_by_weight edges) →
  Mst.spanning_forest edges f →
  (length f + length (Kruskal.roots root) = Z.to_nat N)%nat.
Proof.
  intros HN Hall Hf Hlen Hs Hc [Hsub Hacy Hspan].
  destruct (forest_count N f HN) as (reps & Htr & Hcount); [|done|].
  { apply Forall_forall. intros e He. rewrite Forall_forall in Hall.
    by apply Hall, Hsub. }
  pose proof (roots_transversal root rank bound _ Hf Hs Hc) as Htr'.
  rewrite Hlen in Htr'.
  rewrite (transversal_length N (Kruskal.sort_by_weight edges)
             (Kruskal.roots root) reps); [done|done|].
  apply (transversal_conn N f); [|done]. intros x y.
  rewrite (conn_perm _ _ x y (sort_by_weight_perm edges)). split.
  - by apply conn_mono.
  - apply Hspan.
Qed.

(** X7. [kruskals] returns a minimum spanning forest (nodes [0 .. N-1]): the
    accepted edges are a spanning forest of the input, and no spanning
    forest of the input has a smaller total weight. *)
Theorem kruskals_minimal {A} (G : A) (N : Z) (edges : list Kruskal.edge_t) :
  0 ≤ N → Forall (Kruskal.endpoints_in N) edges →
  ∃ fuel trace,
    (∀ fuel', (fuel ≤ fuel')%nat →
       (Kruskal.kruskals fuel' G N edges).1 = Done trace) ∧
    Mst.spanning_forest edges (Mst.accepted_edges trace) ∧
    ∀ f, Mst.spanning_forest edges f →
         Mst.total_weight (Mst.accepted_edges trace) ≤ Mst.total_weight f.
Proof.
  intros HN Hall. exists (length edges + 2)%nat.
  destruct (kruskals_sorted_run (length edges + 2) G N edges HN Hall ltac:(lia))
    as (root' & trace & rank' & bound' & Hrun & Hloop & Hfst & Hf & Hlen & Hs & Hc
        & Hcount & Hacc).
  destruct (accept_ok_spans trace Hacc) as [Hconn Hacy].
  exists trace. split_and!.
  - intros fuel' Hle. by apply kruskals_fuel_mono with (length edges + 2)%nat.
  - split; [|done|].
    + intros e He%accepted_edges_sub. by rewrite Hfst, sort_by_weight_perm in He.
    + intros x y Hxy. apply Hconn. rewrite Hfst.
      by apply (conn_perm _ _ x y (sort_by_weight_perm edges)).
  - intros f Hsf. rewrite !total_weight_weights. apply dominated_sum.
    + rewrite !length_fmap, accepted_edges_length.
      pose proof (spanning_forest_length N edges root' rank' bound' f
                    HN Hall Hf Hlen Hs Hc Hsf). lia.
    + intros t. rewrite <- !light_weights.
      apply (kruskal_light (length edges + 2) N (Kruskal.sort_by_weight edges) root').
      * done.
      * apply Forall_forall. intros e He. rewrite Forall_forall in Hall.
        apply Hall. by rewrite sort_by_weight_perm in He.
      * rewrite sort_by_weight_perm. lia.
      * apply sort_by_weight_sorted.
      * done.
      * intros e He. rewrite sort_by_weight_perm. by apply Hsf.
      * apply Hsf.
Qed.

Lemma kruskals_minimal_witness :
  ∃ fuel trace,
    (∀ fuel', (fuel ≤ fuel')%nat →
       (Kruskal.kruskals fuel' () 4 Kruskal.scenario_edges).1 = Done trace) ∧
    Mst.spanning_forest Kruskal.scenario_edges (Mst.accepted_edges trace) ∧
    ∀ f, Mst.spanning_forest Kruskal.scenario_edges f →
         Mst.total_weight (Mst.accepted_edges trace) ≤ Mst.total_weight f.
Proof.
  apply (kruskals_minimal () 4 Kruskal.scenario_edges).
  - lia.
  - repeat constructor; simpl; lia.
Defined.

(** ** When [bfs] returns *)

Lemma bfs_loop_fuel_stable fuel fuel' g st r :
  BFS.loop fuel g st = r → r ≠ OutOfFuel → (fuel ≤ fuel')%nat →
  BFS.loop fuel' g st = r.
Proof.
  revert fuel' st. induction fuel as [|fuel IH]; intros fuel' st Hrun Hr Hle.
  - destruct fuel'; simpl in *; destruct (BFS.queue st); congruence.
  - destruct fuel' as [|fuel']; [lia|]. simpl in *.
    destruct (BFS.queue st) as [|c q]; [done|].
    destruct (g !! c); [|done]. apply IH; [done|done|lia].
Qed.

Lemma bfs_loop_outcome g start fuel processed st :
  BFS.inv g start processed st →
  (∀ x, x ∈ processed → is_Some (g !! x)) →
  (size g < fuel + length processed)%nat →
  (∃ order visited,
     BFS.loop fuel g st = Done order ∧
     BFS.inv g start visited (BFS.State [] visited order) ∧
     ∀ x, x ∈ visited → is_Some (g !! x)) ∨
  (∃ k, BFS.loop fuel g st = Raise (KeyError k) ∧
        reach g start k ∧ g !! k = None).
Proof.
  revert processed st. induction fuel as [|fuel IH];
    intros processed st Hinv Hkeys Hfuel.
  - destruct (BFS.queue st) as [|c q] eqn:Hq.
    + left. exists (BFS.order_visited st), (BFS.bfs_visited st). simpl. rewrite Hq.
      split_and!; [done|by apply bfs_inv_empty with processed|].
      rewrite (BFS.inv_split _ _ _ _ Hinv), Hq, app_nil_r. done.
    + exfalso. pose proof (BFS.inv_nodup _ _ _ _ Hinv) as Hnd.
      rewrite (BFS.inv_split _ _ _ _ Hinv) in Hnd. apply NoDup_app in Hnd as [Hnd _].
      pose proof (NoDup_keys_length g _ Hnd Hkeys). simpl in Hfuel. lia.
  - simpl. destruct (BFS.queue st) as [|c q] eqn:Hq.
    + left. exists (BFS.order_visited st), (BFS.bfs_visited st).
      split_and!; [done|by apply bfs_inv_empty with processed|].
      rewrite (BFS.inv_split _ _ _ _ Hinv), Hq, app_nil_r. done.
    + assert (reach g start c) as Hc.
      { apply (BFS.inv_reach _ _ _ _ Hinv).
        rewrite (BFS.inv_split _ _ _ _ Hinv), Hq. apply elem_of_app. right. by left. }
      destruct (g !! c) as [adj|] eqn:Hadj.
      * apply (IH (processed ++ [c])).
        -- by apply bfs_inv_step with q.
        -- intros x [Hx| ->%list_elem_of_singleton]%elem_of_app; [auto|eauto].
        -- rewrite length_app. simpl. lia.
      * right. by exists c.
Qed.

(** X8. The outcome of [bfs] on any graph and any start node: it returns
    a trace when every node that the start node reaches is a key of the
    mapping, and otherwise it raises the lookup error of a node that the
    start node reaches and that is not a key. More than [len(graph)]
    iterations are never needed. *)
Theorem bfs_outcome (g : graph) (start : Z) :
  (∃ order,
     (∀ fuel, (size g < fuel)%nat → BFS.bfs fuel g start = Done order) ∧
     ∀ v, reach g start v → is_Some (g !! v)) ∨
  (∃ k,
     (∀ fuel, (size g < fuel)%nat → BFS.bfs fuel g start = Raise (KeyError k)) ∧
     reach g start k ∧ g !! k = None).
Proof.
  destruct (bfs_loop_outcome g start (S (size g)) [] (BFS.init start))
    as [(order & visited & Hrun & Hinv & Hkeys)|(k & Hrun & Hk & Hnone)].
  - apply bfs_inv_init.
  - intros x Hx. by apply elem_of_nil in Hx.
  - simpl. lia.
  - left. exists order. split.
    + intros fuel Hfuel. unfold BFS.bfs.
      apply bfs_loop_fuel_stable with (S (size g)); [done|done|lia].
    + intros v Hv. apply Hkeys. by apply (bfs_inv_final g start visited order).
  - right. exists k. split_and!; [|done|done].
    intros fuel Hfuel. unfold BFS.bfs.
    apply bfs_loop_fuel_stable with (S (size g)); [done|done|lia].
Qed.

(** ** The order of discovery *)

Lemma StronglySorted_lookup_le (l : list nat) i j x y :
  StronglySorted le l → (i ≤ j)%nat → l !! i = Some x → l !! j = Some y →
  (x ≤ y)%nat.
Proof.
  intros Hl. revert i j. induction Hl as [|a l Hl IH Ha]; intros i j Hij Hx Hy.
  - done.
  - destruct i as [|i], j as [|j]; simpl in *; simplify_eq; [lia| |lia|].
    + rewrite Forall_forall in Ha. apply Ha. by apply list_elem_of_lookup_2 in Hy.
    + apply (IH i j); [lia|done|done].
Qed.

Lemma hops_reach g s v n : BfsLevels.hops g s v n → reach g s v.
Proof.
  induction 1 as [|u v n _ IH Hedge]; [done|]. by apply rtc_r with u.
Qed.

Lemma reach_hops g s v : reach g s v → ∃ n, BfsLevels.hops g s v n.
Proof.
  intros H%rtc_nsteps. destruct H as [n H]. exists n.
  revert v H. induction n as [|n IH]; intros v H.
  - inversion H; subst. constructor.
  - apply nsteps_inv_r in H as (u & Hu & Huv).
    apply BfsLevels.hops_step with u; auto.
Qed.

Lemma dist_unique g s v n n' :
  BfsLevels.dist g s v n → BfsLevels.dist g s v n' → n = n'.
Proof.
  intros [H1 Hmin1] [H2 Hmin2].
  specialize (Hmin1 n' H2). specialize (Hmin2 n H1). lia.
Qed.

Lemma levels_init g start :
  BfsLevels.inv g start (λ _, 0%nat) [] (BFS.init start).
Proof.
  split; simpl.
  - intros v ->%list_elem_of_singleton. constructor.
  - repeat constructor.
  - intros c v _ _. lia.
  - intros u v Hu. by apply elem_of_nil in Hu.
  - intros e He. by apply elem_of_nil in He.
  - done.
Qed.

Lemma levels_step g start lvl processed st c q adj :
  BFS.inv g start processed st → BfsLevels.inv g start lvl processed st →
  BFS.queue st = c :: q → g !! c = Some adj →
  ∃ lvl', BfsLevels.inv g start lvl' (processed ++ [c])
            (BFS.pop0 (BFS.scan c adj st)).
Proof.
  intros [Hsp Hnd Htg Hsrc Hdone Hr Hhd] [Hhops Hsorted Hwin Hldone Hev Hst] Hq Hc.
  destruct (bfs_scan_spec c adj st) as (new & Hq' & Hv' & Ho' & Hnd' & Hsub & Hcov).
  specialize (Hnd' Hnd).
  assert (∀ v, v ∈ new → v ∉ BFS.bfs_visited st) as Hfresh.
  { intros v Hv Hin. apply NoDup_app in Hnd' as (_ & Hdisj & _).
    by apply (Hdisj v). }
  assert (c ∈ BFS.bfs_visited st) as Hcin.
  { rewrite Hsp, Hq. apply elem_of_app. right. by left. }
  assert (start ∈ BFS.bfs_visited st) as Hsin.
  { rewrite <- Htg. destruct (BFS.order_visited st) as [|e l]; [done|].
    injection Hhd as ->. by left. }
  set (lvl' := λ v, if decide (v ∈ new) then S (lvl c) else lvl v).
  assert (∀ v, v ∈ BFS.bfs_visited st → lvl' v = lvl v) as Hold.
  { intros v Hv. unfold lvl'. rewrite decide_False; [done|].
    intros Hn. by apply (Hfresh v). }
  assert (∀ v, v ∈ new → lvl' v = S (lvl c)) as Hnew.
  { intros v Hv. unfold lvl'. by rewrite decide_True. }
  assert (∀ v, v ∈ new → edge g c v) as Hedge.
  { intros v Hv. apply Hsub, list_elem_of_fmap in Hv as ([w v'] & -> & Hin).
    by exists adj, w. }
  assert (∀ v, v ∈ BFS.bfs_visited st → (lvl v ≤ S (lvl c))%nat) as Hwin'.
  { intros v Hv. apply Hwin; [|done]. by rewrite Hq. }
  exists lvl'. split; simpl.
  - intros v. rewrite Hv'. intros [Hv|Hv]%elem_of_app.
    + rewrite Hold by done. by apply Hhops.
    + rewrite Hnew by done. apply BfsLevels.hops_step with c; [|by apply Hedge].
      by apply Hhops.
  - rewrite Hv', fmap_app. apply StronglySorted_app. split_and!.
    + intros x1 x2 (u & -> & Hu)%list_elem_of_fmap (v & -> & Hv)%list_elem_of_fmap.
      rewrite (Hold u Hu), (Hnew v Hv). by apply Hwin'.
    + rewrite (Forall_fmap_ext_1 lvl' lvl); [done|]. by apply Forall_forall.
    + rewrite (Forall_fmap_ext_1 lvl' (λ _, S (lvl c))) by by apply Forall_forall.
      clear. induction new as [|x new IH]; simpl; [constructor|].
      constructor; [done|]. apply Forall_forall. intros y (? & -> & _)%list_elem_of_fmap. done.
  - intros c' v Hhead. rewrite Hv'. rewrite Hq', Hq in Hhead. simpl in Hhead.
    assert (lvl c ≤ lvl' c')%nat as Hcc'.
    { apply head_Some in Hhead as [l' Hl'].
      assert (c' ∈ q ++ new) as [Hin|Hin]%elem_of_app by (rewrite Hl'; by left).
      - rewrite Hold by (rewrite Hsp, Hq; apply elem_of_app; right; by right).
        rewrite Hsp, Hq, fmap_app, fmap_cons in Hsorted.
        apply StronglySorted_app_1_r, StronglySorted_cons in Hsorted as [Hall _].
        rewrite Forall_forall in Hall. apply Hall, list_elem_of_fmap. eauto.
      - rewrite Hnew by done. lia. }
    intros [Hv|Hv]%elem_of_app.
    + rewrite Hold by done. specialize (Hwin' v Hv). lia.
    + rewrite Hnew by done. lia.
  - intros u v [Hu| ->%list_elem_of_singleton]%elem_of_app Huv; rewrite Hv'.
    + destruct (Hldone u v Hu Huv) as [Hv Hle]. split.
      * apply elem_of_app. by left.
      * rewrite (Hold v Hv), (Hold u); [done|].
        rewrite Hsp. apply elem_of_app. by left.
    + assert (v ∈ BFS.bfs_visited st ++ new) as Hv.
      { apply Hcov. destruct Huv as (adj' & w & Hadj' & Hin).
        assert (adj' = adj) as -> by congruence.
        apply list_elem_of_fmap. by exists (w, v). }
      split; [done|]. rewrite (Hold c Hcin).
      apply elem_of_app in Hv as [Hv|Hv].
      * rewrite Hold by done. by apply Hwin'.
      * rewrite Hnew by done. lia.
  - rewrite Ho'. destruct (BFS.order_visited st) as [|e0 l] eqn:Ho; [done|].
    simpl. simpl in Hev. intros e [He|He]%elem_of_app.
    + destruct (Hev e He) as [He1 He2]. split; [done|].
      rewrite !Hold; [done| |].
      * apply Hsrc. by right.
      * rewrite <- Htg. apply list_elem_of_fmap. exists e. split; [done|by right].
    + apply list_elem_of_fmap in He as (v & -> & Hv). simpl.
      split; [by apply Hedge|]. by rewrite (Hnew v Hv), (Hold c Hcin).
  - by rewrite Hold.
Qed.

Lemma bfs_loop_levels g start fuel :
  ∀ lvl processed st order,
    BFS.inv g start processed st → BfsLevels.inv g start lvl processed st →
    BFS.loop fuel g st = Done order →
    ∃ lvl' visited,
      BFS.inv g start visited (BFS.State [] visited order) ∧
      BfsLevels.inv g start lvl' visited (BFS.State [] visited order).
Proof.
  assert (∀ lvl processed st,
            BFS.inv g start processed st → BfsLevels.inv g start lvl processed st →
            BFS.queue st = [] →
            ∃ lvl' visited,
              BFS.inv g start visited (BFS.State [] visited (BFS.order_visited st)) ∧
              BfsLevels.inv g start lvl' visited
                (BFS.State [] visited (BFS.order_visited st))) as Hend.
  { intros lvl processed st Hinv Hlev Hq.
    exists lvl, (BFS.bfs_visited st). split; [by apply bfs_inv_empty with processed|].
    pose proof (BFS.inv_split _ _ _ _ Hinv) as Hsp.
    rewrite Hq, app_nil_r in Hsp.
    destruct Hlev as [Hhops Hsorted Hwin Hldone Hev Hst]. split; simpl; auto.
    - intros c v Hc. done.
    - by rewrite <- Hsp in Hldone. }
  induction fuel as [|fuel IH]; intros lvl processed st order Hinv Hlev; simpl.
  - destruct (BFS.queue st) as [|c q] eqn:Hq; [|done].
    intros [= <-]. by apply (Hend lvl processed).
  - destruct (BFS.queue st) as [|c q] eqn:Hq.
    { intros [= <-]. by apply (Hend lvl processed). }
    destruct (g !! c) as [adj|] eqn:Hadj; [|done].
    destruct (levels_step g start lvl processed st c q adj Hinv Hlev Hq Hadj)
      as [lvl' Hlev'].
    apply (IH lvl' (processed ++ [c])); [|done]. by apply bfs_inv_step with q.
Qed.

(** With an empty queue the levels are the hop counts. *)
Lemma levels_final g start lvl visited order v n :
  BFS.inv g start visited (BFS.State [] visited order) →
  BfsLevels.inv g start lvl visited (BFS.State [] visited order) →
  BfsLevels.hops g start v n → v ∈ visited ∧ (lvl v ≤ n)%nat.
Proof.
  intros Hinv [Hhops Hsorted Hwin Hldone Hev Hst] Hv. simpl in *.
  induction Hv as [|u v n _ [Hu Hle] Hedge].
  - split; [|lia]. apply (bfs_inv_final g start visited order); [done|done].
  - destruct (Hldone u v Hu Hedge) as [Hv Hle']. split; [done|lia].
Qed.

(** X9. The trace of a run of [bfs] that returns is a tree of shortest
    paths, counted in edges: every event after the first goes along an edge
    of the graph from a node whose least number of edges from the start is
    some [n] to a node for which it is [n + 1]; and the targets of the
    events come in non-decreasing order of that number. *)
Theorem bfs_shortest_hops (g : graph) (start : Z) (fuel : nat)
    (order : list (Z * Z)) :
  BFS.bfs fuel g start = Done order →
  (∀ i u v, order !! S i = Some (u, v) →
     edge g u v ∧
     ∃ n, BfsLevels.dist g start u n ∧ BfsLevels.dist g start v (S n)) ∧
  (∀ i j ei ej ni nj,
     (i ≤ j)%nat → order !! i = Some ei → order !! j = Some ej →
     BfsLevels.dist g start ei.2 ni → BfsLevels.dist g start ej.2 nj →
     (ni ≤ nj)%nat).
Proof.
  intros Hrun.
  destruct (bfs_loop_levels g start fuel (λ _, 0%nat) [] (BFS.init start) order)
    as (lvl & visited & Hinv & Hlev); [apply bfs_inv_init|apply levels_init|done|].
  assert (∀ v, v ∈ visited → BfsLevels.dist g start v (lvl v)) as Hdist.
  { intros v Hv. split; [by apply (BfsLevels.li_hops _ _ _ _ _ Hlev)|].
    intros n' Hn'. by apply (levels_final g start lvl visited order v n'). }
  pose proof (BFS.inv_targets _ _ _ _ Hinv) as Htg. simpl in Htg.
  split.
  - intros i u v Hi. rewrite <- lookup_tail in Hi.
    apply list_elem_of_lookup_2 in Hi as He.
    destruct (BfsLevels.li_events _ _ _ _ _ Hlev (u, v) He) as [Hedge Hl].
    simpl in *. split; [done|]. exists (lvl u).
    assert ((u, v) ∈ order) as Hin.
    { destruct order; [done|]. by right. }
    rewrite <- Hl. split; apply Hdist.
    + by apply (BFS.inv_sources _ _ _ _ Hinv (u, v)).
    + rewrite <- Htg. apply list_elem_of_fmap. by exists (u, v).
  - intros i j ei ej ni nj Hij Hi Hj Hni Hnj.
    assert (visited !! i = Some ei.2) as Hvi.
    { by rewrite <- Htg, list_lookup_fmap, Hi. }
    assert (visited !! j = Some ej.2) as Hvj.
    { by rewrite <- Htg, list_lookup_fmap, Hj. }
    rewrite (dist_unique _ _ _ _ _ Hni (Hdist _ (list_elem_of_lookup_2 _ _ _ Hvi))).
    rewrite (dist_unique _ _ _ _ _ Hnj (Hdist _ (list_elem_of_lookup_2 _ _ _ Hvj))).
    apply (StronglySorted_lookup_le (lvl <$> visited) i j);
      [apply (BfsLevels.li_sorted _ _ _ _ _ Hlev)|done| |].
    + by rewrite list_lookup_fmap, Hvi.
    + by rewrite list_lookup_fmap, Hvj.
Qed.

Lemma bfs_shortest_hops_witness :
  ∃ order,
    BFS.bfs 10 scenario 0 = Done order ∧
    (∀ i u v, order !! S i = Some (u, v) →
       edge scenario u v ∧
       ∃ n, BfsLevels.dist scenario 0 u n ∧ BfsLevels.dist scenario 0 v (S n)) ∧
    (∀ i j ei ej ni nj,
       (i ≤ j)%nat → order !! i = Some ei → order !! j = Some ej →
       BfsLevels.dist scenario 0 ei.2 ni → BfsLevels.dist scenario 0 ej.2 nj →
       (ni ≤ nj)%nat).
Proof.
  eexists. split; [vm_compute; reflexivity|].
  apply (bfs_shortest_hops scenario 0 10). vm_compute; reflexivity.
Defined.

(** ** What [dfs] visits *)

#[local] Arguments DFS.dfs : simpl never.

Section dfs_reach.
Variable g : graph.
Hypothesis Hclosed : closed g.

(** The loop over the neighbours [adjs] of [c], given what a call of [dfs]
    with [fuel] does. *)
Lemma dfs_loop_reach fuel c :
  (∀ a st,
     DFS.inv g st → a ∉ DFS.visited st → is_Some (g !! a) →
     c ∈ DFS.visited st →
     (size g - length (DFS.visited st) < fuel)%nat →
     ∃ st' newv body,
       DFS.dfs fuel g a c st = Done (Some (DFS.path st'), st') ∧
       DFS.visited st' = DFS.visited st ++ a :: newv ∧
       DFS.path st' = DFS.path st ++ a :: body ∧
       DFS.inv g st' ∧
       (∀ v, v ∈ a :: newv → reach g a v) ∧
       (∀ v u, v ∈ a :: newv → edge g v u → u ∈ DFS.visited st') ∧
       (∀ v, v ∈ newv → v ∈ body) ∧
       (g !! (-1) = None →
        length (a :: body) = (2 * length (a :: newv))%nat)) →
  ∀ adjs st,
    DFS.inv g st → c ∈ DFS.visited st →
    (∀ e, e ∈ adjs → edge g c e.2) →
    (size g - length (DFS.visited st) < fuel)%nat → (1 ≤ fuel)%nat →
    ∃ st' newv body,
      for_each (λ (adj : Z * Z) s, snd <$> DFS.dfs fuel g adj.2 c s) adjs st
        = Done st' ∧
      DFS.visited st' = DFS.visited st ++ newv ∧
      DFS.path st' = DFS.path st ++ body ∧
      DFS.inv g st' ∧
      (∀ v, v ∈ newv → reach g c v) ∧
      (∀ v u, v ∈ newv → edge g v u → u ∈ DFS.visited st') ∧
      (∀ e, e ∈ adjs → e.2 ∈ DFS.visited st') ∧
      (∀ v, v ∈ newv → v ∈ body) ∧
      (g !! (-1) = None → length body = (2 * length newv)%nat).
Proof.
  intros Hcall. induction adjs as [|[w a] adjs IH];
    intros st Hinv Hc Hadj Hfuel Hpos.
  - exists st, [], []. simpl. rewrite !app_nil_r. split_and!; auto.
    + intros v Hv. by apply elem_of_nil in Hv.
    + intros v u Hv. by apply elem_of_nil in Hv.
    + intros e He. by apply elem_of_nil in He.
  - assert (edge g c a) as Hedge by (apply (Hadj (w, a)); by left).
    assert (∀ e, e ∈ adjs → edge g c e.2) as Hadj'.
    { intros e He. apply Hadj. by right. }
    cbn [for_each]. simpl.
    destruct (decide (a ∈ DFS.visited st)) as [Hvis|Hnew].
    + destruct fuel as [|fuel]; [lia|].
      rewrite dfs_unfold, decide_True by done. simpl.
      destruct (IH st) as (st' & newv & body & Hrun & Hvis' & Hpath' & Hinv' & Hr & Hcl
                           & Hall & Hin & Hlen); auto.
      exists st', newv, body. split_and!; auto.
      intros e [->|He]%elem_of_cons; [|by apply Hall].
      simpl. rewrite Hvis'. apply elem_of_app. by left.
    + destruct (Hcall a st Hinv Hnew (Hclosed c a Hedge) Hc Hfuel)
        as (st1 & new1 & body1 & Hrun1 & Hvis1 & Hpath1 & Hinv1 & Hr1 & Hcl1
            & Hin1 & Hlen1).
      rewrite Hrun1. simpl.
      destruct (IH st1) as (st' & newv & body & Hrun & Hvis' & Hpath' & Hinv' & Hr & Hcl
                            & Hall & Hin & Hlen); auto.
      { rewrite Hvis1. apply elem_of_app. by left. }
      { rewrite Hvis1, length_app. simpl. lia. }
      exists st', ((a :: new1) ++ newv), ((a :: body1) ++ body).
      split_and!; auto.
      * rewrite Hvis', Hvis1. by rewrite <- !app_assoc.
      * rewrite Hpath', Hpath1. by rewrite <- !app_assoc.
      * intros v [Hv|Hv]%elem_of_app; [|by apply Hr].
        apply rtc_l with a; [done|]. by apply Hr1.
      * intros v u [Hv|Hv]%elem_of_app Hvu; [|by apply (Hcl v)].
        rewrite Hvis'. apply elem_of_app. left. by apply (Hcl1 v).
      * intros e [->|He]%elem_of_cons; [|by apply Hall].
        simpl. rewrite Hvis', Hvis1. apply elem_of_app. left.
        apply elem_of_app. right. by left.
      * intros v [[->|Hv]%elem_of_cons|Hv]%elem_of_app.
        -- by left.
        -- right. apply elem_of_app. left. by apply Hin1.
        -- right. apply elem_of_app. right. by apply Hin.
      * intros Hm. specialize (Hlen1 Hm). specialize (Hlen Hm).
        rewrite !length_app. simpl in *. lia.
Qed.

(** A call on a node [c] that is not yet visited. *)
Lemma dfs_call_reach fuel :
  ∀ c p st,
    DFS.inv g st → c ∉ DFS.visited st → is_Some (g !! c) →
    (p ≠ -1 → p ∈ DFS.visited st) →
    (size g - length (DFS.visited st) < fuel)%nat →
    ∃ st' newv body,
      DFS.dfs fuel g c p st = Done (Some (DFS.path st'), st') ∧
      DFS.visited st' = DFS.visited st ++ c :: newv ∧
      DFS.path st'
        = DFS.path st ++ c :: body ++ (if decide (p ≠ -1) then [p] else []) ∧
      DFS.inv g st' ∧
      (∀ v, v ∈ c :: newv → reach g c v) ∧
      (∀ v u, v ∈ c :: newv → edge g v u → u ∈ DFS.visited st') ∧
      (∀ v, v ∈ newv → v ∈ body) ∧
      (g !! (-1) = None → length body = (2 * length newv)%nat).
Proof.
  induction fuel as [|fuel IH]; intros c p st Hinv Hnew Hc Hp Hfuel; [lia|].
  destruct Hc as [adjs Hadjs].
  set (st1 := {| DFS.visited := DFS.visited st ++ [c];
                 DFS.path := DFS.path st ++ [c] |}).
  assert (DFS.inv g st1) as Hinv1.
  { destruct Hinv as [Hpath Hkeys Hnd]. split; simpl.
    - intros x [Hx| ->%list_elem_of_singleton]%elem_of_app; apply elem_of_app;
        [left; auto|right; by left].
    - intros x [Hx| ->%list_elem_of_singleton]%elem_of_app; [auto|eauto].
    - apply NoDup_app. split_and!; [done| |apply NoDup_singleton].
      intros x Hx ->%list_elem_of_singleton. done. }
  assert (length (DFS.visited st1) ≤ size g)%nat as Hsize.
  { apply NoDup_keys_length; [apply Hinv1|]. apply (DFS.inv_keys _ _ Hinv1). }
  simpl in Hsize. rewrite length_app in Hsize. simpl in Hsize.
  destruct (dfs_loop_reach fuel c) with (adjs := adjs) (st := st1)
    as (st2 & newv & body & Hrun & Hvis2 & Hpath2 & Hinv2 & Hr2 & Hcl2 & Hall2
        & Hin2 & Hlen2).
  { intros a st' Hinv' Ha Hag Hcv Hfuel'.
    destruct (IH a c st' Hinv' Ha Hag ltac:(done) Hfuel')
      as (st'' & new' & body' & Hrun' & Hvis' & Hpath' & Hinv'' & Hr' & Hcl'
          & Hin' & Hlen').
    exists st'', new', (body' ++ (if decide (c ≠ -1) then [c] else [])).
    split_and!; auto.
    - intros v Hv. apply elem_of_app. left. by apply Hin'.
    - intros Hm. specialize (Hlen' Hm).
      assert (c ≠ -1) as Hc1.
      { intros ->. apply (DFS.inv_keys _ _ Hinv') in Hcv as [? ?]. congruence. }
      rewrite decide_True by done. simpl. rewrite length_app. simpl. lia. }
  { done. }
  { simpl. apply elem_of_app. right. by left. }
  { intros e He. destruct e as [w a]. by exists adjs, w. }
  { simpl. rewrite length_app. simpl. lia. }
  { lia. }
  rewrite dfs_unfold, decide_False by done. rewrite Hadjs. fold st1.
  cbv zeta. rewrite Hrun. simpl.
  simpl in Hpath2, Hvis2.
  assert (∀ v u, v ∈ c :: newv → edge g v u → u ∈ DFS.visited st2) as Hcl.
  { intros v u [->|Hv]%elem_of_cons Hvu; [|by apply (Hcl2 v)].
    destruct Hvu as (adj' & w & Hadj' & Hin). assert (adj' = adjs) as -> by congruence.
    apply (Hall2 (w, u) Hin). }
  assert (∀ v, v ∈ c :: newv → reach g c v) as Hr.
  { intros v [->|Hv]%elem_of_cons; [done|by apply Hr2]. }
  destruct (decide (p ≠ -1)) as [Hp1|Hp1].
  - exists (DFS.append_path p st2), newv, body. simpl.
    split_and!; auto.
    + rewrite Hvis2. by rewrite <- app_assoc.
    + rewrite Hpath2. by rewrite <- !app_assoc.
    + destruct Hinv2 as [Hpath Hkeys Hnd]. split; simpl; auto.
      intros x [Hx| ->%list_elem_of_singleton]%elem_of_app; [auto|].
      rewrite Hvis2. apply elem_of_app. left. apply elem_of_app. left. auto.
  - exists st2, newv, body. split_and!; auto.
    + rewrite Hvis2. by rewrite <- app_assoc.
    + rewrite Hpath2, app_nil_r. by rewrite <- app_assoc.
Qed.
End dfs_reach.

(** The run that [update_dfs] starts. *)
Lemma dfs_path_reach (g : graph) (start : Z) :
  closed g → is_Some (g !! start) →
  ∃ st newv body,
    DFS.dfs_path (S (size g)) g start = Done (Some (DFS.path st), st) ∧
    DFS.visited st = start :: newv ∧
    DFS.path st = start :: body ∧
    DFS.inv g st ∧
    (∀ v, v ∈ DFS.visited st ↔ reach g start v) ∧
    (∀ v, v ∈ newv → v ∈ body) ∧
    (g !! (-1) = None → length body = (2 * length newv)%nat).
Proof.
  intros Hc Hs.
  destruct (dfs_call_reach g Hc (S (size g)) start (-1) (DFS.State [] []))
    as (st & newv & body & Hrun & Hvis & Hpath & Hinv & Hr & Hcl & Hin & Hlen).
  { split; simpl.
    - intros x Hx. by apply elem_of_nil in Hx.
    - intros x Hx. by apply elem_of_nil in Hx.
    - constructor. }
  { simpl. intros Hx. by apply elem_of_nil in Hx. }
  { done. }
  { intros H. done. }
  { simpl. lia. }
  rewrite decide_False in Hpath by (intros H; done).
  simpl in Hpath, Hvis. rewrite app_nil_r in Hpath.
  exists st, newv, body. split_and!; auto.
  intros v. split.
  - intros Hv. apply Hr. by rewrite <- Hvis.
  - assert (∀ a b, a ∈ DFS.visited st → reach g a b → b ∈ DFS.visited st)
      as Hclosure.
    { intros a b Ha Hab. induction Hab as [|a b c Hab _ IHab]; [done|].
      apply IHab. apply (Hcl a b); [by rewrite <- Hvis|done]. }
    apply Hclosure. rewrite Hvis. by left.
Qed.

(** *** The path is a walk *)

Lemma chain_snoc g l x y :
  DfsPath.chain g (l ++ [x]) → DfsPath.adjacent g x y →
  DfsPath.chain g (l ++ [x; y]).
Proof.
  intros Hl Hxy. induction l as [|a l IH]; simpl in *.
  - constructor; [done|constructor].
  - destruct l as [|b l]; simpl in *.
    + inversion Hl; subst. constructor; [done|]. constructor; [done|constructor].
    + inversion Hl; subst. constructor; [done|]. by apply IH.
Qed.

Lemma chain_join g l1 x l2 :
  DfsPath.chain g (l1 ++ [x]) → DfsPath.chain g (x :: l2) →
  DfsPath.chain g (l1 ++ x :: l2).
Proof.
  intros H1 H2. induction l1 as [|a l1 IH]; simpl in *; [done|].
  destruct l1 as [|b l1]; simpl in *.
  - inversion H1; subst. by constructor.
  - inversion H1; subst. constructor; [done|]. by apply IH.
Qed.

Lemma chain_lookup g l i x y :
  DfsPath.chain g l → l !! i = Some x → l !! S i = Some y →
  DfsPath.adjacent g x y.
Proof.
  intros Hl. revert i. induction Hl as [|a|a b l Hab Hl IH]; intros i Hx Hy.
  - done.
  - by destruct i.
  - destruct i as [|i]; simpl in *; [by simplify_eq|]. by apply (IH i).
Qed.

(** The entries of the visits from [c], after [c] itself, form a walk that
    comes back to [c]. *)
Lemma children_chain g c body :
  DFS.children g c body →
  DfsPath.chain g (c :: body) ∧ last (c :: body) = Some c.
Proof.
  intros H.
  apply (DfsPath.children_mut g
           (λ p c l, edge g p c →
                     DfsPath.chain g (p :: l) ∧ last (p :: l) = Some p)
           (λ c body, DfsPath.chain g (c :: body) ∧ last (c :: body) = Some c));
    [| | |exact H]; clear.
  - intros p c body _ [Hch Hlast] Hedge. split.
    + constructor; [by left|].
      apply last_Some in Hlast as [l' Heq]. rewrite app_comm_cons, Heq.
      rewrite <- app_assoc. simpl. apply chain_snoc; [by rewrite <- Heq|by right].
    + by rewrite !app_comm_cons, last_snoc.
  - intros c. split; [constructor|done].
  - intros c c' l body Hedge _ IHsub _ [Hch Hlast].
    destruct (IHsub Hedge) as [Hchl Hlastl]. split.
    + apply last_Some in Hlastl as [l' Heq].
      rewrite app_comm_cons, Heq, <- app_assoc. simpl.
      apply chain_join; [by rewrite <- Heq|done].
    + destruct body as [|b body] using rev_ind.
      * by rewrite app_nil_r.
      * rewrite app_comm_cons, last_snoc in Hlast.
        by rewrite (assoc_L (++)), app_comm_cons, last_snoc.
Qed.

(** X10. On a closed graph and for a start node of the graph, [dfs] returns
    the path and leaves in [visited] exactly the nodes that the start node
    reaches, each of them once and the start node first; the path names
    these nodes and no others. *)
Theorem dfs_visits_component (g : graph) (start : Z) :
  closed g → is_Some (g !! start) →
  ∃ fuel path st,
    (∀ fuel', (fuel ≤ fuel')%nat →
       DFS.dfs_path fuel' g start = Done (Some path, st)) ∧
    DFS.path st = path ∧
    NoDup (DFS.visited st) ∧ head (DFS.visited st) = Some start ∧
    (∀ v, v ∈ DFS.visited st ↔ reach g start v) ∧
    (∀ v, v ∈ path ↔ reach g start v).
Proof.
  intros Hc Hs.
  destruct (dfs_path_reach g start Hc Hs)
    as (st & newv & body & Hrun & Hvis & Hpath & Hinv & Hr & Hin & _).
  exists (S (size g)), (DFS.path st), st. split_and!.
  - intros fuel' Hle. unfold DFS.dfs_path. by apply dfs_fuel_mono with (S (size g)).
  - done.
  - apply Hinv.
  - by rewrite Hvis.
  - done.
  - intros v. rewrite <- Hr. split; [apply Hinv|].
    rewrite Hvis, Hpath. intros [->|Hv]%elem_of_cons; [by left|].
    right. by apply Hin.
Qed.

Lemma dfs_visits_component_witness :
  ∃ fuel path st,
    (∀ fuel', (fuel ≤ fuel')%nat →
       DFS.dfs_path fuel' scenario 0 = Done (Some path, st)) ∧
    DFS.path st = path ∧
    NoDup (DFS.visited st) ∧ head (DFS.visited st) = Some 0 ∧
    (∀ v, v ∈ DFS.visited st ↔ reach scenario 0 v) ∧
    (∀ v, v ∈ path ↔ reach scenario 0 v).
Proof.
  apply (dfs_visits_component scenario 0).
  - graph_check.
  - vm_compute. eauto.
Defined.

(** X11. On a closed graph in which no node is named [-1], and for a start
    node of the graph, the path that [dfs] returns is a closed walk: it
    begins and ends at the start node, any two consecutive entries are
    joined by an edge of the graph, and it has [2 * len(visited) - 1]
    entries. *)
Theorem dfs_path_walk (g : graph) (start : Z) :
  closed g → is_Some (g !! start) → g !! (-1) = None →
  ∃ fuel path st,
    (∀ fuel', (fuel ≤ fuel')%nat →
       DFS.dfs_path fuel' g start = Done (Some path, st)) ∧
    head path = Some start ∧ last path = Some start ∧
    (∀ i x y, path !! i = Some x → path !! S i = Some y →
       edge g x y ∨ edge g y x) ∧
    (length path + 1 = 2 * length (DFS.visited st))%nat.
Proof.
  intros Hc Hs Hm.
  destruct (dfs_path_reach g start Hc Hs)
    as (st & newv & body & Hrun & Hvis & Hpath & Hinv & _ & _ & Hlen).
  destruct (dfs_call_spec g Hc Hm (S (size g)) start (-1) (DFS.State [] []))
    as (st2 & body2 & newv2 & Hrun2 & Hpath2 & Hkids & _).
  { split; simpl.
    - intros x Hx. by apply elem_of_nil in Hx.
    - intros x Hx. by apply elem_of_nil in Hx.
    - constructor. }
  { simpl. intros Hx. by apply elem_of_nil in Hx. }
  { done. }
  { intros H. done. }
  { simpl. lia. }
  unfold DFS.dfs_path in Hrun. rewrite Hrun in Hrun2.
  injection Hrun2 as _ <-.
  rewrite decide_False in Hpath2 by (intros H; done).
  simpl in Hpath2. rewrite app_nil_r in Hpath2.
  destruct (children_chain g start body2 Hkids) as [Hch Hlast].
  exists (S (size g)), (DFS.path st), st. split_and!.
  - intros fuel' Hle. unfold DFS.dfs_path. by apply dfs_fuel_mono with (S (size g)).
  - by rewrite Hpath.
  - by rewrite Hpath2.
  - intros i x y Hx Hy. rewrite Hpath2 in Hx, Hy.
    apply (chain_lookup g _ i x y Hch Hx Hy).
  - rewrite Hpath, Hvis. simpl. specialize (Hlen Hm). lia.
Qed.

Lemma dfs_path_walk_witness :
  ∃ fuel path st,
    (∀ fuel', (fuel ≤ fuel')%nat →
       DFS.dfs_path fuel' scenario 0 = Done (Some path, st)) ∧
    head path = Some 0 ∧ last path = Some 0 ∧
    (∀ i x y, path !! i = Some x → path !! S i = Some y →
       edge scenario x y ∨ edge scenario y x) ∧
    (length path + 1 = 2 * length (DFS.visited st))%nat.
Proof.
  apply (dfs_path_walk scenario 0).
  - graph_check.
  - vm_compute. eauto.
  - vm_compute. reflexivity.
Defined.

(** ** The events of [update_dfs] *)

#[local] Arguments DfsOrder.order_loop : simpl never.

Lemma order_loop_cons x y l O :
  DfsOrder.order_loop (x :: y :: l) O
  = DfsOrder.order_loop (y :: l)
      (if decide ((y, x) ∈ O) then O else O ++ [(x, y)]).
Proof. reflexivity. Qed.

Lemma order_loop_app l1 x l2 O :
  DfsOrder.order_loop (l1 ++ x :: l2) O
  = DfsOrder.order_loop (x :: l2) (DfsOrder.order_loop (l1 ++ [x]) O).
Proof.
  revert O. induction l1 as [|a l1 IH]; intros O; [done|].
  destruct l1 as [|b l1].
  - simpl app. rewrite !order_loop_cons. done.
  - change ((a :: b :: l1) ++ x :: l2) with (a :: b :: (l1 ++ x :: l2)).
    change ((a :: b :: l1) ++ [x]) with (a :: b :: (l1 ++ [x])).
    rewrite !order_loop_cons. apply (IH _).
Qed.

Lemma tree_order_snoc g O e :
  DfsOrder.tree_order g O → (O ≠ [] → edge g e.1 e.2 ∧ e.1 ∈ O.*2) →
  DfsOrder.tree_order g (O ++ [e]).
Proof.
  intros HO He pre e' post Heq Hpre.
  destruct post as [|x post _] using rev_ind.
  - apply app_inj_tail in Heq as [-> ->]. by apply He.
  - rewrite app_comm_cons, (assoc_L (++)) in Heq.
    apply app_inj_tail in Heq as [-> _]. by apply (HO pre e' post).
Qed.

Section dfs_order.
Variable g : graph.
Hypothesis Hno_minus_one : g !! (-1) = None.

Local Abbreviation good := (DfsOrder.good g).

(** What the order loop makes of the entries that the visits from [c]
    append, for the order [O] built up to the last entry [c]. *)
Lemma dfs_loop_order fuel c :
  (∀ a st r st' O,
     DFS.dfs fuel g a c st = Done (r, st') →
     a ∉ DFS.visited st → c ∈ DFS.visited st → edge g c a → good st O →
     ∃ body O',
       DFS.path st' = DFS.path st ++ a :: body ++ [c] ∧
       DfsOrder.order_loop (c :: a :: body ++ [c]) O = O' ∧
       good st' O' ∧ O `prefix_of` O') →
  ∀ adjs st st' O,
    for_each (λ (adj : Z * Z) s, snd <$> DFS.dfs fuel g adj.2 c s) adjs st
      = Done st' →
    c ∈ DFS.visited st → (∀ e, e ∈ adjs → edge g c e.2) → good st O →
    ∃ body O',
      DFS.path st' = DFS.path st ++ body ∧
      last (c :: body) = Some c ∧
      DfsOrder.order_loop (c :: body) O = O' ∧
      good st' O' ∧ O `prefix_of` O'.
Proof.
  intros Hcall. induction adjs as [|[w a] adjs IH]; intros st st' O; cbn [for_each].
  - intros [= <-] Hc _ Hgood. exists [], O. rewrite app_nil_r.
    split_and!; done.
  - simpl. destruct (DFS.dfs fuel g a c st) as [[r st1]| |] eqn:Hrun; simpl;
      [|done|done].
    intros Hloop Hc Hadj Hgood.
    assert (edge g c a) as Hedge by (apply (Hadj (w, a)); by left).
    assert (∀ e, e ∈ adjs → edge g c e.2) as Hadj'.
    { intros e He. apply Hadj. by right. }
    destruct (decide (a ∈ DFS.visited st)) as [Hvis|Hnew].
    + destruct fuel as [|fuel]; [done|].
      rewrite dfs_unfold, decide_True in Hrun by done. injection Hrun as <- <-.
      by apply (IH st st' O).
    + destruct (Hcall a st r st1 O Hrun Hnew Hc Hedge Hgood)
        as (body1 & O1 & Hpath1 & Hord1 & Hgood1 & Hpre1).
      assert (c ∈ DFS.visited st1) as Hc1.
      { destruct Hgood as (HO & _), Hgood1 as (HO1 & _).
        rewrite <- HO1. rewrite <- HO in Hc.
        destruct Hpre1 as [k ->]. rewrite fmap_app. apply elem_of_app. by left. }
      destruct (IH st1 st' O1 Hloop Hc1 Hadj' Hgood1)
        as (body & O' & Hpath & Hlast & Hord & Hgood' & Hpre).
      exists ((a :: body1 ++ [c]) ++ body), O'. split_and!.
      * rewrite Hpath, Hpath1. by rewrite <- !app_assoc.
      * destruct body as [|b body _] using rev_ind.
        -- rewrite app_nil_r, !app_comm_cons. apply last_snoc.
        -- rewrite !app_comm_cons, last_snoc in Hlast.
           by rewrite (assoc_L (++)), !app_comm_cons, last_snoc.
      * rewrite <- Hord, <- Hord1.
        replace (c :: (a :: body1 ++ [c]) ++ body)
          with ((c :: a :: body1) ++ c :: body)
          by (simpl; by rewrite <- app_assoc).
        by rewrite order_loop_app.
      * done.
      * by etrans.
Qed.

Lemma dfs_call_order fuel :
  ∀ c p st r st' O,
    DFS.dfs fuel g c p st = Done (r, st') →
    c ∉ DFS.visited st → p ∈ DFS.visited st → edge g p c → good st O →
    ∃ body O',
      DFS.path st' = DFS.path st ++ c :: body ++ [p] ∧
      DfsOrder.order_loop (p :: c :: body ++ [p]) O = O' ∧
      good st' O' ∧ O `prefix_of` O'.
Proof.
  induction fuel as [|fuel IH]; intros c p st r st' O; [done|].
  rewrite dfs_unfold. intros Hrun Hnew Hp Hedge (HO & Hsrc & Htree & Hne).
  rewrite decide_False in Hrun by done.
  destruct (g !! c) as [adjs|] eqn:Hadjs; [|done]. simpl in Hrun.
  set (st1 := {| DFS.visited := DFS.visited st ++ [c];
                 DFS.path := DFS.path st ++ [c] |}) in Hrun.
  destruct (for_each _ adjs st1) as [st2| |] eqn:Hloop; [|done|done].
  simpl in Hrun.
  assert (p ≠ -1) as Hp1.
  { intros ->. destruct Hedge as (adj & w & Hadj & _). congruence. }
  rewrite decide_True in Hrun by done. injection Hrun as <- <-.
  set (O1 := O ++ [(p, c)]).
  assert ((c, p) ∉ O) as Hrev.
  { intros Hin. apply Hnew. by apply (Hsrc (c, p)). }
  destruct (dfs_loop_order fuel c (λ a st r st' O, IH a c st r st' O)
              adjs st1 st2 O1 Hloop)
    as (body & O2 & Hpath2 & Hlast2 & Hord2 & (HO2 & Hsrc2 & Htree2 & Hne2) & Hpre2).
  { simpl. apply elem_of_app. right. by left. }
  { intros e He. destruct e as [w a]. by exists adjs, w. }
  { subst O1. unfold DfsOrder.good. split_and!; simpl.
    - by rewrite fmap_app, HO.
    - intros e [He| ->%list_elem_of_singleton]%elem_of_app; apply elem_of_app;
        [left; by apply Hsrc|left; done].
    - apply tree_order_snoc; [done|]. intros _. simpl. split; [done|].
      by rewrite HO.
    - by destruct O. }
  exists body, O2. simpl in Hpath2. split_and!.
  - simpl. rewrite Hpath2. by rewrite <- !app_assoc.
  - rewrite order_loop_cons, decide_False by done. fold O1.
    apply last_Some in Hlast2 as [l' Heq].
    rewrite app_comm_cons, Heq, <- (assoc_L (++)). simpl.
    rewrite order_loop_app, <- Heq, Hord2, order_loop_cons.
    rewrite decide_True; [done|].
    destruct Hpre2 as [k ->]. apply elem_of_app. left.
    subst O1. apply elem_of_app. right. by left.
  - unfold DfsOrder.good. split_and!; simpl; [done| |done|done].
    intros e He. by apply Hsrc2.
  - etrans; [|done]. by exists [(p, c)].
Qed.
End dfs_order.

(** The order that [update_dfs] makes of a returned path. *)
Lemma dfs_order_returned (g : graph) (start : Z) (fuel : nat)
    (path : list Z) (st : DFS.state) :
  g !! (-1) = None →
  DFS.dfs_path fuel g start = Done (Some path, st) →
  DfsOrder.good g st (DfsOrder.order_of_path start path) ∧
  [(start, start)] `prefix_of` DfsOrder.order_of_path start path.
Proof.
  intros Hm. unfold DFS.dfs_path. destruct fuel as [|fuel]; [done|].
  rewrite dfs_unfold, decide_False by (simpl; by intros ?%elem_of_nil).
  destruct (g !! start) as [adjs|] eqn:Hadjs; [|done]. simpl.
  destruct (for_each _ adjs _) as [st2| |] eqn:Hloop; [|done|done]. simpl.
  intros [= <- <-].
  destruct (dfs_loop_order g fuel start
              (λ a st r st' O, dfs_call_order g Hm fuel a start st r st' O)
              adjs _ st2 [(start, start)] Hloop)
    as (body & O' & Hpath & _ & Hord & Hgood & Hpre).
  { simpl. by left. }
  { intros e He. destruct e as [w a]. by exists adjs, w. }
  { unfold DfsOrder.good. split_and!; simpl; [done| | |done].
    - intros e ->%list_elem_of_singleton. by left.
    - intros pre e post Heq Hpre.
      destruct pre as [|x pre]; [done|]. by destruct pre. }
  simpl in Hpath. unfold DfsOrder.order_of_path. by rewrite Hpath, Hord.
Qed.

(** X12. The events that [update_dfs] makes of a path that [dfs] returned
    (no node is named [-1]): the first event is [(start, start)], the
    targets of the events are the visited nodes, each once and in the order
    of their first visit, and every later event goes along an edge of the
    graph from a node that an earlier event targets. *)
Theorem dfs_animation_order (g : graph) (start : Z) (fuel : nat)
    (path : list Z) (st : DFS.state) :
  g !! (-1) = None →
  DFS.dfs_path fuel g start = Done (Some path, st) →
  (DfsOrder.order_of_path start path).*2 = DFS.visited st ∧
  DfsOrder.order_of_path start path !! 0%nat = Some (start, start) ∧
  ∀ i u v, DfsOrder.order_of_path start path !! S i = Some (u, v) →
    edge g u v ∧ ∃ j, (j ≤ i)%nat ∧ DFS.visited st !! j = Some u.
Proof.
  intros Hm Hrun.
  destruct (dfs_order_returned g start fuel path st Hm Hrun)
    as [(HO & Hsrc & Htree & Hne) Hpre].
  set (O' := DfsOrder.order_of_path start path) in *.
  split_and!.
  - done.
  - destruct Hpre as [k ->]. done.
  - intros i u v Hi.
    pose proof (take_drop_middle O' (S i) (u, v) Hi) as Hsplit.
    destruct (Htree (take (S i) O') (u, v) (drop (S (S i)) O')) as [Hedge Hsrc'].
    { done. }
    { apply lookup_lt_Some in Hi. destruct O'; [done|]. done. }
    split; [done|]. simpl in Hsrc'.
    rewrite fmap_take, HO in Hsrc'.
    apply list_elem_of_lookup in Hsrc' as [j Hj].
    exists j. apply lookup_take_Some in Hj as [Hj Hlt]. split; [lia|done].
Qed.

Lemma dfs_animation_order_witness :
  ∃ path st,
    DFS.dfs_path 5 scenario 0 = Done (Some path, st) ∧
    (DfsOrder.order_of_path 0 path).*2 = DFS.visited st ∧
    DfsOrder.order_of_path 0 path !! 0%nat = Some (0, 0) ∧
    ∀ i u v, DfsOrder.order_of_path 0 path !! S i = Some (u, v) →
      edge scenario u v ∧ ∃ j, (j ≤ i)%nat ∧ DFS.visited st !! j = Some u.
Proof.
  eexists _, _. split; [vm_compute; reflexivity|].
  apply (dfs_animation_order scenario 0 5).
  - vm_compute; reflexivity.
  - vm_compute; reflexivity.
Defined.

(** ** Every run of [dijk] that returns *)

Lemma frames_ok_snoc g anim order a b v :
  length anim = length order → last anim = Some a →
  Relaxation.frames_ok g anim order → Relaxation.relaxation g a b v →
  Relaxation.frames_ok g (anim ++ [b]) (order ++ [v]).
Proof.
  intros Hlen Hlast Hfr Hrel i x y Hx Hy.
  apply lookup_lt_Some in Hy as Hi. rewrite length_app in Hi. simpl in Hi.
  destruct (decide (S i = length anim)) as [Heq|Hne].
  - rewrite lookup_app_l in Hx by lia.
    rewrite last_lookup in Hlast.
    replace (pred (length anim)) with i in Hlast by lia.
    rewrite Heq, lookup_app_r, Nat.sub_diag in Hy by lia. simpl in Hy.
    exists v. split; [|by simplify_eq].
    by rewrite Heq, Hlen, lookup_app_r, Nat.sub_diag by lia.
  - rewrite lookup_app_l in Hx by lia. rewrite lookup_app_l in Hy by lia.
    destruct (Hfr i x y Hx Hy) as (u & Hu & Hr). exists u. split; [|done].
    rewrite lookup_app_l; [done|]. lia.
Qed.

Lemma run_inv_init g start : Relaxation.run_inv g start (Dijkstra.init g start).
Proof.
  split; simpl; try done.
  - constructor; [|constructor]. intros v d.
    destruct (decide (start = v)) as [->|Hne].
    + rewrite lookup_insert_eq. intros [= <-]. split; [unfold INF; lia|]. constructor.
    + rewrite lookup_insert_ne, lookup_fmap by done.
      destruct (g !! v); simpl; [|done]. intros [= <-]. split; [lia|done].
  - intros k u [= -> ->]%list_elem_of_singleton. exists 0.
    split; [apply lookup_insert_eq|constructor].
Qed.

Lemma run_inv_pop g start st x h :
  Relaxation.run_inv g start st → Dijkstra.heap st = x :: h →
  Relaxation.run_inv g start (Dijkstra.with_heap h st).
Proof.
  intros [Hlen Hlast Hhd Hst Hfr Hsnd Hheap] Hh. split; simpl; try done.
  intros k u Hin. apply (Hheap k). rewrite Hh. by right.
Qed.

Lemma run_inv_table g start st :
  Relaxation.run_inv g start st →
  Relaxation.table_sound g start (Dijkstra.dists st).
Proof.
  intros Hinv. pose proof (Relaxation.ri_sound _ _ _ Hinv) as Hall.
  pose proof (Relaxation.ri_last _ _ _ Hinv) as Hlast.
  rewrite Forall_forall in Hall. apply Hall.
  rewrite last_lookup in Hlast. by apply list_elem_of_lookup_2 in Hlast.
Qed.

(** One pass of the body of [for wt, node in graph[cur]]. *)
Lemma relax_run_inv g start cur wt node st st' :
  Relaxation.run_inv g start st → wedge g cur wt node →
  Relaxation.real g start (Dijkstra.dists st) cur →
  Dijkstra.relax cur (wt, node) st = Done st' →
  Relaxation.run_inv g start st' ∧
  Relaxation.real g start (Dijkstra.dists st') cur.
Proof.
  intros Hinv Hedge (dc & Hdc & Hwalk). unfold Dijkstra.relax. rewrite Hdc.
  destruct (Dijkstra.dists st !! node) as [dn|] eqn:Hdn; [|done].
  destruct (decide (dc + wt < dn)) as [Hlt|Hge]; intros [= <-].
  2:{ split; [done|]. by exists dc. }
  pose proof (run_inv_table _ _ _ Hinv) as Htab.
  destruct Hinv as [Hlen Hlast Hhd Hst Hfr Hsnd Hheap].
  assert (Dijkstra.walk g start node (dc + wt)) as Hnew.
  { by apply Dijkstra.walk_step with cur. }
  split; [split; simpl|simpl].
  - rewrite !length_app. simpl. lia.
  - apply last_snoc.
  - destruct (Dijkstra.animation_dists st); [done|]. done.
  - destruct (Dijkstra.order_visited st); [done|]. done.
  - apply frames_ok_snoc with (Dijkstra.dists st); [done|done|done|].
    by exists cur, wt, dc, dn.
  - apply Forall_app. split; [done|]. constructor; [|constructor].
    intros v d. destruct (decide (node = v)) as [->|Hne].
    + rewrite lookup_insert_eq. intros [= <-].
      destruct (Htab v dn Hdn) as [Hle _]. split; [lia|done].
    + rewrite lookup_insert_ne by done. apply Htab.
  - intros k u [[= -> ->]|Hin]%hpush_elem.
    + exists (dc + wt). by rewrite lookup_insert_eq.
    + destruct (decide (node = u)) as [->|Hne].
      * exists (dc + wt). by rewrite lookup_insert_eq.
      * destruct (Hheap k u Hin) as (d & Hd & Hw). exists d.
        by rewrite lookup_insert_ne.
  - destruct (decide (node = cur)) as [->|Hne].
    + exists (dc + wt). by rewrite lookup_insert_eq.
    + exists dc. by rewrite lookup_insert_ne.
Qed.

Lemma relax_pending g start cur wt node pre st st' :
  Relaxation.run_inv g start st →
  Dijkstra.pending_ok g st (Some cur) → Relaxation.scanned st cur pre →
  Dijkstra.relax cur (wt, node) st = Done st' →
  Dijkstra.pending_ok g st' (Some cur) ∧
  Relaxation.scanned st' cur (pre ++ [(wt, node)]).
Proof.
  intros Hinv Hpend Hscan. unfold Dijkstra.relax.
  destruct (Dijkstra.dists st !! cur) as [dc|] eqn:Hdc; [|done].
  destruct (Dijkstra.dists st !! node) as [dn|] eqn:Hdn; [|done].
  destruct (decide (dc + wt < dn)) as [Hlt|Hge]; intros [= <-].
  - pose proof (table_le_insert _ node dn (dc + wt) Hdn ltac:(lia)) as Hle.
    split.
    + intros u du Hu. simpl. destruct (decide (node = u)) as [->|Hne].
      * intros _ _. left. exists (dc + wt). simpl. apply hpush_elem. by left.
      * rewrite lookup_insert_ne by done. intros Hdu Hlt'.
        destruct (Hpend u du Hu Hdu Hlt') as [[k Hk]|Hset].
        -- left. exists k. simpl. apply hpush_elem. by right.
        -- right. eapply settled_mono; [done|done|]. by rewrite lookup_insert_ne.
    + destruct (decide (node = cur)) as [->|Hne].
      { left. exists (dc + wt). simpl. apply hpush_elem. by left. }
      destruct Hscan as [[k Hk]|Hpre].
      { left. exists k. simpl. apply hpush_elem. by right. }
      right. simpl. intros w v [Hin|[= -> ->]%list_elem_of_singleton]%elem_of_app.
      * destruct (Hpre w v Hin) as (du & dv & Hdu & Hdv & Hrel).
        destruct (Hle v dv Hdv) as (dv' & Hdv' & Hle').
        exists du, dv'. rewrite lookup_insert_ne by done.
        split_and!; [done|done|lia].
      * exists dc, (dc + wt). rewrite lookup_insert_ne by done.
        rewrite lookup_insert_eq. split_and!; [done|done|lia].
  - split; [done|]. destruct Hscan as [Hq|Hpre]; [by left|right].
    intros w v [Hin|[= -> ->]%list_elem_of_singleton]%elem_of_app; [by apply Hpre|].
    exists dc, dn. split_and!; [done|done|lia].
Qed.

Lemma scan_run_inv g start cur adj pre st st' :
  g !! cur = Some (pre ++ adj) →
  Relaxation.run_inv g start st →
  Relaxation.real g start (Dijkstra.dists st) cur →
  Dijkstra.pending_ok g st (Some cur) → Relaxation.scanned st cur pre →
  for_each (Dijkstra.relax cur) adj st = Done st' →
  Relaxation.run_inv g start st' ∧
  Dijkstra.pending_ok g st' (Some cur) ∧
  Relaxation.scanned st' cur (pre ++ adj).
Proof.
  revert pre st. induction adj as [|[wt node] adj IH];
    intros pre st Hg Hinv Hreal Hpend Hscan; cbn [for_each].
  - intros [= <-]. by rewrite app_nil_r.
  - destruct (Dijkstra.relax cur (wt, node) st) as [st1| |] eqn:Hrel; [|done|done].
    intros Hrun.
    assert (wedge g cur wt node) as Hedge.
    { exists (pre ++ (wt, node) :: adj). split; [done|].
      apply elem_of_app. right. by left. }
    destruct (relax_run_inv _ _ _ _ _ _ _ Hinv Hedge Hreal Hrel) as [Hinv1 Hreal1].
    destruct (relax_pending _ _ _ _ _ _ _ _ Hinv Hpend Hscan Hrel) as [Hpend1 Hscan1].
    rewrite (cons_middle _ pre adj), (assoc_L (++)).
    apply (IH _ st1); [|done|done|done|done|done]. by rewrite <- (assoc_L (++)).
Qed.

Lemma loop_run_inv fuel g start st anim order :
  Relaxation.run_inv g start st → Dijkstra.pending_ok g st None →
  Dijkstra.loop fuel g st = Done (anim, order) →
  ∃ st', Relaxation.run_inv g start st' ∧ Dijkstra.pending_ok g st' None ∧
         Dijkstra.heap st' = [] ∧
         anim = Dijkstra.animation_dists st' ∧ order = Dijkstra.order_visited st'.
Proof.
  revert st. induction fuel as [|fuel IH]; intros st Hinv Hpend; simpl.
  - destruct (Dijkstra.heap st) as [|[k cur] h] eqn:Hh; simpl; [|done].
    intros [= <- <-]. by exists st.
  - destruct (Dijkstra.heap st) as [|[k cur] h] eqn:Hh; simpl.
    { intros [= <- <-]. by exists st. }
    destruct (g !! cur) as [adj|] eqn:Hadj; [|done].
    destruct (for_each _ _ _) as [st1| |] eqn:Hscan; [|done|done].
    apply (scan_run_inv g start cur adj []) in Hscan as (Hinv1 & Hpend1 & Hscan1).
    + apply IH; [done|]. intros u du _ Hdu Hlt.
      destruct (decide (u = cur)) as [->|Hne].
      * destruct Hscan1 as [Hq|Hall]; [by left|right].
        intros w v (adj' & Hadj' & Hin). assert (adj' = adj) as -> by congruence.
        apply (Hall w v Hin).
      * apply (Hpend1 u du); [by intros [= ->]|done|done].
    + done.
    + by apply run_inv_pop with (k, cur).
    + apply (Relaxation.ri_heap _ _ _ Hinv k). rewrite Hh. by left.
    + intros u du Hu Hdu Hlt. simpl in *.
      destruct (Hpend u du ltac:(done) Hdu Hlt) as [[k' Hk']|Hset]; [|by right].
      left. exists k'. simpl. rewrite Hh in Hk'.
      apply elem_of_cons in Hk' as [[= -> ->]|Hk']; [done|done].
    + right. intros w v Hin. by apply elem_of_nil in Hin.
Qed.

Lemma pending_init g start : Dijkstra.pending_ok g (Dijkstra.init g start) None.
Proof.
  intros u du _. simpl. destruct (decide (start = u)) as [->|Hne].
  - intros _ _. left. exists 0. simpl. by left.
  - rewrite lookup_insert_ne, lookup_fmap by done.
    destruct (g !! u); simpl; [|done]. intros [= <-]. lia.
Qed.

(** What a returned run leaves behind. *)
Lemma dijk_returned g start fuel anim order :
  Dijkstra.dijk fuel g start = Done (anim, order) →
  ∃ st', Relaxation.run_inv g start st' ∧ Dijkstra.pending_ok g st' None ∧
         Dijkstra.heap st' = [] ∧
         anim = Dijkstra.animation_dists st' ∧ order = Dijkstra.order_visited st'.
Proof.
  apply loop_run_inv; [apply run_inv_init|apply pending_init].
Qed.

(** With an empty heap no edge out of a reached node can be relaxed. *)
Lemma final_settled g start st u du :
  Relaxation.run_inv g start st → Dijkstra.pending_ok g st None →
  Dijkstra.heap st = [] → Dijkstra.dists st !! u = Some du → du ≠ INF →
  Dijkstra.settled g (Dijkstra.dists st) u.
Proof.
  intros Hinv Hpend Hh Hdu Hne.
  destruct (run_inv_table _ _ _ Hinv u du Hdu) as [Hle _].
  destruct (Hpend u du ltac:(done) Hdu ltac:(lia)) as [[k Hk]|Hset]; [|done].
  rewrite Hh in Hk. by apply elem_of_nil in Hk.
Qed.

(** X13. The frames of a run of [dijk] that returns, on any graph: the first
    snapshot is the initial table (0 at the start, [INF] at every other
    key) and the first recorded node is the start; every later snapshot is
    its predecessor with one entry lowered, the entry of the node recorded
    at the same index, to the predecessor's entry of some node [cur] plus
    the weight of an edge from [cur] to that node. *)
Theorem dijk_frames (g : graph) (start : Z) (fuel : nat)
    (anim : list (gmap Z Z)) (order : list Z) :
  Dijkstra.dijk fuel g start = Done (anim, order) →
  anim !! 0%nat = Some (<[start := 0]> ((λ _, INF) <$> g)) ∧
  order !! 0%nat = Some start ∧
  ∀ i a b, anim !! i = Some a → anim !! S i = Some b →
    ∃ v cur wt dc dv,
      order !! S i = Some v ∧ wedge g cur wt v ∧
      a !! cur = Some dc ∧ a !! v = Some dv ∧ dc + wt < dv ∧
      b = <[v := dc + wt]> a.
Proof.
  intros (st & Hinv & _ & _ & -> & ->)%dijk_returned.
  destruct Hinv as [_ _ Hhd Hst Hfr _ _].
  rewrite head_lookup in Hhd. rewrite head_lookup in Hst.
  split_and!; [done|done|]. intros i a b Ha Hb.
  destruct (Hfr i a b Ha Hb) as (v & Hv & cur & wt & dc & dv & H).
  by exists v, cur, wt, dc, dv.
Qed.

Lemma dijk_frames_witness :
  ∃ anim order,
    Dijkstra.dijk 10 scenario 0 = Done (anim, order) ∧
    anim !! 0%nat = Some (<[0 := 0]> ((λ _, INF) <$> scenario)) ∧
    order !! 0%nat = Some 0 ∧
    ∀ i a b, anim !! i = Some a → anim !! S i = Some b →
      ∃ v cur wt dc dv,
        order !! S i = Some v ∧ wedge scenario cur wt v ∧
        a !! cur = Some dc ∧ a !! v = Some dv ∧ dc + wt < dv ∧
        b = <[v := dc + wt]> a.
Proof.
  eexists _, _. split; [vm_compute; reflexivity|].
  apply (dijk_frames scenario 0 10). vm_compute; reflexivity.
Defined.

(** X14. Every number shown during a run of [dijk] that returns, on any
    graph: an entry of a snapshot is at most [INF], and an entry other than
    [INF] is the weight of a walk from the start to that node. *)
Theorem dijk_snapshots_sound (g : graph) (start : Z) (fuel : nat)
    (anim : list (gmap Z Z)) (order : list Z) (i : nat) (m : gmap Z Z)
    (v d : Z) :
  Dijkstra.dijk fuel g start = Done (anim, order) →
  anim !! i = Some m → m !! v = Some d →
  d ≤ INF ∧ (d ≠ INF → Dijkstra.walk g start v d).
Proof.
  intros (st & Hinv & _ & _ & -> & ->)%dijk_returned Hm Hv.
  pose proof (Relaxation.ri_sound _ _ _ Hinv) as Hall.
  rewrite Forall_forall in Hall.
  apply (Hall m); [|done]. by apply list_elem_of_lookup_2 in Hm.
Qed.

Lemma dijk_snapshots_sound_witness :
  ∃ anim order m,
    Dijkstra.dijk 10 scenario 0 = Done (anim, order) ∧
    anim !! 3%nat = Some m ∧ m !! 2 = Some 8 ∧
    8 ≤ INF ∧ (8 ≠ INF → Dijkstra.walk scenario 0 2 8).
Proof.
  eexists _, _, _. split; [vm_compute; reflexivity|].
  split; [vm_compute; reflexivity|]. split; [vm_compute; reflexivity|].
  eapply (dijk_snapshots_sound scenario 0 10 _ _ 3%nat _ 2 8);
    vm_compute; reflexivity.
Defined.

(** X15. The last snapshot of a run of [dijk] that returns, on any graph,
    leaves nothing to relax: for every edge from a node [u] whose entry is
    not [INF] to a node [v], the entry of [v] is at most the entry of [u]
    plus the weight of the edge. *)
Theorem dijk_final_stable (g : graph) (start : Z) (fuel : nat)
    (anim : list (gmap Z Z)) (order : list Z) (m : gmap Z Z)
    (u w v du : Z) :
  Dijkstra.dijk fuel g start = Done (anim, order) →
  last anim = Some m → m !! u = Some du → du ≠ INF → wedge g u w v →
  ∃ dv, m !! v = Some dv ∧ dv ≤ du + w.
Proof.
  intros (st & Hinv & Hpend & Hh & -> & ->)%dijk_returned Hlast Hu Hne Hedge.
  rewrite (Relaxation.ri_last _ _ _ Hinv) in Hlast. injection Hlast as <-.
  destruct (final_settled g start st u du Hinv Hpend Hh Hu Hne w v Hedge)
    as (du' & dv & Hdu' & Hdv & Hle).
  exists dv. split; [done|]. simplify_eq. lia.
Qed.

Lemma dijk_final_stable_witness :
  ∃ anim order m,
    Dijkstra.dijk 10 scenario 0 = Done (anim, order) ∧
    last anim = Some m ∧ m !! 2 = Some 8 ∧
    ∃ dv, m !! 3 = Some dv ∧ dv ≤ 8 + 1.
Proof.
  eexists _, _, _. split; [vm_compute; reflexivity|].
  split; [vm_compute; reflexivity|]. split; [vm_compute; reflexivity|].
  eapply (dijk_final_stable scenario 0 10 _ _ _ 2 1 3 8).
  - vm_compute; reflexivity.
  - vm_compute; reflexivity.
  - vm_compute; reflexivity.
  - unfold INF. lia.
  - exists [(3, 1); (1, 3)]. split; [vm_compute; reflexivity|]. right. by left.
Defined.

(** X16. [dijk] returns on an undirected graph only when no reached node has
    an edge of negative weight: if the run returns, every edge at the start
    node, and every edge at a node whose entry in the last snapshot is not
    [INF], has a weight of at least 0. *)
Theorem dijk_negative_edge (g : graph) (start : Z) (fuel : nat)
    (anim : list (gmap Z Z)) (order : list Z) :
  symmetric g → Dijkstra.dijk fuel g start = Done (anim, order) →
  (∀ w v, wedge g start w v → 0 ≤ w) ∧
  ∀ m u du w v,
    last anim = Some m → m !! u = Some du → du ≠ INF → wedge g u w v → 0 ≤ w.
Proof.
  intros Hsym Hrun.
  destruct (dijk_returned _ _ _ _ _ Hrun) as (st & Hinv & Hpend & Hh & -> & ->).
  assert (∀ u du w v, Dijkstra.dists st !! u = Some du → du ≠ INF →
                      wedge g u w v → 0 ≤ w) as Hmain.
  { intros u du w v Hu Hne Hedge.
    destruct (decide (0 ≤ w)) as [|Hneg]; [done|exfalso].
    destruct (final_settled g start st u du Hinv Hpend Hh Hu Hne w v Hedge)
      as (du' & dv & Hdu' & Hdv & Hle).
    destruct (run_inv_table _ _ _ Hinv u du Hu) as [Hule _].
    assert (dv ≠ INF) as Hvne by (simplify_eq; lia).
    destruct (final_settled g start st v dv Hinv Hpend Hh Hdv Hvne w u
                (Hsym _ _ _ Hedge)) as (dv' & du'' & Hdv' & Hdu'' & Hle').
    simplify_eq. lia. }
  split.
  - intros w v Hedge.
    destruct (dijk_monotone_returned _ _ _ _ _ Hrun) as [Hmono Hhd].
    pose proof (Relaxation.ri_last _ _ _ Hinv) as Hlast.
    rewrite head_lookup in Hhd. rewrite last_lookup in Hlast.
    destruct (mono_trace_le _ 0 _ _ _ Hmono ltac:(lia) Hhd Hlast start 0)
      as (d & Hd & Hle).
    { simpl. apply lookup_insert_eq. }
    apply (Hmain start d w v Hd); [unfold INF; lia|done].
  - intros m u du w v Hlast Hu Hne Hedge.
    rewrite (Relaxation.ri_last _ _ _ Hinv) in Hlast. injection Hlast as <-.
    by apply (Hmain u du w v).
Qed.

Lemma dijk_negative_edge_witness :
  ∃ anim order,
    Dijkstra.dijk 10 scenario 0 = Done (anim, order) ∧
    (∀ w v, wedge scenario 0 w v → 0 ≤ w) ∧
    ∀ m u du w v,
      last anim = Some m → m !! u = Some du → du ≠ INF →
      wedge scenario u w v → 0 ≤ w.
Proof.
  eexists _, _. split; [vm_compute; reflexivity|].
  eapply (dijk_negative_edge scenario 0 10).
  - graph_check.
  - vm_compute; reflexivity.
Defined.

(** ** The graph that [create_networkx_graph] builds *)

Lemma reset_lookup nodes (adj : graph) k :
  Build.reset nodes adj !! k = if decide (k ∈ nodes) then Some [] else adj !! k.
Proof.
  unfold Build.reset. revert adj. induction nodes as [|n nodes IH]; intros adj; simpl.
  - by destruct (decide (k ∈ [])) as [?%elem_of_nil|].
  - rewrite IH. destruct (decide (k ∈ nodes)) as [Hin|Hnin].
    + destruct (decide (k ∈ n :: nodes)) as [|Hn]; [done|].
      exfalso. apply Hn. by right.
    + destruct (decide (n = k)) as [->|Hne].
      * rewrite lookup_insert_eq.
        destruct (decide (k ∈ k :: nodes)) as [|Hn]; [done|].
        exfalso. apply Hn. by left.
      * rewrite lookup_insert_ne by done.
        destruct (decide (k ∈ n :: nodes)) as [[->|?]%elem_of_cons|]; done.
Qed.

Lemma append_entry_spec adj u e adj' :
  Build.append_entry adj u e = Done adj' →
  is_Some (adj !! u) ∧
  (∀ x w y, wedge adj' x w y ↔ wedge adj x w y ∨ (x = u ∧ (w, y) = e)) ∧
  (∀ k, is_Some (adj' !! k) ↔ is_Some (adj !! k)).
Proof.
  unfold Build.append_entry. destruct (adj !! u) as [l|] eqn:Hu; [|done].
  intros [= <-]. split_and!; [done| |].
  - intros x w y. unfold wedge. destruct (decide (u = x)) as [->|Hne].
    + rewrite lookup_insert_eq. split.
      * intros (l' & [= <-] & [Hin| ->%list_elem_of_singleton]%elem_of_app); eauto.
      * intros [(l' & Hl' & Hin)|[_ He]].
        -- exists (l ++ [e]). simplify_eq. split; [done|]. apply elem_of_app. by left.
        -- exists (l ++ [e]). split; [done|]. rewrite He. apply elem_of_app.
           right. by left.
    + rewrite lookup_insert_ne by done. split; [by left|].
      intros [?|[-> _]]; done.
  - intros k. destruct (decide (u = k)) as [->|Hne].
    + rewrite lookup_insert_eq, Hu. split; eauto.
    + by rewrite lookup_insert_ne.
Qed.

Section create.
Variable weight_of : Z * Z → Z * Z → exn + Z.
Variable position : gmap Z (Z * Z).

Lemma add_edge_lists edge adj labels adj' labels' :
  Build.add_edge weight_of position edge (adj, labels) = Done (adj', labels') →
  Build.lists adj labels →
  ∃ w,
    labels' = labels ++ [(edge.1.1, edge.1.2, w)] ∧
    ((∀ p q w', weight_of p q = inr w' → 0 ≤ w') → 0 ≤ w) ∧
    Build.placed position edge ∧
    is_Some (adj !! edge.1.1) ∧ is_Some (adj !! edge.1.2) ∧
    Build.lists adj' labels' ∧
    (∀ k, is_Some (adj' !! k) ↔ is_Some (adj !! k)).
Proof.
  unfold Build.add_edge. intros Hrun Hlists.
  destruct (position !! edge.1.1) as [p1|] eqn:Hp1; [|done].
  destruct (position !! edge.1.2) as [p2|] eqn:Hp2; [|done].
  destruct (weight_of p1 p2) as [e|weight] eqn:Hwt; [done|].
  simpl in Hrun.
  destruct (Build.append_entry adj _ _) as [adj1| |] eqn:H1; [|done|done].
  simpl in Hrun.
  destruct (Build.append_entry adj1 _ _) as [adj2| |] eqn:H2; [|done|done].
  simpl in Hrun. injection Hrun as <- <-.
  apply append_entry_spec in H1 as (Hk1 & Hw1 & Hd1).
  apply append_entry_spec in H2 as (Hk2 & Hw2 & Hd2).
  exists weight. split_and!; auto.
  - intros Hnn. by apply (Hnn p1 p2).
  - split; by rewrite ?Hp1, ?Hp2.
  - by apply Hd1.
  - intros u w v. rewrite Hw2, Hw1, (Hlists u w v), !elem_of_app.
    rewrite !list_elem_of_singleton. split.
    + intros [[[?|?]|[-> [= -> ->]]]|[-> [= -> ->]]]; auto.
    + intros [[?|[= -> -> ->]]|[?|[= -> -> ->]]]; auto.
  - intros k. by rewrite Hd2, Hd1.
Qed.

Lemma create_loop_spec edges adj labels adj' labels' :
  for_each (Build.add_edge weight_of position) edges (adj, labels)
    = Done (adj', labels') →
  Build.lists adj labels →
  Build.lists adj' labels' ∧
  (∀ k, is_Some (adj' !! k) ↔ is_Some (adj !! k)) ∧
  (∃ new, labels' = labels ++ new ∧ new.*1 = edges.*1 ∧
          ((∀ p q w, weight_of p q = inr w → 0 ≤ w) →
           Forall (λ e, 0 ≤ e.2) new)) ∧
  Forall (Build.placed position) edges ∧
  Forall (λ e, is_Some (adj !! e.1.1) ∧ is_Some (adj !! e.1.2)) edges.
Proof.
  revert adj labels. induction edges as [|edge edges IH]; intros adj labels;
    cbn [for_each].
  - intros [= <- <-] Hl. split_and!; auto.
    exists []. rewrite app_nil_r. split_and!; auto.
  - destruct (Build.add_edge _ _ _ _) as [[adj1 labels1]| |] eqn:Hadd; [|done|done].
    intros Hrun Hl.
    destruct (add_edge_lists _ _ _ _ _ Hadd Hl)
      as (w & -> & Hw & Hpl & Ha & Hb & Hl1 & Hd1).
    destruct (IH _ _ Hrun Hl1) as (Hl' & Hd' & (new & -> & Hnew & Hpos) & Hplaced & Hkeys).
    split_and!; auto.
    + intros k. by rewrite Hd', Hd1.
    + exists ((edge.1.1, edge.1.2, w) :: new). split_and!.
      * by rewrite <- app_assoc.
      * rewrite !fmap_cons, Hnew. f_equal. by destruct edge as [[a b] c].
      * intros Hnn. constructor; [by apply Hw|by apply Hpos].
    + constructor; [done|]. eapply Forall_impl; [done|].
      intros e [H1 H2]. by rewrite <- !Hd1.
Qed.
End create.

Lemma lists_empty nodes (adj0 : graph) :
  (∀ k, is_Some (adj0 !! k) → k ∈ nodes) →
  Build.lists (Build.reset nodes adj0) [].
Proof.
  intros Hold u w v. split.
  - intros (l & Hl & Hin). rewrite reset_lookup in Hl.
    destruct (decide (u ∈ nodes)) as [_|Hn].
    + injection Hl as <-. by apply elem_of_nil in Hin.
    + exfalso. apply Hn, Hold. eauto.
  - intros [H|H]; by apply elem_of_nil in H.
Qed.

Lemma reset_keys nodes (adj0 : graph) k :
  (∀ k, is_Some (adj0 !! k) → k ∈ nodes) →
  is_Some (Build.reset nodes adj0 !! k) ↔ k ∈ nodes.
Proof.
  intros Hold. rewrite reset_lookup.
  destruct (decide (k ∈ nodes)) as [Hin|Hn]; split; eauto. done.
Qed.

(** What a call that returns leaves behind. *)
Lemma create_returned weight_of position nodes edges (adj0 adj : graph) labels :
  (∀ k, is_Some (adj0 !! k) → k ∈ nodes) →
  Build.create_networkx_graph weight_of position nodes edges adj0
    = Done (adj, labels) →
  (∀ k, is_Some (adj !! k) ↔ k ∈ nodes) ∧
  closed adj ∧ symmetric adj ∧ Build.lists adj labels ∧
  labels.*1 = edges.*1 ∧
  ((∀ p q w, weight_of p q = inr w → 0 ≤ w) → nonneg adj).
Proof.
  intros Hold Hrun. unfold Build.create_networkx_graph in Hrun.
  destruct (create_loop_spec _ _ _ _ _ _ _ Hrun (lists_empty nodes adj0 Hold))
    as (Hl & Hd & (new & Hnew & Hfst & Hpos) & _ & Hkeys).
  simpl in Hnew. subst new.
  assert (∀ k, is_Some (adj !! k) ↔ k ∈ nodes) as Hdom.
  { intros k. by rewrite Hd, reset_keys. }
  assert (∀ a b w, (a, b, w) ∈ labels → a ∈ nodes ∧ b ∈ nodes) as Hends.
  { intros a b w Hin.
    assert ((a, b) ∈ edges.*1) as Hab.
    { rewrite <- Hfst. apply list_elem_of_fmap. by exists (a, b, w). }
    apply list_elem_of_fmap in Hab as (e & He & Hin').
    rewrite Forall_forall in Hkeys. destruct (Hkeys e Hin') as [Ha Hb].
    rewrite <- He in Ha, Hb. simpl in Ha, Hb.
    by rewrite !reset_keys in Ha, Hb. }
  split_and!; [done| | |done|done|].
  - intros u v (w & Hw)%edge_wedge. apply Hdom.
    apply Hl in Hw as [Hin|Hin]; by destruct (Hends _ _ _ Hin).
  - intros u w v Hw. apply Hl. apply Hl in Hw as [?|?]; auto.
  - intros Hnn u w v Hw. specialize (Hpos Hnn). rewrite Forall_forall in Hpos.
    apply Hl in Hw as [Hin|Hin]; apply (Hpos _ Hin).
Qed.

(** X17. The graph that [create_networkx_graph] builds, when no key of
    [adj_list] is left over from a node that is gone: its keys are the
    nodes; every listed neighbour is a key, and an edge is listed under both
    of its endpoints with the same weight; the adjacency lists hold exactly
    the edges of [edge_weights_labels], which has one entry for every
    element of [edges], in order; and no weight is negative when the weight
    computation gives none. *)
Theorem create_graph_well_formed (weight_of : Z * Z → Z * Z → exn + Z)
    (position : gmap Z (Z * Z)) (nodes : list Z)
    (edges : list Kruskal.edge_t) (adj0 adj : graph)
    (labels : list Kruskal.edge_t) :
  (∀ k, is_Some (adj0 !! k) → k ∈ nodes) →
  Build.create_networkx_graph weight_of position nodes edges adj0
    = Done (adj, labels) →
  (∀ k, is_Some (adj !! k) ↔ k ∈ nodes) ∧
  closed adj ∧ symmetric adj ∧
  (∀ u w v, wedge adj u w v ↔ (u, v, w) ∈ labels ∨ (v, u, w) ∈ labels) ∧
  labels.*1 = edges.*1 ∧
  ((∀ p q w, weight_of p q = inr w → 0 ≤ w) → nonneg adj).
Proof. apply create_returned. Qed.

Lemma create_graph_well_formed_witness :
  ∃ adj labels,
    Build.create_networkx_graph Build.int_weight Build.square [0; 1; 2; 3]
      Kruskal.scenario_edges ∅ = Done (adj, labels) ∧
    (∀ k, is_Some (adj !! k) ↔ k ∈ [0; 1; 2; 3]) ∧
    closed adj ∧ symmetric adj ∧
    (∀ u w v, wedge adj u w v ↔ (u, v, w) ∈ labels ∨ (v, u, w) ∈ labels) ∧
    labels.*1 = Kruskal.scenario_edges.*1 ∧
    ((∀ p q w, Build.int_weight p q = inr w → 0 ≤ w) → nonneg adj).
Proof.
  eexists _, _. split; [vm_compute; reflexivity|].
  apply (create_graph_well_formed Build.int_weight Build.square [0; 1; 2; 3]
           Kruskal.scenario_edges ∅).
  - intros k [x Hx]. by rewrite lookup_empty in Hx.
  - vm_compute; reflexivity.
Defined.

Lemma append_entry_Some (adj : graph) u e l :
  adj !! u = Some l → Build.append_entry adj u e = Done (<[u := l ++ [e]]> adj).
Proof. intros H. unfold Build.append_entry. by rewrite H. Qed.

Lemma add_edge_weighable weight_of position edge (adj : graph) labels :
  (∀ k, is_Some (position !! k) → is_Some (adj !! k)) →
  Build.weighable weight_of position edge →
  ∃ adj' labels',
    Build.add_edge weight_of position edge (adj, labels) = Done (adj', labels') ∧
    ∀ k, is_Some (position !! k) → is_Some (adj' !! k).
Proof.
  intros Hkeys (p1 & p2 & weight & Hp1 & Hp2 & Hwt).
  unfold Build.add_edge. rewrite Hp1, Hp2, Hwt.
  destruct (Hkeys edge.1.1 ltac:(eauto)) as [l1 Hl1].
  rewrite (append_entry_Some _ _ _ _ Hl1). simpl.
  set (adj1 := <[edge.1.1 := _]> adj).
  assert (∀ k, is_Some (adj !! k) → is_Some (adj1 !! k)) as Hd1.
  { intros k Hk. subst adj1. destruct (decide (edge.1.1 = k)) as [<-|Hne].
    - rewrite lookup_insert_eq. eauto.
    - by rewrite lookup_insert_ne. }
  destruct (Hd1 edge.1.2 (Hkeys edge.1.2 ltac:(eauto))) as [l2 Hl2].
  rewrite (append_entry_Some _ _ _ _ Hl2). simpl.
  eexists _, _. split; [done|]. intros k Hk.
  destruct (decide (edge.1.2 = k)) as [<-|Hne].
  - rewrite lookup_insert_eq. eauto.
  - rewrite lookup_insert_ne by done. auto.
Qed.

Lemma add_edge_stops weight_of position edge (adj : graph) labels e :
  Build.stops weight_of position edge e →
  Build.add_edge weight_of position edge (adj, labels) = Raise e.
Proof.
  unfold Build.add_edge.
  intros [[Hp1 ->]|[([p1 Hp1] & Hp2 & ->)|(p1 & p2 & Hp1 & Hp2 & Hwt)]].
  - by rewrite Hp1.
  - by rewrite Hp1, Hp2.
  - by rewrite Hp1, Hp2, Hwt.
Qed.

(** The body of the loop either can be run on [edge], or stops. *)
Lemma weighable_or_stops weight_of position edge :
  Build.weighable weight_of position edge ∨
  ∃ e, Build.stops weight_of position edge e.
Proof.
  unfold Build.weighable, Build.stops.
  destruct (position !! edge.1.1) as [p1|] eqn:Hp1; [|by eauto 10].
  destruct (position !! edge.1.2) as [p2|] eqn:Hp2; [|by eauto 10].
  destruct (weight_of p1 p2) as [e|weight] eqn:Hwt; [right|left]; eauto 10.
Qed.

Lemma stops_not_weighable weight_of position edge e :
  Build.stops weight_of position edge e →
  ¬ Build.weighable weight_of position edge.
Proof.
  intros Hstop (p1 & p2 & weight & Hp1 & Hp2 & Hwt).
  destruct Hstop as [[? _]|[(_ & ? & _)|(q1 & q2 & ? & ? & ?)]]; congruence.
Qed.

Lemma create_loop_outcome weight_of position edges (adj : graph) labels :
  (∀ k, is_Some (position !! k) → is_Some (adj !! k)) →
  (Forall (Build.weighable weight_of position) edges ∧
   ∃ adj' labels',
     for_each (Build.add_edge weight_of position) edges (adj, labels)
       = Done (adj', labels')) ∨
  (∃ pre edge post e,
     edges = pre ++ edge :: post ∧
     Forall (Build.weighable weight_of position) pre ∧
     Build.stops weight_of position edge e ∧
     for_each (Build.add_edge weight_of position) edges (adj, labels)
       = Raise e).
Proof.
  revert adj labels. induction edges as [|edge edges IH]; intros adj labels Hkeys.
  - left. split; [constructor|by eexists _, _].
  - cbn [for_each].
    destruct (weighable_or_stops weight_of position edge) as [Hok|[e Hstop]].
    + destruct (add_edge_weighable weight_of position edge adj labels Hkeys Hok)
        as (adj1 & labels1 & -> & Hkeys1).
      destruct (IH adj1 labels1 Hkeys1)
        as [[Hall Hrun]|(pre & edge' & post & e & -> & Hpre & Hstop & Hrun)].
      * left. split; [by constructor|done].
      * right. exists (edge :: pre), edge', post, e.
        split_and!; [done|by constructor|done|done].
    + right. exists [], edge, edges, e.
      rewrite (add_edge_stops _ _ _ _ _ _ Hstop).
      split_and!; [done|constructor|done|done].
Qed.

(** X18. The outcome of [create_networkx_graph], for positions that are
    positions of nodes.  It returns when, for every edge, both endpoints
    have a position and the weight computation gives a weight.  Otherwise
    the first edge for which that fails ends the call: with the lookup
    error of its first endpoint without a position, or else with the
    exception that the weight computation raises on it ([OverflowError]
    for positions too far apart).  The appends to the adjacency lists never
    fail. *)
Theorem create_graph_outcome (weight_of : Z * Z → Z * Z → exn + Z)
    (position : gmap Z (Z * Z)) (nodes : list Z)
    (edges : list Kruskal.edge_t) (adj0 : graph) :
  (∀ k, is_Some (position !! k) → k ∈ nodes) →
  (Forall (Build.weighable weight_of position) edges ∧
   ∃ adj labels,
     Build.create_networkx_graph weight_of position nodes edges adj0
       = Done (adj, labels)) ∨
  (∃ pre edge post e,
     edges = pre ++ edge :: post ∧
     Forall (Build.weighable weight_of position) pre ∧
     ((position !! edge.1.1 = None ∧ e = KeyError edge.1.1) ∨
      (is_Some (position !! edge.1.1) ∧ position !! edge.1.2 = None ∧
       e = KeyError edge.1.2) ∨
      (∃ p1 p2, position !! edge.1.1 = Some p1 ∧
                position !! edge.1.2 = Some p2 ∧ weight_of p1 p2 = inl e)) ∧
     Build.create_networkx_graph weight_of position nodes edges adj0
       = Raise e).
Proof.
  intros Hpos. apply create_loop_outcome.
  intros k Hk. rewrite reset_lookup. rewrite decide_True; [done|]. by apply Hpos.
Qed.

Lemma square_nodes k : is_Some (Build.square !! k) → k ∈ [0; 1; 2; 3].
Proof.
  intros [x Hx].
  destruct (decide (k = 0)) as [->|?]; [by left|].
  destruct (decide (k = 1)) as [->|?]; [right; by left|].
  destruct (decide (k = 2)) as [->|?]; [right; right; by left|].
  destruct (decide (k = 3)) as [->|?]; [right; right; right; by left|].
  exfalso. unfold Build.square in Hx. simpl in Hx.
  rewrite !lookup_insert_ne in Hx by done. by rewrite lookup_empty in Hx.
Qed.

Lemma create_graph_outcome_witness :
  (Forall (Build.weighable Build.int_weight Build.square)
     [(0, 1, 5); (1, 2, 3); (2, 7, 1)] ∧
   ∃ adj labels,
     Build.create_networkx_graph Build.int_weight Build.square [0; 1; 2; 3]
       [(0, 1, 5); (1, 2, 3); (2, 7, 1)] ∅ = Done (adj, labels)) ∨
  (∃ pre edge post e,
     [(0, 1, 5); (1, 2, 3); (2, 7, 1)] = pre ++ edge :: post ∧
     Forall (Build.weighable Build.int_weight Build.square) pre ∧
     ((Build.square !! edge.1.1 = None ∧ e = KeyError edge.1.1) ∨
      (is_Some (Build.square !! edge.1.1) ∧ Build.square !! edge.1.2 = None ∧
       e = KeyError edge.1.2) ∨
      (∃ p1 p2, Build.square !! edge.1.1 = Some p1 ∧
                Build.square !! edge.1.2 = Some p2 ∧
                Build.int_weight p1 p2 = inl e)) ∧
     Build.create_networkx_graph Build.int_weight Build.square [0; 1; 2; 3]
       [(0, 1, 5); (1, 2, 3); (2, 7, 1)] ∅ = Raise e).
Proof.
  apply (create_graph_outcome Build.int_weight Build.square [0; 1; 2; 3]
           [(0, 1, 5); (1, 2, 3); (2, 7, 1)] ∅).
  apply square_nodes.
Defined.

(** X19. On the graph that [create_networkx_graph] builds, [bfs], [dfs] and
    [dijk] return from every start node among the nodes ([dijk] when the
    weight computation gives no negative weight), and [bfs] and [dfs] visit
    the nodes that the edges of [edge_weights_labels] connect to the start
    node, and no others. *)
Theorem engines_return_on_built_graph (weight_of : Z * Z → Z * Z → exn + Z)
    (position : gmap Z (Z * Z)) (nodes : list Z)
    (edges : list Kruskal.edge_t) (adj0 adj : graph)
    (labels : list Kruskal.edge_t) (start : Z) :
  (∀ k, is_Some (adj0 !! k) → k ∈ nodes) →
  Build.create_networkx_graph weight_of position nodes edges adj0
    = Done (adj, labels) →
  start ∈ nodes →
  (∃ fuel order,
     (∀ fuel', (fuel ≤ fuel')%nat → BFS.bfs fuel' adj start = Done order) ∧
     ∀ v, v ∈ order.*2 ↔ Kruskal.conn labels start v) ∧
  (∃ fuel path st,
     (∀ fuel', (fuel ≤ fuel')%nat →
        DFS.dfs_path fuel' adj start = Done (Some path, st)) ∧
     ∀ v, v ∈ DFS.visited st ↔ Kruskal.conn labels start v) ∧
  ((∀ p q w, weight_of p q = inr w → 0 ≤ w) →
   ∃ fuel anim order,
     ∀ fuel', (fuel ≤ fuel')%nat →
       Dijkstra.dijk fuel' adj start = Done (anim, order)).
Proof.
  intros Hold Hrun Hstart.
  destruct (create_returned _ _ _ _ _ _ _ Hold Hrun)
    as (Hdom & Hclosed & Hsym & Hlists & _ & Hnonneg).
  assert (is_Some (adj !! start)) as Hs by by apply Hdom.
  assert (∀ v, reach adj start v ↔ Kruskal.conn labels start v) as Hconn.
  { intros v. rewrite <- (connected_reach adj start v Hsym).
    unfold connected, Kruskal.conn. split; apply rtc_subrel; intros x y.
    - intros [(w & Hw)%edge_wedge|(w & Hw)%edge_wedge]; apply Hlists in Hw.
      + destruct Hw as [?|?]; [left|right]; by exists w.
      + destruct Hw as [?|?]; [right|left]; by exists w.
    - intros [[w Hw]|[w Hw]].
      + left. apply edge_wedge. exists w. apply Hlists. by left.
      + right. apply edge_wedge. exists w. apply Hlists. by left. }
  split_and!.
  - destruct (bfs_loop_total adj start Hclosed Hs (size adj) [] (BFS.init start))
      as (order & visited & Hbfs & Hinv); [apply bfs_inv_init|simpl; lia|].
    exists (size adj), order. split.
    + intros fuel' Hle. unfold BFS.bfs.
      by apply bfs_loop_fuel_mono with (size adj).
    + intros v. rewrite <- Hconn.
      pose proof (BFS.inv_targets _ _ _ _ Hinv) as Htg. simpl in Htg.
      rewrite Htg. split.
      * apply (BFS.inv_reach _ _ _ _ Hinv).
      * by apply (bfs_inv_final adj start visited order).
  - destruct (dfs_path_reach adj start Hclosed Hs)
      as (st & newv & body & Hdfs & _ & _ & _ & Hvis & _).
    exists (S (size adj)), (DFS.path st), st. split.
    + intros fuel' Hle. unfold DFS.dfs_path in *.
      by apply dfs_fuel_mono with (S (size adj)).
    + intros v. by rewrite <- Hconn.
  - intros Hnn.
    destruct (dijk_terminates adj start Hclosed (Hnonneg Hnn) Hs)
      as (fuel & st & Hdijk & _).
    by exists fuel, (Dijkstra.animation_dists st), (Dijkstra.order_visited st).
Qed.

Lemma engines_return_on_built_graph_witness :
  ∃ adj labels,
    Build.create_networkx_graph Build.int_weight Build.square [0; 1; 2; 3]
      Kruskal.scenario_edges ∅ = Done (adj, labels) ∧
    (∃ fuel order,
       (∀ fuel', (fuel ≤ fuel')%nat → BFS.bfs fuel' adj 0 = Done order) ∧
       ∀ v, v ∈ order.*2 ↔ Kruskal.conn labels 0 v) ∧
    (∃ fuel path st,
       (∀ fuel', (fuel ≤ fuel')%nat →
          DFS.dfs_path fuel' adj 0 = Done (Some path, st)) ∧
       ∀ v, v ∈ DFS.visited st ↔ Kruskal.conn labels 0 v) ∧
    ((∀ p q w, Build.int_weight p q = inr w → 0 ≤ w) →
     ∃ fuel anim order,
       ∀ fuel', (fuel ≤ fuel')%nat →
         Dijkstra.dijk fuel' adj 0 = Done (anim, order)).
Proof.
  eexists _, _. split; [vm_compute; reflexivity|].
  apply (engines_return_on_built_graph Build.int_weight Build.square
           [0; 1; 2; 3] Kruskal.scenario_edges ∅).
  - intros k [x Hx]. by rewrite lookup_empty in Hx.
  - vm_compute; reflexivity.
  - by left.
Defined.

(** ** The frames of the animations *)

Lemma py_mod_spec {A} (itr : Z) (n : nat) (k : nat → Animation.drawn A) :
  n ≠ 0%nat →
  Animation.py_mod itr n k = k (Z.to_nat (itr `mod` Z.of_nat n)) ∧
  (Z.to_nat (itr `mod` Z.of_nat n) < n)%nat ∧
  Animation.py_mod (itr + Z.of_nat n) n k = Animation.py_mod itr n k.
Proof.
  intros Hn. unfold Animation.py_mod. rewrite !decide_False by done.
  pose proof (Z.mod_pos_bound itr (Z.of_nat n) ltac:(lia)).
  split_and!; [done|lia|].
  replace (itr + Z.of_nat n) with (itr + 1 * Z.of_nat n) by lia.
  by rewrite Z_mod_plus_full.
Qed.

(** What [select] shows of an order of discovery. *)
Lemma select_discovery g start order itr :
  Animation.discovery g start order →
  let i := Z.to_nat (itr `mod` Z.of_nat (length order)) in
  ∃ fr u v,
    Animation.select order itr start = Animation.Shown fr ∧
    Animation.select order (itr + Z.of_nat (length order)) start
      = Animation.Shown fr ∧
    order !! i = Some (u, v) ∧
    Animation.targeted_nodes fr = [v] ∧
    Animation.targeted_edges fr = [(u, v)] ∧
    Animation.already_visited_edges fr = take i order ∧
    (∀ x, x ∈ Animation.already_visited_nodes fr → reach g start x) ∧
    (i ≠ 0%nat →
     (v ∉ Animation.already_visited_nodes fr) ∧
     u ∈ Animation.already_visited_nodes fr ∧ edge g u v).
Proof.
  intros (Hhd & Hnd & Htree & Hreach) i.
  assert (length order ≠ 0%nat) as Hn by (by destruct order).
  destruct (py_mod_spec (A := Animation.frame) itr (length order)
              (λ targeted_index,
                 match order !! targeted_index with
                 | None => Animation.Failed IndexError
                 | Some e =>
                     Animation.Shown
                       {| Animation.targeted_nodes := [e.2];
                          Animation.targeted_edges := [e];
                          Animation.already_visited_nodes :=
                            start :: (take targeted_index order).*2;
                          Animation.already_visited_edges :=
                            take targeted_index order |}
                 end) Hn) as (Hsel & Hlt & Hper).
  fold i in Hsel, Hlt.
  destruct (lookup_lt_is_Some_2 order i Hlt) as [[u v] He].
  unfold Animation.select. rewrite Hper, Hsel, He.
  eexists _, u, v. split_and!; try done; simpl.
  - intros x [->|Hx]%elem_of_cons; [done|]. apply Hreach.
    apply list_elem_of_fmap in Hx as (e & -> & Hin).
    apply list_elem_of_fmap. exists e. split; [done|].
    by apply (subseteq_take i order).
  - intros Hi.
    pose proof (take_drop_middle order i (u, v) He) as Hsplit.
    assert (take i order ≠ []) as Hpre.
    { destruct order as [|e0 order]; [done|]. by destruct i. }
    destruct (Htree (take i order) (u, v) (drop (S i) order)) as [Hedge Hsrc];
      [done|done|]. simpl in Hedge, Hsrc.
    assert (start ∈ (take i order).*2) as Hstart.
    { destruct order as [|e0 order]; [done|]. injection Hhd as ->.
      destruct i; [done|]. by left. }
    split_and!; [|by right|done].
    intros [->|Hv]%elem_of_cons.
    + rewrite <- Hsplit, fmap_app, fmap_cons in Hnd.
      apply NoDup_app in Hnd as (_ & Hdisj & _).
      apply (Hdisj start Hstart). by left.
    + rewrite <- Hsplit, fmap_app, fmap_cons in Hnd.
      apply NoDup_app in Hnd as (_ & Hdisj & _).
      apply (Hdisj v Hv). by left.
Qed.

(** The trace of [bfs] is an order of discovery. *)
Lemma bfs_discovery g start fuel order :
  BFS.bfs fuel g start = Done order → Animation.discovery g start order.
Proof.
  intros Hrun.
  destruct (bfs_loop_levels g start fuel (λ _, 0%nat) [] (BFS.init start) order)
    as (lvl & visited & Hinv & Hlev); [apply bfs_inv_init|apply levels_init|done|].
  destruct Hinv as [_ Hnd Htg Hsrc _ Hr Hhd].
  destruct Hlev as [_ Hsorted _ _ Hev _]. simpl in *.
  split_and!; [done|by rewrite Htg| |by rewrite Htg].
  intros pre e post Heq Hpre.
  assert (e ∈ tail order) as Hin.
  { rewrite Heq. destruct pre as [|x pre]; [done|]. simpl.
    apply elem_of_app. right. by left. }
  destruct (Hev e Hin) as [Hedge Hl]. split; [done|].
  assert (e.1 ∈ visited) as Hvis.
  { apply (Hsrc e). rewrite Heq. apply elem_of_app. right. by left. }
  rewrite <- Htg, Heq, fmap_app, fmap_cons in Hvis, Hsorted.
  apply elem_of_app in Hvis as [?|Hvis]; [done|exfalso].
  rewrite fmap_app, fmap_cons in Hsorted.
  apply StronglySorted_app_1_r, StronglySorted_cons in Hsorted as [Hall _].
  apply elem_of_cons in Hvis as [Heq'|Hvis]; [rewrite Heq' in Hl; lia|].
  rewrite Forall_forall in Hall.
  assert (lvl e.2 ≤ lvl e.1)%nat; [|lia].
  apply Hall, list_elem_of_fmap. eauto.
Qed.

(** X20. Every frame of [update_bfs] on a closed graph, for a start node of
    the graph and any frame number, negative ones included: the frame is
    computed without an exception and repeats with the period
    [len(order)]; the nodes drawn as already visited are reached from the
    start node; and in every frame but the first of a period the targeted
    node is not yet among them, while the other end of the targeted edge,
    an edge of the graph, is. *)
Theorem update_bfs_frames (g : graph) (start : Z) :
  closed g → is_Some (g !! start) →
  ∃ fuel order,
    (∀ fuel', (fuel ≤ fuel')%nat → BFS.bfs fuel' g start = Done order) ∧
    ∀ fuel' itr, (fuel ≤ fuel')%nat →
      let i := Z.to_nat (itr `mod` Z.of_nat (length order)) in
      ∃ fr u v,
        Animation.update_bfs fuel' g itr start = Animation.Shown fr ∧
        Animation.update_bfs fuel' g (itr + Z.of_nat (length order)) start
          = Animation.Shown fr ∧
        order !! i = Some (u, v) ∧
        Animation.targeted_nodes fr = [v] ∧
        Animation.targeted_edges fr = [(u, v)] ∧
        Animation.already_visited_edges fr = take i order ∧
        (∀ x, x ∈ Animation.already_visited_nodes fr → reach g start x) ∧
        (i ≠ 0%nat →
         (v ∉ Animation.already_visited_nodes fr) ∧
         u ∈ Animation.already_visited_nodes fr ∧ edge g u v).
Proof.
  intros Hc Hs.
  destruct (bfs_loop_total g start Hc Hs (size g) [] (BFS.init start))
    as (order & visited & Hrun & _); [apply bfs_inv_init|simpl; lia|].
  exists (size g), order. split.
  - intros fuel' Hle. unfold BFS.bfs. by apply bfs_loop_fuel_mono with (size g).
  - intros fuel' itr Hle.
    assert (BFS.bfs fuel' g start = Done order) as Hrun'.
    { unfold BFS.bfs. by apply bfs_loop_fuel_mono with (size g). }
    unfold Animation.update_bfs. rewrite Hrun'.
    apply (select_discovery g start order itr).
    by apply bfs_discovery with fuel'.
Qed.

Lemma update_bfs_frames_witness :
  ∃ fuel order,
    (∀ fuel', (fuel ≤ fuel')%nat → BFS.bfs fuel' scenario 0 = Done order) ∧
    ∀ fuel' itr, (fuel ≤ fuel')%nat →
      let i := Z.to_nat (itr `mod` Z.of_nat (length order)) in
      ∃ fr u v,
        Animation.update_bfs fuel' scenario itr 0 = Animation.Shown fr ∧
        Animation.update_bfs fuel' scenario (itr + Z.of_nat (length order)) 0
          = Animation.Shown fr ∧
        order !! i = Some (u, v) ∧
        Animation.targeted_nodes fr = [v] ∧
        Animation.targeted_edges fr = [(u, v)] ∧
        Animation.already_visited_edges fr = take i order ∧
        (∀ x, x ∈ Animation.already_visited_nodes fr → reach scenario 0 x) ∧
        (i ≠ 0%nat →
         (v ∉ Animation.already_visited_nodes fr) ∧
         u ∈ Animation.already_visited_nodes fr ∧ edge scenario u v).
Proof.
  apply (update_bfs_frames scenario 0).
  - graph_check.
  - vm_compute. eauto.
Defined.

(** The order of [update_dfs] is an order of discovery. *)
Lemma dfs_discovery g start fuel path st :
  g !! (-1) = None →
  DFS.dfs_path fuel g start = Done (Some path, st) →
  (∀ v, v ∈ DFS.visited st → reach g start v) → NoDup (DFS.visited st) →
  Animation.discovery g start (DfsOrder.order_of_path start path).
Proof.
  intros Hm Hrun Hreach Hnd.
  destruct (dfs_order_returned g start fuel path st Hm Hrun)
    as [(HO & Hsrc & Htree & Hne) [k Hpre]].
  split_and!; [by rewrite Hpre|by rewrite HO|done|by rewrite HO].
Qed.

(** X21. Every frame of [update_dfs] on a closed graph without a node named
    [-1], for a start node of the graph and any frame number, negative ones
    included: the frame is computed without an exception and repeats with
    the period [len(order)]; the nodes drawn as already visited are reached
    from the start node; and in every frame but the first of a period the
    targeted node is not yet among them, while the other end of the targeted
    edge, an edge of the graph, is. *)
Theorem update_dfs_frames (g : graph) (start : Z) :
  closed g → is_Some (g !! start) → g !! (-1) = None →
  ∃ fuel path st,
    (∀ fuel', (fuel ≤ fuel')%nat →
       DFS.dfs_path fuel' g start = Done (Some path, st)) ∧
    ∀ fuel' itr, (fuel ≤ fuel')%nat →
      let order := DfsOrder.order_of_path start path in
      let i := Z.to_nat (itr `mod` Z.of_nat (length order)) in
      ∃ fr u v,
        Animation.update_dfs fuel' g itr start = Animation.Shown fr ∧
        Animation.update_dfs fuel' g (itr + Z.of_nat (length order)) start
          = Animation.Shown fr ∧
        order !! i = Some (u, v) ∧
        Animation.targeted_nodes fr = [v] ∧
        Animation.targeted_edges fr = [(u, v)] ∧
        Animation.already_visited_edges fr = take i order ∧
        (∀ x, x ∈ Animation.already_visited_nodes fr → reach g start x) ∧
        (i ≠ 0%nat →
         (v ∉ Animation.already_visited_nodes fr) ∧
         u ∈ Animation.already_visited_nodes fr ∧ edge g u v).
Proof.
  intros Hc Hs Hm.
  destruct (dfs_path_reach g start Hc Hs)
    as (st & newv & body & Hrun & _ & _ & Hinv & Hvis & _).
  exists (S (size g)), (DFS.path st), st. split.
  - intros fuel' Hle. unfold DFS.dfs_path in *.
    by apply dfs_fuel_mono with (S (size g)).
  - intros fuel' itr Hle.
    assert (DFS.dfs_path fuel' g start = Done (Some (DFS.path st), st)) as Hrun'.
    { unfold DFS.dfs_path in *. by apply dfs_fuel_mono with (S (size g)). }
    unfold Animation.update_dfs. rewrite Hrun'.
    apply (select_discovery g start _ itr).
    apply dfs_discovery with fuel' st; [done|done| |apply Hinv].
    intros v. apply Hvis.
Qed.

Lemma update_dfs_frames_witness :
  ∃ fuel path st,
    (∀ fuel', (fuel ≤ fuel')%nat →
       DFS.dfs_path fuel' scenario 0 = Done (Some path, st)) ∧
    ∀ fuel' itr, (fuel ≤ fuel')%nat →
      let order := DfsOrder.order_of_path 0 path in
      let i := Z.to_nat (itr `mod` Z.of_nat (length order)) in
      ∃ fr u v,
        Animation.update_dfs fuel' scenario itr 0 = Animation.Shown fr ∧
        Animation.update_dfs fuel' scenario (itr + Z.of_nat (length order)) 0
          = Animation.Shown fr ∧
        order !! i = Some (u, v) ∧
        Animation.targeted_nodes fr = [v] ∧
        Animation.targeted_edges fr = [(u, v)] ∧
        Animation.already_visited_edges fr = take i order ∧
        (∀ x, x ∈ Animation.already_visited_nodes fr → reach scenario 0 x) ∧
        (i ≠ 0%nat →
         (v ∉ Animation.already_visited_nodes fr) ∧
         u ∈ Animation.already_visited_nodes fr ∧ edge scenario u v).
Proof.
  apply (update_dfs_frames scenario 0).
  - graph_check.
  - vm_compute. eauto.
  - vm_compute. reflexivity.
Defined.

(** *** [update_dijk] *)

Lemma relabel_Num d d' : Animation.relabel d = Animation.Num d' ↔ d' = d ∧ d ≠ INF.
Proof.
  unfold Animation.relabel, INF. destruct (decide (d = 2000000000)); split.
  - done.
  - intros [_ ?]. done.
  - intros [= ->]. done.
  - intros [-> _]. done.
Qed.

Lemma relabel_Inf d : Animation.relabel d = Animation.Inf ↔ d = INF.
Proof.
  unfold Animation.relabel, INF. by destruct (decide (d = 2000000000)).
Qed.

(** X22. Every frame of [update_dijk] for a run of [dijk] that returns, and
    any frame number, negative ones included: the frame is computed without
    an exception and repeats with the period [len(order)]; a node is
    labelled ["Inf"] exactly when its entry in the snapshot is [INF]; every
    number shown as a label is below [INF] and is the weight of a walk from
    the start node to the labelled node; and in every frame but the first
    of a period the targeted node carries a number. *)
Theorem update_dijk_frames (g : graph) (start : Z) (fuel : nat)
    (anim : list (gmap Z Z)) (order : list Z) (itr : Z) :
  Dijkstra.dijk fuel g start = Done (anim, order) →
  let i := Z.to_nat (itr `mod` Z.of_nat (length anim)) in
  ∃ fr m v,
    Animation.update_dijk fuel g itr start = Animation.Shown fr ∧
    Animation.update_dijk fuel g (itr + Z.of_nat (length anim)) start
      = Animation.Shown fr ∧
    anim !! i = Some m ∧ order !! i = Some v ∧
    Animation.dijk_targeted_nodes fr = [v] ∧
    (∀ x, Animation.current_label fr !! x = Some Animation.Inf
          ↔ m !! x = Some INF) ∧
    (∀ x d, Animation.current_label fr !! x = Some (Animation.Num d) →
            m !! x = Some d ∧ d < INF ∧ Dijkstra.walk g start x d) ∧
    (i ≠ 0%nat → ∃ d, Animation.current_label fr !! v = Some (Animation.Num d)).
Proof.
  intros Hrun i.
  destruct (dijk_returned _ _ _ _ _ Hrun) as (st & Hinv & _ & _ & Ha & Ho).
  destruct Hinv as [Hlen _ Hhd _ Hfr Hsnd _]. rewrite <- Ha, <- Ho in *.
  assert (length anim ≠ 0%nat) as Hn by (by destruct anim).
  unfold Animation.update_dijk. rewrite Hrun.
  match goal with
  | |- context [Animation.py_mod itr (length anim) ?k] =>
      destruct (py_mod_spec itr (length anim) k Hn) as (Hsel & Hlt & Hper)
  end.
  fold i in Hsel, Hlt.
  destruct (lookup_lt_is_Some_2 anim i Hlt) as [m Hm].
  destruct (lookup_lt_is_Some_2 order i ltac:(lia)) as [v Hv].
  rewrite Hper, Hsel, Hm, Hv.
  assert (Relaxation.table_sound g start m) as Hsound.
  { rewrite Forall_forall in Hsnd. apply Hsnd. by apply list_elem_of_lookup_2 in Hm. }
  eexists _, m, v. split_and!; try done; simpl.
  - intros x. rewrite lookup_fmap. destruct (m !! x) as [d|]; simpl; [|done].
    split.
    + intros [= Hd]. by apply relabel_Inf in Hd as ->.
    + intros [= ->]. done.
  - intros x d. rewrite lookup_fmap. destruct (m !! x) as [d0|] eqn:Hx; simpl; [|done].
    intros [= Hd]. apply relabel_Num in Hd as [-> Hne].
    destruct (Hsound x d0 Hx) as [Hle Hw]. split_and!; [done|lia|by apply Hw].
  - intros Hi. destruct i as [|j] eqn:Ei; [done|].
    destruct (lookup_lt_is_Some_2 anim j ltac:(lia)) as [a Haj].
    destruct (Hfr j a m Haj Hm) as (v' & Hv' & cur & wt & dc & dv & _ & _ & Hdv & Hlt' & ->).
    assert (v' = v) as -> by congruence.
    assert (Relaxation.table_sound g start a) as Hsa.
    { rewrite Forall_forall in Hsnd. apply Hsnd. by apply list_elem_of_lookup_2 in Haj. }
    destruct (Hsa v dv Hdv) as [Hle _].
    exists (dc + wt). rewrite lookup_fmap, lookup_insert_eq. simpl. f_equal.
    apply relabel_Num. split; [done|lia].
Qed.

Lemma update_dijk_frames_witness :
  ∃ anim order,
    Dijkstra.dijk 10 scenario 0 = Done (anim, order) ∧
    let i := Z.to_nat ((-3) `mod` Z.of_nat (length anim)) in
    ∃ fr m v,
      Animation.update_dijk 10 scenario (-3) 0 = Animation.Shown fr ∧
      Animation.update_dijk 10 scenario (-3 + Z.of_nat (length anim)) 0
        = Animation.Shown fr ∧
      anim !! i = Some m ∧ order !! i = Some v ∧
      Animation.dijk_targeted_nodes fr = [v] ∧
      (∀ x, Animation.current_label fr !! x = Some Animation.Inf
            ↔ m !! x = Some INF) ∧
      (∀ x d, Animation.current_label fr !! x = Some (Animation.Num d) →
              m !! x = Some d ∧ d < INF ∧ Dijkstra.walk scenario 0 x d) ∧
      (i ≠ 0%nat →
       ∃ d, Animation.current_label fr !! v = Some (Animation.Num d)).
Proof.
  eexists _, _. split; [vm_compute; reflexivity|].
  apply (update_dijk_frames scenario 0 10 _ _ (-3)). vm_compute; reflexivity.
Defined.

(** *** [update_mst] *)

Lemma accepted_pairs_events (l : list (Kruskal.edge_t * bool)) :
  Animation.accepted_pairs
    ((λ ev : Kruskal.edge_t * bool, Animation.Event ev.1 ev.2) <$> l)
  = Animation.Shown
      ((λ e : Kruskal.edge_t, (e.1.1, e.1.2)) <$> Mst.accepted_edges l).
Proof.
  induction l as [|[e added] l IH]; [done|].
  rewrite fmap_cons. cbn [Animation.accepted_pairs]. rewrite IH. simpl.
  unfold Mst.accepted_edges. destruct added.
  - by rewrite filter_cons_True.
  - by rewrite filter_cons_False.
Qed.

Lemma mst_order_length trace :
  length (Animation.mst_order trace) = S (length trace).
Proof. unfold Animation.mst_order. rewrite length_app, length_fmap. simpl. lia. Qed.

Lemma mst_order_take trace i :
  (i ≤ length trace)%nat →
  take i (Animation.mst_order trace)
  = (λ ev : Kruskal.edge_t * bool, Animation.Event ev.1 ev.2) <$> take i trace.
Proof.
  intros Hi. unfold Animation.mst_order.
  rewrite take_app_le by (by rewrite length_fmap). by rewrite fmap_take.
Qed.

Lemma mst_select_spec trace edges i :
  (i ≤ length trace)%nat →
  Animation.mst_select (Animation.mst_order trace) edges i
  = Animation.Shown
      {| Animation.current_edge :=
           match trace !! i with
           | Some (e, _) => [(e.1.1, e.1.2)]
           | None => []
           end;
         Animation.mst_visited_edges :=
           (λ e : Kruskal.edge_t, (e.1.1, e.1.2))
             <$> Mst.accepted_edges (take i trace);
         Animation.edge_weight_dict := Animation.weight_dict edges |}.
Proof.
  intros Hi. unfold Animation.mst_select.
  rewrite mst_order_length, mst_order_take, accepted_pairs_events by done.
  simpl. rewrite Nat.sub_0_r.
  destruct (decide (i = length trace)) as [->|Hne].
  - by rewrite lookup_ge_None_2.
  - destruct (lookup_lt_is_Some_2 trace i ltac:(lia)) as [[e added] He].
    unfold Animation.mst_order.
    rewrite lookup_app_l by (rewrite length_fmap; lia).
    rewrite list_lookup_fmap, He. done.
Qed.

Lemma kruskals_pair {A} fuel (G : A) N edges :
  Kruskal.kruskals fuel G N edges
  = ((Kruskal.kruskals fuel G N edges).1, Kruskal.sort_by_weight edges).
Proof. reflexivity. Qed.

Lemma kruskals_sorted_again {A B} fuel (G : A) (G' : B) N edges :
  Kruskal.kruskals fuel G' N (Kruskal.sort_by_weight edges)
  = Kruskal.kruskals fuel G N edges.
Proof.
  unfold Kruskal.kruskals.
  by rewrite (sort_by_weight_id (Kruskal.sort_by_weight edges))
    by apply sort_by_weight_sorted.
Qed.

(** X23. Every frame of [update_mst], for [N >= 0] nodes, edges with
    endpoints in [0 .. N-1] and any frame number, negative ones included:
    the frame is computed without an exception and repeats with the period
    [len(order)], one more than the number of events; the call leaves the
    edge list sorted, and the same call on the objects it left gives the
    same frame and leaves them as they are; the edges drawn as visited are
    the accepted edges among the events before the frame (all accepted
    edges in the last frame of a period), and they never hold a cycle; the
    current edge is that of the event of the frame, and none in the last
    frame. *)
Theorem update_mst_frames (w : Engine.world) (N : Z) :
  0 ≤ N → Forall (Kruskal.endpoints_in N) (Engine.edge_weights_labels w) →
  ∃ fuel trace,
    let w' := {| Engine.adj_list := Engine.adj_list w;
                 Engine.edge_weights_labels :=
                   Kruskal.sort_by_weight (Engine.edge_weights_labels w) |} in
    (∀ fuel', (fuel ≤ fuel')%nat →
       (Engine.run fuel' (Engine.Kruskals N) w).1
         = Engine.KruskalTrace (Done trace)) ∧
    ∀ fuel' itr, (fuel ≤ fuel')%nat →
      let i := Z.to_nat (itr `mod` Z.of_nat (S (length trace))) in
      ∃ fr,
        Animation.update_mst fuel' w N itr = (Animation.Shown fr, w') ∧
        Animation.update_mst fuel' w' N itr = (Animation.Shown fr, w') ∧
        Animation.update_mst fuel' w N (itr + Z.of_nat (S (length trace)))
          = (Animation.Shown fr, w') ∧
        Animation.mst_visited_edges fr
          = (λ e : Kruskal.edge_t, (e.1.1, e.1.2))
              <$> Mst.accepted_edges (take i trace) ∧
        Mst.acyclic (Mst.accepted_edges (take i trace)) ∧
        Animation.current_edge fr
          = match trace !! i with
            | Some (e, _) => [(e.1.1, e.1.2)]
            | None => []
            end ∧
        (i = length trace →
         Animation.current_edge fr = [] ∧
         Animation.mst_visited_edges fr
           = (λ e : Kruskal.edge_t, (e.1.1, e.1.2)) <$> Mst.accepted_edges trace).
Proof.
  intros HN Hall. set (edges := Engine.edge_weights_labels w) in *.
  exists (length edges + 2)%nat.
  destruct (kruskals_sorted_run (length edges + 2) edges N edges HN Hall ltac:(lia))
    as (root' & trace & _ & _ & Hrun & _ & _ & _ & _ & _ & _ & _ & Hacc).
  exists trace. intros w'. split.
  - intros fuel' Hle. simpl. f_equal.
    exact (kruskals_fuel_mono (length edges + 2) fuel' edges N edges trace Hrun Hle).
  - intros fuel' itr Hle i.
    assert ((Kruskal.kruskals fuel' edges N edges).1 = Done trace) as Hrun'.
    { by apply kruskals_fuel_mono with (length edges + 2)%nat. }
    assert (∀ itr', Animation.update_mst fuel' w N itr'
              = (Animation.py_mod itr' (length (Animation.mst_order trace))
                   (Animation.mst_select (Animation.mst_order trace)
                      (Kruskal.sort_by_weight edges)), w')) as Hw.
    { intros itr'. unfold Animation.update_mst. fold edges.
      rewrite kruskals_pair, Hrun'. done. }
    assert (Animation.update_mst fuel' w' N itr
              = (Animation.py_mod itr (length (Animation.mst_order trace))
                   (Animation.mst_select (Animation.mst_order trace)
                      (Kruskal.sort_by_weight edges)), w')) as Hw'.
    { unfold Animation.update_mst, w'.
      cbn [Engine.edge_weights_labels Engine.adj_list].
      rewrite (kruskals_sorted_again fuel' edges _ N edges).
      rewrite kruskals_pair, Hrun'. done. }
    rewrite !Hw, Hw', mst_order_length.
    destruct (py_mod_spec itr (S (length trace))
                (Animation.mst_select (Animation.mst_order trace)
                   (Kruskal.sort_by_weight edges)) ltac:(lia))
      as (Hsel & Hlt & Hper).
    fold i in Hsel, Hlt. rewrite Hper, Hsel.
    rewrite mst_select_spec by lia.
    eexists. split_and!; try done; simpl.
    + apply accept_ok_spans. apply accept_ok_prefix with (drop i trace).
      by rewrite take_drop.
    + intros ->. rewrite lookup_ge_None_2 by lia. by rewrite take_ge by lia.
Qed.

Lemma update_mst_frames_witness :
  ∃ fuel trace,
    let w' := {| Engine.adj_list := Engine.adj_list Engine.scenario_world;
                 Engine.edge_weights_labels :=
                   Kruskal.sort_by_weight
                     (Engine.edge_weights_labels Engine.scenario_world) |} in
    (∀ fuel', (fuel ≤ fuel')%nat →
       (Engine.run fuel' (Engine.Kruskals 4) Engine.scenario_world).1
         = Engine.KruskalTrace (Done trace)) ∧
    ∀ fuel' itr, (fuel ≤ fuel')%nat →
      let i := Z.to_nat (itr `mod` Z.of_nat (S (length trace))) in
      ∃ fr,
        Animation.update_mst fuel' Engine.scenario_world 4 itr
          = (Animation.Shown fr, w') ∧
        Animation.update_mst fuel' w' 4 itr = (Animation.Shown fr, w') ∧
        Animation.update_mst fuel' Engine.scenario_world 4
            (itr + Z.of_nat (S (length trace)))
          = (Animation.Shown fr, w') ∧
        Animation.mst_visited_edges fr
          = (λ e : Kruskal.edge_t, (e.1.1, e.1.2))
              <$> Mst.accepted_edges (take i trace) ∧
        Mst.acyclic (Mst.accepted_edges (take i trace)) ∧
        Animation.current_edge fr
          = match trace !! i with
            | Some (e, _) => [(e.1.1, e.1.2)]
            | None => []
            end ∧
        (i = length trace →
         Animation.current_edge fr = [] ∧
         Animation.mst_visited_edges fr
           = (λ e : Kruskal.edge_t, (e.1.1, e.1.2)) <$> Mst.accepted_edges trace).
Proof.
  apply (update_mst_frames Engine.scenario_world 4).
  - lia.
  - repeat constructor; simpl; lia.
Defined.
